(** * Eviction caches of [04_lru_cache.py]: LRUCache, LRUCacheSimple, LFUCache

    A shallow embedding of the three cache classes.  Python dictionaries are
    finite maps, [OrderedDict] is an association list kept in insertion
    order, the doubly linked list of [LRUCache] lives in an explicit store
    of [ListNode] objects addressed by reference, and every statement that
    can raise ([KeyError] on a missing dictionary key, [AttributeError] on an
    attribute of [None]) is a step of an error monad. *)

From stdpp Require Import gmap list sorting.

Open Scope Z_scope.

(** ** Exceptions and the error monad *)

(** The exceptions the three classes can raise.  [DanglingReference] does not
    exist in Python (a reference always denotes a live object); it is what
    the store returns for an address that was never allocated. *)
Inductive exn := KeyError | AttributeError | DanglingReference.

Inductive result (A : Type) : Type :=
| Ok (a : A)
| Raise (e : exn).
Arguments Ok {A} a.
Arguments Raise {A} e.

#[global] Instance result_ret : MRet result := λ A a, Ok a.
#[global] Instance result_bind : MBind result := λ A B f r,
  match r with Ok a => f a | Raise e => Raise e end.

Definition succeeds {A} (r : result A) : Prop := ∃ a, r = Ok a.

(** The calls a client can make on a cache, and what it observes:
    [get] returns an integer, [put] returns [None]. *)
Inductive op := Get (k : Z) | Put (k v : Z).

Definition op_key (o : op) : Z :=
  match o with Get k => k | Put k _ => k end.

(** ** dict *)

Module Dict.
Section dict.
Context {V : Type}.

(** [key in d] *)
Definition contains (k : Z) (d : gmap Z V) : bool :=
  match d !! k with Some _ => true | None => false end.

(** [d[key]] *)
Definition getitem (k : Z) (d : gmap Z V) : result V :=
  match d !! k with Some v => Ok v | None => Raise KeyError end.

(** [del d[key]] *)
Definition delitem (k : Z) (d : gmap Z V) : result (gmap Z V) :=
  match d !! k with Some _ => Ok (delete k d) | None => Raise KeyError end.

(** [len(d)] *)
Definition len (d : gmap Z V) : Z := Z.of_nat (size d).
End dict.
End Dict.

(** ** collections.OrderedDict *)

Module OrderedDict.
Section ordered_dict.
Context {V : Type}.

(** Items in insertion order: the first item is the oldest. *)
Local Abbreviation t := (list (Z * V)) (only parsing).

Fixpoint lookup (k : Z) (d : t) : option V :=
  match d with
  | [] => None
  | (k', v) :: d' => if decide (k = k') then Some v else lookup k d'
  end.

(** [key in d] *)
Definition contains (k : Z) (d : t) : bool :=
  match lookup k d with Some _ => true | None => false end.

(** [d[key]] *)
Definition getitem (k : Z) (d : t) : result V :=
  match lookup k d with Some v => Ok v | None => Raise KeyError end.

Fixpoint remove (k : Z) (d : t) : t :=
  match d with
  | [] => []
  | (k', v) :: d' => if decide (k = k') then d' else (k', v) :: remove k d'
  end.

Fixpoint replace (k : Z) (v : V) (d : t) : t :=
  match d with
  | [] => []
  | (k', v') :: d' =>
      if decide (k = k') then (k', v) :: d' else (k', v') :: replace k v d'
  end.

(** [d[key] = value]: an existing key keeps its position, a new key goes
    to the end. *)
Definition setitem (k : Z) (v : V) (d : t) : t :=
  if contains k d then replace k v d else d ++ [(k, v)].

(** [del d[key]] *)
Definition delitem (k : Z) (d : t) : result t :=
  if contains k d then Ok (remove k d) else Raise KeyError.

(** [d.move_to_end(key)] *)
Definition move_to_end (k : Z) (d : t) : result t :=
  match lookup k d with
  | Some v => Ok (remove k d ++ [(k, v)])
  | None => Raise KeyError
  end.

(** [d.popitem(last=False)] *)
Definition popitem_first (d : t) : result ((Z * V) * t) :=
  match d with
  | [] => Raise KeyError
  | item :: d' => Ok (item, d')
  end.

(** [len(d)] *)
Definition len (d : t) : Z := Z.of_nat (length d).

(** [not d] *)
Definition is_empty (d : t) : bool :=
  match d with [] => true | _ => false end.
End ordered_dict.
Abbreviation t V := (list (Z * V)) (only parsing).
End OrderedDict.

(** ** LRUCacheSimple: the OrderedDict implementation *)

Module LRUCacheSimple.
Record t := mk { capacity : Z; cache : OrderedDict.t Z }.

(** [__init__] *)
Definition init (capacity : Z) : result t := Ok (mk capacity []).

Definition get (key : Z) (self : t) : result (Z * t) :=
  if negb (OrderedDict.contains key (cache self)) then Ok (-1, self)
  else
    c ← OrderedDict.move_to_end key (cache self);
    v ← OrderedDict.getitem key c;
    Ok (v, mk (capacity self) c).

Definition put (key value : Z) (self : t) : result t :=
  c ← (if OrderedDict.contains key (cache self)
       then OrderedDict.move_to_end key (cache self)
       else Ok (cache self));
  let c := OrderedDict.setitem key value c in
  if decide (OrderedDict.len c > capacity self) then
    '(_, c) ← OrderedDict.popitem_first c;
    Ok (mk (capacity self) c)
  else Ok (mk (capacity self) c).

Definition size (self : t) : Z := OrderedDict.len (cache self).

(** One client call: the value a [get] returns ([None] for [put]) and the
    cache afterwards. *)
Definition step (o : op) (self : t) : result (option Z * t) :=
  match o with
  | Get k => '(v, s) ← get k self; Ok (Some v, s)
  | Put k v => s ← put k v self; Ok (None, s)
  end.

Fixpoint run (ops : list op) (self : t) : result (list (option Z) * t) :=
  match ops with
  | [] => Ok ([], self)
  | o :: ops' =>
      '(r, s) ← step o self;
      '(rs, s') ← run ops' s;
      Ok (r :: rs, s')
  end.

(** Construct a cache, then make the calls [ops] on it. *)
Definition session (capacity : Z) (ops : list op) :
    result (list (option Z) * t) :=
  s ← init capacity; run ops s.
End LRUCacheSimple.

(** ** LRUCache: hash map plus doubly linked list *)

Module LRUCache.
(** A reference to a [ListNode] object; a variable of type
    [Optional[ListNode]] is an [option ref], with [None] for Python's. *)
Abbreviation ref := nat (only parsing).

Record ListNode := Node {
  key : Z;
  value : Z;
  prev : option ref;
  next : option ref
}.

(** The object store: the live [ListNode] objects and the next unused
    reference. *)
Record store := Store { cells : gmap nat ListNode; limit : nat }.

(** [ListNode(key, value)] *)
Definition alloc (key value : Z) (m : store) : ref * store :=
  (limit m,
   Store (<[limit m := Node key value None None]> (cells m)) (S (limit m))).

(** Reading the object behind [o]; any attribute of [None] raises. *)
Definition attr (o : option ref) (m : store) : result ListNode :=
  match o with
  | None => Raise AttributeError
  | Some r =>
      match cells m !! r with
      | Some n => Ok n
      | None => Raise DanglingReference
      end
  end.

Definition write (o : option ref) (n : ListNode) (m : store) : store :=
  match o with
  | None => m
  | Some r => Store (<[r := n]> (cells m)) (limit m)
  end.

(** [o.prev = v], [o.next = v], [o.value = v] *)
Definition set_prev (o v : option ref) (m : store) : result store :=
  n ← attr o m; Ok (write o (Node (key n) (value n) v (next n)) m).
Definition set_next (o v : option ref) (m : store) : result store :=
  n ← attr o m; Ok (write o (Node (key n) (value n) (prev n) v) m).
Definition set_value (o : option ref) (v : Z) (m : store) : result store :=
  n ← attr o m; Ok (write o (Node (key n) v (prev n) (next n)) m).

Record t := mk {
  capacity : Z;
  cache : gmap Z ref;
  mem : store;
  head : ref;
  tail : ref
}.

Definition with_mem (self : t) (m : store) : t :=
  mk (capacity self) (cache self) m (head self) (tail self).
Definition with_cache (self : t) (c : gmap Z ref) : t :=
  mk (capacity self) c (mem self) (head self) (tail self).

(** [__init__] *)
Definition init (capacity : Z) : result t :=
  let m := Store ∅ 0 in
  let '(head, m) := alloc 0 0 m in
  let '(tail, m) := alloc 0 0 m in
  m ← set_next (Some head) (Some tail) m;
  m ← set_prev (Some tail) (Some head) m;
  Ok (mk capacity ∅ m head tail).

Definition _add_to_head (node : option ref) (self : t) : result t :=
  let m := mem self in
  (* node.prev = self.head *)
  m ← set_prev node (Some (head self)) m;
  (* node.next = self.head.next *)
  hd ← attr (Some (head self)) m;
  m ← set_next node (next hd) m;
  (* self.head.next.prev = node *)
  hd ← attr (Some (head self)) m;
  m ← set_prev (next hd) node m;
  (* self.head.next = node *)
  m ← set_next (Some (head self)) node m;
  Ok (with_mem self m).

Definition _remove_node (node : option ref) (self : t) : result t :=
  let m := mem self in
  (* node.prev.next = node.next *)
  n ← attr node m;
  m ← set_next (prev n) (next n) m;
  (* node.next.prev = node.prev *)
  n ← attr node m;
  m ← set_prev (next n) (prev n) m;
  Ok (with_mem self m).

Definition _move_to_head (node : option ref) (self : t) : result t :=
  self ← _remove_node node self;
  _add_to_head node self.

Definition _pop_tail (self : t) : result (option ref * t) :=
  tl ← attr (Some (tail self)) (mem self);
  let lru := prev tl in
  self ← _remove_node lru self;
  Ok (lru, self).

Definition get (key : Z) (self : t) : result (Z * t) :=
  if negb (Dict.contains key (cache self)) then Ok (-1, self)
  else
    node ← Dict.getitem key (cache self);
    self ← _move_to_head (Some node) self;
    n ← attr (Some node) (mem self);
    Ok (value n, self).

Definition put (k v : Z) (self : t) : result t :=
  if Dict.contains k (cache self) then
    node ← Dict.getitem k (cache self);
    m ← set_value (Some node) v (mem self);
    _move_to_head (Some node) (with_mem self m)
  else
    self ← (if decide (Dict.len (cache self) >= capacity self) then
              '(lru, self) ← _pop_tail self;
              n ← attr lru (mem self);
              c ← Dict.delitem (key n) (cache self);
              Ok (with_cache self c)
            else Ok self);
    let '(new_node, m) := alloc k v (mem self) in
    let self := with_cache (with_mem self m) (<[k := new_node]> (cache self)) in
    _add_to_head (Some new_node) self.

Definition size (self : t) : Z := Dict.len (cache self).

Definition step (o : op) (self : t) : result (option Z * t) :=
  match o with
  | Get k => '(v, s) ← get k self; Ok (Some v, s)
  | Put k v => s ← put k v self; Ok (None, s)
  end.

Fixpoint run (ops : list op) (self : t) : result (list (option Z) * t) :=
  match ops with
  | [] => Ok ([], self)
  | o :: ops' =>
      '(r, s) ← step o self;
      '(rs, s') ← run ops' s;
      Ok (r :: rs, s')
  end.

Definition session (capacity : Z) (ops : list op) :
    result (list (option Z) * t) :=
  s ← init capacity; run ops s.
End LRUCache.

(** ** LFUCache *)

Module LFUCache.
Record t := mk {
  capacity : Z;
  min_freq : Z;
  key_to_val : gmap Z Z;
  key_to_freq : gmap Z Z;
  freq_to_keys : gmap Z (OrderedDict.t unit)
}.

(** [__init__] *)
Definition init (capacity : Z) : result t := Ok (mk capacity 0 ∅ ∅ ∅).

(** [if f not in d: d[f] = OrderedDict()] followed by [d[f][key] = None] *)
Definition add_to_bucket (f key : Z) (d : gmap Z (OrderedDict.t unit)) :
    result (gmap Z (OrderedDict.t unit)) :=
  let d := if negb (Dict.contains f d) then <[f := []]> d else d in
  bucket ← Dict.getitem f d;
  Ok (<[f := OrderedDict.setitem key () bucket]> d).

Definition _update_freq (key : Z) (self : t) : result t :=
  freq ← Dict.getitem key (key_to_freq self);
  let k2f := <[key := freq + 1]> (key_to_freq self) in
  (* del self.freq_to_keys[freq][key] *)
  bucket ← Dict.getitem freq (freq_to_keys self);
  bucket ← OrderedDict.delitem key bucket;
  let f2k := <[freq := bucket]> (freq_to_keys self) in
  (* if not self.freq_to_keys[freq] and self.min_freq == freq *)
  bucket ← Dict.getitem freq f2k;
  let mf := if OrderedDict.is_empty bucket && bool_decide (min_freq self = freq)
            then freq + 1 else min_freq self in
  f2k ← add_to_bucket (freq + 1) key f2k;
  Ok (mk (capacity self) mf (key_to_val self) k2f f2k).

Definition get (key : Z) (self : t) : result (Z * t) :=
  if negb (Dict.contains key (key_to_val self)) then Ok (-1, self)
  else
    self ← _update_freq key self;
    v ← Dict.getitem key (key_to_val self);
    Ok (v, self).

Definition put (key value : Z) (self : t) : result t :=
  if decide (capacity self <= 0) then Ok self
  else if Dict.contains key (key_to_val self) then
    _update_freq key
      (mk (capacity self) (min_freq self) (<[key := value]> (key_to_val self))
          (key_to_freq self) (freq_to_keys self))
  else
    self ← (if decide (Dict.len (key_to_val self) >= capacity self) then
              bucket ← Dict.getitem (min_freq self) (freq_to_keys self);
              '((evict_key, _), bucket) ← OrderedDict.popitem_first bucket;
              let f2k := <[min_freq self := bucket]> (freq_to_keys self) in
              k2v ← Dict.delitem evict_key (key_to_val self);
              k2f ← Dict.delitem evict_key (key_to_freq self);
              Ok (mk (capacity self) (min_freq self) k2v k2f f2k)
            else Ok self);
    let k2v := <[key := value]> (key_to_val self) in
    let k2f := <[key := 1]> (key_to_freq self) in
    f2k ← add_to_bucket 1 key (freq_to_keys self);
    Ok (mk (capacity self) 1 k2v k2f f2k).

Definition size (self : t) : Z := Dict.len (key_to_val self).

Definition step (o : op) (self : t) : result (option Z * t) :=
  match o with
  | Get k => '(v, s) ← get k self; Ok (Some v, s)
  | Put k v => s ← put k v self; Ok (None, s)
  end.

Fixpoint run (ops : list op) (self : t) : result (list (option Z) * t) :=
  match ops with
  | [] => Ok ([], self)
  | o :: ops' =>
      '(r, s) ← step o self;
      '(rs, s') ← run ops' s;
      Ok (r :: rs, s')
  end.

Definition session (capacity : Z) (ops : list op) :
    result (list (option Z) * t) :=
  s ← init capacity; run ops s.
End LFUCache.

(** ** Recency of keys in a history of calls *)

(** [last_touch ops k] is the time (counting calls from 1) of the last call
    of [ops] on key [k], and 0 when there is none.  A key stored in a cache
    was last touched by the last call on it. *)
Fixpoint stamp (now : nat) (ops : list op) (k : Z) (t : nat) : nat :=
  match ops with
  | [] => t
  | o :: ops' =>
      stamp (S now) ops' k (if decide (op_key o = k) then S now else t)
  end.

Definition last_touch (ops : list op) (k : Z) : nat := stamp 0 ops k 0.

Definition older (ops : list op) : relation Z :=
  λ k1 k2, (last_touch ops k1 < last_touch ops k2)%nat.

(** The calls [put(k, v)] for the items [(k, v)] of a list, in order. *)
Definition puts (items : list (Z * Z)) : list op :=
  (λ kv, Put kv.1 kv.2) <$> items.

(** ** Invariants *)

(** LRUCacheSimple after the calls [ops]: keys are unique and the dictionary
    is ordered from least to most recently touched. *)
Record simple_inv (ops : list op) (s : LRUCacheSimple.t) : Prop := {
  simple_nodup : NoDup (LRUCacheSimple.cache s).*1;
  simple_sorted : StronglySorted (older ops) (LRUCacheSimple.cache s).*1;
  simple_size : LRUCacheSimple.size s ≤ Z.max 0 (LRUCacheSimple.capacity s)
}.

(** The references [L], in this order, form a doubly linked list whose first
    node has no predecessor and whose last node has no successor. *)
Definition linked (c : gmap nat LRUCache.ListNode) (L : list LRUCache.ref) :
    Prop :=
  ∀ i r, L !! i = Some r →
    ∃ n, c !! r = Some n ∧
         LRUCache.prev n = match i with O => None | S j => L !! j end ∧
         LRUCache.next n = L !! S i.

Definition payload (n : LRUCache.ListNode) : Z * Z :=
  (LRUCache.key n, LRUCache.value n).

(** [es] lists the entries of an LRUCache from the node after [head] to the
    node before [tail], each with its reference, key and value. *)
Record rep (s : LRUCache.t) (es : list (LRUCache.ref * (Z * Z))) : Prop := {
  rep_nodup : NoDup (LRUCache.head s :: es.*1 ++ [LRUCache.tail s]);
  rep_linked :
    linked (LRUCache.cells (LRUCache.mem s))
           (LRUCache.head s :: es.*1 ++ [LRUCache.tail s]);
  rep_payload : ∀ r kv, (r, kv) ∈ es →
    payload <$> LRUCache.cells (LRUCache.mem s) !! r = Some kv;
  rep_keys : NoDup es.*2.*1;
  rep_cache : ∀ k r,
    LRUCache.cache s !! k = Some r ↔ ∃ v, (r, (k, v)) ∈ es;
  rep_limit : ∀ r, is_Some (LRUCache.cells (LRUCache.mem s) !! r) →
    (r < LRUCache.limit (LRUCache.mem s))%nat
}.

(** An LRUCache and an LRUCacheSimple hold the same entries in the same
    recency order (the linked list runs from most to least recent, the
    OrderedDict from least to most recent). *)
Definition refines (s : LRUCache.t) (x : LRUCacheSimple.t) : Prop :=
  LRUCache.capacity s = LRUCacheSimple.capacity x ∧
  ∃ es, rep s es ∧ LRUCacheSimple.cache x = reverse es.*2.

(** LFUCache after the calls [ops]: the two dictionaries have the same keys,
    every key sits in the bucket of its frequency and nowhere else, and each
    bucket is ordered from least to most recently touched. *)
Record lfu_core (ops : list op) (s : LFUCache.t) : Prop := {
  lfu_dom : ∀ k, is_Some (LFUCache.key_to_val s !! k) ↔
                 is_Some (LFUCache.key_to_freq s !! k);
  lfu_in_bucket : ∀ k f, LFUCache.key_to_freq s !! k = Some f →
    ∃ b, LFUCache.freq_to_keys s !! f = Some b ∧ k ∈ b.*1;
  lfu_bucket_freq : ∀ f b k, LFUCache.freq_to_keys s !! f = Some b →
    k ∈ b.*1 → LFUCache.key_to_freq s !! k = Some f;
  lfu_bucket_nodup : ∀ f b, LFUCache.freq_to_keys s !! f = Some b →
    NoDup b.*1;
  lfu_bucket_sorted : ∀ f b, LFUCache.freq_to_keys s !! f = Some b →
    StronglySorted (older ops) b.*1;
  lfu_freq_pos : ∀ k f, LFUCache.key_to_freq s !! k = Some f → 1 ≤ f
}.

(** In addition [min_freq] is the least frequency in use (when there is a
    key at all) and the cache is not over its capacity. *)
Record lfu_inv (ops : list op) (s : LFUCache.t) : Prop := {
  lfu_core_inv : lfu_core ops s;
  lfu_min : LFUCache.key_to_val s ≠ ∅ →
    (∃ k, LFUCache.key_to_freq s !! k = Some (LFUCache.min_freq s)) ∧
    ∀ k f, LFUCache.key_to_freq s !! k = Some f → LFUCache.min_freq s ≤ f;
  lfu_size : LFUCache.size s ≤ Z.max 0 (LFUCache.capacity s)
}.

(** ** Observations *)

(** [self.cache[key].value], read without touching the list: the value an
    LRUCache holds for a key, if it holds one. *)
Definition lru_peek (k : Z) (s : LRUCache.t) : option Z :=
  r ← LRUCache.cache s !! k;
  LRUCache.value <$> LRUCache.cells (LRUCache.mem s) !! r.

(** What a cache that stores nothing returns: -1 from every [get]. *)
Definition miss_results (ops : list op) : list (option Z) :=
  (λ o, match o with Get _ => Some (-1) | Put _ _ => None end) <$> ops.

(** The distinct keys that the puts of a history were made on. *)
Definition put_keys (ops : list op) : gset Z :=
  list_to_set
    (omap (λ o, match o with Put k _ => Some k | Get _ => None end) ops).

(** * Proofs *)

(** ** The error monad *)

Lemma bind_Ok {A B} (f : A → result B) (r : result A) (b : B) :
  r ≫= f = Ok b ↔ ∃ a, r = Ok a ∧ f a = Ok b.
Proof.
  destruct r as [a|e]; simpl; split.
  - eauto.
  - by intros (a' & [= <-] & ?).
  - done.
  - by intros (? & ? & ?).
Qed.

(** ** Recency *)

Lemma stamp_snoc now ops o k t :
  stamp now (ops ++ [o]) k t =
  if decide (op_key o = k) then S (now + length ops) else stamp now ops k t.
Proof.
  revert now t. induction ops as [|o' ops IH]; intros now t; simpl.
  - case_decide; f_equal; lia.
  - rewrite IH. case_decide; [f_equal; lia|done].
Qed.

Lemma stamp_bound now ops k t :
  (t ≤ now → stamp now ops k t ≤ now + length ops)%nat.
Proof.
  revert now t. induction ops as [|o ops IH]; intros now t Ht; simpl; [lia|].
  etrans; [apply IH; case_decide; lia|lia].
Qed.

Lemma last_touch_snoc ops o k :
  last_touch (ops ++ [o]) k =
  if decide (op_key o = k) then S (length ops) else last_touch ops k.
Proof. unfold last_touch. by rewrite stamp_snoc. Qed.

Lemma last_touch_bound ops k : (last_touch ops k ≤ length ops)%nat.
Proof. unfold last_touch. by apply (stamp_bound 0 ops k 0). Qed.

Lemma older_snoc_other ops o k1 k2 :
  op_key o ≠ k1 → op_key o ≠ k2 → older ops k1 k2 → older (ops ++ [o]) k1 k2.
Proof.
  unfold older. intros ? ?. rewrite !last_touch_snoc.
  by repeat case_decide.
Qed.

Lemma older_snoc_touched ops o k :
  op_key o ≠ k → older (ops ++ [o]) k (op_key o).
Proof.
  unfold older. intros ?. rewrite !last_touch_snoc.
  repeat case_decide; try done. pose proof (last_touch_bound ops k). lia.
Qed.

Lemma sorted_snoc_other ops o ks :
  op_key o ∉ ks → StronglySorted (older ops) ks →
  StronglySorted (older (ops ++ [o])) ks.
Proof.
  induction ks as [|k ks IH]; intros Hni Hs; [constructor|].
  apply StronglySorted_cons in Hs as [Hall Hs].
  apply not_elem_of_cons in Hni as [? ?].
  apply StronglySorted_cons. split; [|by apply IH].
  rewrite Forall_forall in Hall |- *. intros k' Hk'.
  apply older_snoc_other; [done| |by apply Hall].
  by intros <-.
Qed.

Lemma sorted_snoc_touched ops o ks :
  op_key o ∉ ks → StronglySorted (older ops) ks →
  StronglySorted (older (ops ++ [o])) (ks ++ [op_key o]).
Proof.
  intros Hni Hs. apply StronglySorted_app_2.
  - intros k1 k2 Hk1 ->%list_elem_of_singleton.
    apply older_snoc_touched. by intros <-.
  - by apply sorted_snoc_other.
  - repeat constructor.
Qed.

(** ** OrderedDict *)

Section ordered_dict_facts.
Context {V : Type}.
Implicit Types (d A B : OrderedDict.t V) (k : Z) (v : V).

Lemma od_lookup_None k d : OrderedDict.lookup k d = None ↔ k ∉ d.*1.
Proof.
  induction d as [|[k' v'] d IH]; simpl.
  - split; [intros _; apply not_elem_of_nil|done].
  - rewrite not_elem_of_cons. case_decide; naive_solver.
Qed.

Lemma od_lookup_is_Some k d : is_Some (OrderedDict.lookup k d) ↔ k ∈ d.*1.
Proof.
  rewrite <-not_eq_None_Some, od_lookup_None.
  split; [apply dec_stable|auto].
Qed.

Lemma od_lookup_split k d v :
  OrderedDict.lookup k d = Some v →
  ∃ A B, d = A ++ (k, v) :: B ∧ k ∉ A.*1.
Proof.
  induction d as [|[k' v'] d IH]; simpl; [done|].
  case_decide as Hk.
  - intros [= ->]. subst k'. exists [], d. split; [done|apply not_elem_of_nil].
  - intros (A & B & -> & HA)%IH. exists ((k', v') :: A), B.
    split; [done|]. simpl. rewrite not_elem_of_cons. done.
Qed.

Lemma od_lookup_app_notin k A B :
  k ∉ A.*1 → OrderedDict.lookup k (A ++ B) = OrderedDict.lookup k B.
Proof.
  induction A as [|[k' v'] A IH]; simpl; [done|].
  rewrite not_elem_of_cons. intros [? ?]. case_decide; [done|auto].
Qed.

Lemma od_lookup_middle k v A B :
  k ∉ A.*1 → OrderedDict.lookup k (A ++ (k, v) :: B) = Some v.
Proof.
  intros. rewrite od_lookup_app_notin by done. simpl. by case_decide.
Qed.

Lemma od_lookup_other k k' v A B :
  k' ≠ k →
  OrderedDict.lookup k' (A ++ (k, v) :: B) = OrderedDict.lookup k' (A ++ B).
Proof.
  intros. induction A as [|[k'' v''] A IH]; simpl.
  - by case_decide.
  - case_decide; [done|apply IH].
Qed.

Lemma od_lookup_elem k v d : OrderedDict.lookup k d = Some v → (k, v) ∈ d.
Proof.
  intros (A & B & -> & _)%od_lookup_split. set_solver.
Qed.

Lemma od_elem_lookup k v d :
  NoDup d.*1 → (k, v) ∈ d → OrderedDict.lookup k d = Some v.
Proof.
  intros Hnd (A & B & ->)%list_elem_of_split.
  rewrite fmap_app, fmap_cons in Hnd. simpl in Hnd.
  apply NoDup_app in Hnd as (_ & Hni & _).
  apply od_lookup_middle. intros Hk. apply (Hni _ Hk). set_solver.
Qed.

Lemma od_remove_middle k v A B :
  k ∉ A.*1 → OrderedDict.remove k (A ++ (k, v) :: B) = A ++ B.
Proof.
  induction A as [|[k' v'] A IH]; simpl.
  - intros _. by case_decide.
  - rewrite not_elem_of_cons. intros [? ?]. case_decide; [done|].
    f_equal. auto.
Qed.

Lemma od_replace_middle k v v' A B :
  k ∉ A.*1 →
  OrderedDict.replace k v' (A ++ (k, v) :: B) = A ++ (k, v') :: B.
Proof.
  induction A as [|[k' v''] A IH]; simpl.
  - intros _. by case_decide.
  - rewrite not_elem_of_cons. intros [? ?]. case_decide; [done|].
    f_equal. auto.
Qed.

Lemma od_contains_true k d : OrderedDict.contains k d = true ↔ k ∈ d.*1.
Proof.
  unfold OrderedDict.contains. rewrite <-od_lookup_is_Some.
  destruct (OrderedDict.lookup k d); split; intros Hc; try done.
Qed.

Lemma od_contains_false k d : OrderedDict.contains k d = false ↔ k ∉ d.*1.
Proof.
  rewrite <-od_contains_true. by destruct (OrderedDict.contains k d).
Qed.

Lemma od_move_to_end_middle k v A B :
  k ∉ A.*1 →
  OrderedDict.move_to_end k (A ++ (k, v) :: B) = Ok (A ++ B ++ [(k, v)]).
Proof.
  intros. unfold OrderedDict.move_to_end.
  rewrite od_lookup_middle, od_remove_middle by done. by rewrite <-(assoc_L _).
Qed.

Lemma od_setitem_last k v v' A :
  k ∉ A.*1 → OrderedDict.setitem k v' (A ++ [(k, v)]) = A ++ [(k, v')].
Proof.
  intros. unfold OrderedDict.setitem.
  assert (OrderedDict.contains k (A ++ [(k, v)]) = true) as ->.
  { apply od_contains_true. rewrite fmap_app. set_solver. }
  by apply od_replace_middle.
Qed.

Lemma od_setitem_new k v d :
  k ∉ d.*1 → OrderedDict.setitem k v d = d ++ [(k, v)].
Proof.
  intros ?%od_contains_false. unfold OrderedDict.setitem. by rewrite H.
Qed.

Lemma od_delitem_middle k v A B :
  k ∉ A.*1 → OrderedDict.delitem k (A ++ (k, v) :: B) = Ok (A ++ B).
Proof.
  intros. unfold OrderedDict.delitem, OrderedDict.contains.
  rewrite od_lookup_middle, od_remove_middle by done. done.
Qed.

(** A key that occurs once splits the dictionary around its item. *)
Lemma od_split k d :
  NoDup d.*1 → k ∈ d.*1 →
  ∃ A v B, d = A ++ (k, v) :: B ∧ (k ∉ A.*1) ∧ (k ∉ B.*1).
Proof.
  intros Hnd [v Hv]%od_lookup_is_Some.
  destruct (od_lookup_split _ _ _ Hv) as (A & B & -> & HA).
  exists A, v, B. split_and!; [done..|].
  rewrite fmap_app, fmap_cons in Hnd.
  apply NoDup_app in Hnd as (_ & _ & Hnd). by apply NoDup_cons in Hnd as [? _].
Qed.
End ordered_dict_facts.

(** ** LRUCacheSimple *)

Section simple_facts.
Implicit Types (s : LRUCacheSimple.t) (k v : Z) (A B : OrderedDict.t Z).

Lemma simple_get_miss k s :
  k ∉ (LRUCacheSimple.cache s).*1 → LRUCacheSimple.get k s = Ok (-1, s).
Proof.
  intros ?%od_contains_false. unfold LRUCacheSimple.get. by rewrite H.
Qed.

Lemma simple_get_hit k v A B c :
  k ∉ A.*1 → k ∉ B.*1 →
  LRUCacheSimple.get k (LRUCacheSimple.mk c (A ++ (k, v) :: B)) =
  Ok (v, LRUCacheSimple.mk c (A ++ B ++ [(k, v)])).
Proof.
  intros HA HB. unfold LRUCacheSimple.get. simpl.
  assert (OrderedDict.contains k (A ++ (k, v) :: B) = true) as ->.
  { apply od_contains_true. rewrite fmap_app. set_solver. }
  simpl. rewrite od_move_to_end_middle by done. simpl.
  unfold OrderedDict.getitem.
  rewrite (assoc_L _ A B), od_lookup_middle; [done|].
  rewrite fmap_app. set_solver.
Qed.

Lemma simple_put_hit k v v0 A B c :
  k ∉ A.*1 → k ∉ B.*1 → OrderedDict.len (A ++ (k, v0) :: B) ≤ c →
  LRUCacheSimple.put k v (LRUCacheSimple.mk c (A ++ (k, v0) :: B)) =
  Ok (LRUCacheSimple.mk c (A ++ B ++ [(k, v)])).
Proof.
  intros HA HB Hlen. unfold LRUCacheSimple.put. simpl.
  assert (OrderedDict.contains k (A ++ (k, v0) :: B) = true) as ->.
  { apply od_contains_true. rewrite fmap_app. set_solver. }
  rewrite od_move_to_end_middle by done. simpl.
  rewrite (assoc_L _ A B), od_setitem_last
    by (rewrite fmap_app; set_solver).
  case_decide as Hgt; [|by rewrite <-(assoc_L (++))].
  unfold OrderedDict.len in *.
  rewrite !length_app in *. simpl in *. lia.
Qed.

Lemma simple_put_new_room k v d c :
  k ∉ d.*1 → OrderedDict.len d < c →
  LRUCacheSimple.put k v (LRUCacheSimple.mk c d) =
  Ok (LRUCacheSimple.mk c (d ++ [(k, v)])).
Proof.
  intros Hk Hlen. unfold LRUCacheSimple.put. simpl.
  apply od_contains_false in Hk as Hc. rewrite Hc. simpl.
  rewrite od_setitem_new by done.
  case_decide as Hgt; [|done].
  unfold OrderedDict.len in *. rewrite length_app in *. simpl in *. lia.
Qed.

Lemma simple_put_new_full k v d c :
  k ∉ d.*1 → c ≤ OrderedDict.len d →
  LRUCacheSimple.put k v (LRUCacheSimple.mk c d) =
  Ok (LRUCacheSimple.mk c (tail (d ++ [(k, v)]))).
Proof.
  intros Hk Hlen. unfold LRUCacheSimple.put. simpl.
  apply od_contains_false in Hk as Hc. rewrite Hc. simpl.
  rewrite od_setitem_new by done.
  case_decide as Hgt.
  - by destruct d.
  - unfold OrderedDict.len in *. rewrite length_app in *. simpl in *. lia.
Qed.
End simple_facts.

Lemma fmap_fst_middle {V} (A B : list (Z * V)) k v :
  (A ++ (k, v) :: B).*1 = A.*1 ++ k :: B.*1.
Proof. by rewrite fmap_app, fmap_cons. Qed.

Lemma StronglySorted_middle {X} (R : relation X) A x B :
  StronglySorted R (A ++ x :: B) → StronglySorted R (A ++ B).
Proof.
  rewrite !StronglySorted_app, StronglySorted_cons.
  intros (H1 & H2 & _ & H3). split_and!; [|done..].
  intros x1 x2 ? ?. apply H1; [done|by right].
Qed.

Lemma NoDup_middle {X} (A B : list X) x :
  NoDup (A ++ x :: B) ↔ (x ∉ A ++ B) ∧ NoDup (A ++ B).
Proof.
  rewrite <-NoDup_cons. by rewrite (Permutation_middle A B x).
Qed.

(** Every call on an LRUCacheSimple returns, and keeps the invariant. *)
Lemma simple_step_inv ops o s :
  simple_inv ops s →
  ∃ r s', LRUCacheSimple.step o s = Ok (r, s') ∧
          simple_inv (ops ++ [o]) s' ∧
          LRUCacheSimple.capacity s' = LRUCacheSimple.capacity s.
Proof.
  destruct s as [c d]. intros [Hnd Hs Hsz]. simpl in *.
  unfold LRUCacheSimple.size in Hsz. simpl in Hsz.
  destruct (decide (op_key o ∈ d.*1)) as [Hin|Hni].
  - (* the key is stored *)
    destruct (od_split _ _ Hnd Hin) as (A & v0 & B & -> & HA & HB).
    rewrite fmap_fst_middle in Hnd, Hs.
    apply NoDup_middle in Hnd as [Hk Hnd].
    apply StronglySorted_middle in Hs.
    assert (OrderedDict.len (A ++ (op_key o, v0) :: B) ≤ c) as Hlen.
    { revert Hsz. unfold OrderedDict.len. rewrite length_app. simpl. lia. }
    assert (∀ v, simple_inv (ops ++ [o])
      (LRUCacheSimple.mk c (A ++ B ++ [(op_key o, v)]))) as Hinv.
    { intros v. split; simpl.
      - rewrite !fmap_app, (assoc_L (++)). simpl.
        apply NoDup_app. split_and!; [done| |].
        + by intros x Hx ->%list_elem_of_singleton.
        + repeat constructor. apply not_elem_of_nil.
      - rewrite !fmap_app, (assoc_L (++)). simpl.
        by apply sorted_snoc_touched.
      - unfold LRUCacheSimple.size, OrderedDict.len in *. simpl.
        revert Hsz. rewrite !length_app. simpl. lia. }
    destruct o as [k|k v]; simpl in *.
    + rewrite simple_get_hit by done. simpl. eauto.
    + rewrite simple_put_hit by done. simpl. eauto.
  - (* the key is absent *)
    destruct o as [k|k v]; simpl in *.
    + rewrite simple_get_miss by done. simpl.
      eexists _, _. split_and!; [done| |done].
      split; simpl; [done| |done]. by apply (sorted_snoc_other _ (Get k)).
    + pose proof (sorted_snoc_touched ops (Put k v) _ Hni Hs) as Hs'.
      simpl in Hs'.
      assert (NoDup (d ++ [(k, v)]).*1) as Hnd'.
      { rewrite fmap_app. simpl. apply NoDup_app. split_and!; [done| |].
        - by intros x Hx ->%list_elem_of_singleton.
        - repeat constructor. apply not_elem_of_nil. }
      destruct (decide (OrderedDict.len d < c)) as [Hlt|Hge].
      * rewrite simple_put_new_room by done. simpl.
        eexists _, _. split_and!; [done| |done].
        split; simpl; [done|by rewrite fmap_app|].
        unfold LRUCacheSimple.size, OrderedDict.len in *. simpl.
        rewrite length_app. simpl. lia.
      * rewrite simple_put_new_full by (done || lia). simpl.
        eexists _, _. split_and!; [done| |done].
        rewrite fmap_app in Hnd'. simpl in Hnd'.
        destruct d as [|e d]; simpl in *.
        { split; simpl; [constructor|constructor|].
          unfold LRUCacheSimple.size, OrderedDict.len. simpl. lia. }
        apply NoDup_cons in Hnd' as [_ Hnd'].
        apply StronglySorted_cons in Hs' as [_ Hs'].
        split; simpl; [by rewrite fmap_app|by rewrite fmap_app|].
        unfold LRUCacheSimple.size, OrderedDict.len in *. simpl in *.
        rewrite length_app. simpl. lia.
Qed.

(** ** The doubly linked list of LRUCache *)

Section linked_facts.
Import LRUCache.
Implicit Types (c : gmap nat ListNode) (L : list ref) (r p x : ref).

Lemma linked_lookup c L i r :
  linked c L → L !! i = Some r → is_Some (c !! r).
Proof. intros Hl Hi. destruct (Hl _ _ Hi) as (n & ? & _). by exists n. Qed.

(** Unlinking the node at position [S a]. *)
Lemma linked_delete c L a p r x np nx :
  NoDup L → linked c L →
  L !! a = Some p → L !! S a = Some r → L !! S (S a) = Some x →
  c !! p = Some np → c !! x = Some nx →
  linked (<[x := Node (key nx) (value nx) (Some p) (next nx)]>
          (<[p := Node (key np) (value np) (prev np) (Some x)]> c))
         (delete (S a) L).
Proof.
  intros Hnd Hl Hp Hr Hx Hnp Hnx i y Hy.
  assert (p ≠ x) as Hpx.
  { intros ->. pose proof (NoDup_lookup _ _ _ _ Hnd Hp Hx). lia. }
  destruct (decide (i ≤ a)%nat) as [Hle|Hgt].
  - rewrite list_lookup_delete_lt in Hy by lia.
    assert (y ≠ x) as Hyx.
    { intros ->. pose proof (NoDup_lookup _ _ _ _ Hnd Hy Hx). lia. }
    destruct (Hl _ _ Hy) as (n & Hn & Hprev & Hnext).
    destruct (decide (i = a)) as [->|Hne].
    + assert (y = p) as -> by congruence.
      rewrite lookup_insert_ne, lookup_insert_eq by done.
      eexists. split; [done|]. simpl. split.
      * replace np with n by congruence. rewrite Hprev.
        destruct a; [done|]. by rewrite list_lookup_delete_lt by lia.
      * by rewrite list_lookup_delete_ge by lia.
    + assert (y ≠ p) as Hyp.
      { intros ->. pose proof (NoDup_lookup _ _ _ _ Hnd Hy Hp). lia. }
      rewrite !lookup_insert_ne by done.
      exists n. split; [done|]. split.
      * rewrite Hprev. destruct i; [done|]. by rewrite list_lookup_delete_lt by lia.
      * rewrite Hnext. by rewrite list_lookup_delete_lt by lia.
  - rewrite list_lookup_delete_ge in Hy by lia.
    assert (y ≠ p) as Hyp.
    { intros ->. pose proof (NoDup_lookup _ _ _ _ Hnd Hy Hp). lia. }
    destruct (Hl _ _ Hy) as (n & Hn & Hprev & Hnext). simpl in Hprev.
    destruct (decide (i = S a)) as [->|Hne].
    + assert (y = x) as -> by congruence.
      rewrite lookup_insert_eq. eexists. split; [done|]. simpl. split.
      * by rewrite list_lookup_delete_lt by lia.
      * replace nx with n by congruence. rewrite Hnext.
        by rewrite list_lookup_delete_ge by lia.
    + assert (y ≠ x) as Hyx.
      { intros ->. pose proof (NoDup_lookup _ _ _ _ Hnd Hy Hx). lia. }
      rewrite !lookup_insert_ne by done.
      exists n. split; [done|]. split.
      * rewrite Hprev. destruct i; [lia|]. by rewrite list_lookup_delete_ge by lia.
      * rewrite Hnext. by rewrite list_lookup_delete_ge by lia.
Qed.

(** Linking a node between the first node and its successor. *)
Lemma linked_insert c hd f L r k v nh nf :
  NoDup (hd :: r :: f :: L) → linked c (hd :: f :: L) →
  c !! hd = Some nh → c !! f = Some nf →
  linked (<[hd := Node (key nh) (value nh) (prev nh) (Some r)]>
          (<[f := Node (key nf) (value nf) (Some r) (next nf)]>
           (<[r := Node k v (Some hd) (Some f)]> c)))
         (hd :: r :: f :: L).
Proof.
  intros Hnd Hl Hnh Hnf i y Hy.
  apply NoDup_cons in Hnd as [Hhd Hnd].
  apply NoDup_cons in Hnd as [Hr Hnd].
  apply NoDup_cons in Hnd as [Hf Hnd].
  rewrite !not_elem_of_cons in Hhd. rewrite not_elem_of_cons in Hr.
  destruct Hhd as (? & ? & ?), Hr as [? ?].
  destruct i as [|[|[|i]]]; simpl in Hy.
  - injection Hy as <-. rewrite lookup_insert_eq. eexists. split; [done|].
    simpl. split; [|done]. destruct (Hl 0%nat hd eq_refl) as (n & ? & ? & _).
    congruence.
  - injection Hy as <-. rewrite !lookup_insert_ne, lookup_insert_eq by done.
    eexists. by split.
  - injection Hy as <-. rewrite lookup_insert_ne, lookup_insert_eq by done.
    eexists. split; [done|]. simpl. split; [done|].
    destruct (Hl 1%nat f eq_refl) as (n & ? & _ & Hnx). simpl in Hnx.
    congruence.
  - assert (y ∈ L) as HyL by (by eapply list_elem_of_lookup_2).
    rewrite !lookup_insert_ne by (intros ->; done).
    destruct (Hl (S (S i)) y Hy) as (n & ? & ? & ?). exists n. split; [done|].
    split; [|done]. destruct i; done.
Qed.

(** Changing the value of a node leaves the links alone. *)
Lemma linked_set_value c L r n v :
  linked c L → c !! r = Some n →
  linked (<[r := Node (key n) v (prev n) (next n)]> c) L.
Proof.
  intros Hl Hn i y Hy. destruct (Hl _ _ Hy) as (n' & Hn' & ? & ?).
  destruct (decide (y = r)) as [->|Hne].
  - rewrite lookup_insert_eq. eexists. split; [done|]. simpl.
    by replace n with n' by congruence.
  - rewrite lookup_insert_ne by done. by exists n'.
Qed.
End linked_facts.

(** ** LRUCache: the list operations *)

Section lru_list_ops.
Import LRUCache.
Implicit Types (s : t) (c : gmap nat ListNode) (L A B : list ref) (r : ref).

Lemma lookup_three A p r x B :
  (A ++ p :: r :: x :: B) !! length A = Some p ∧
  (A ++ p :: r :: x :: B) !! S (length A) = Some r ∧
  (A ++ p :: r :: x :: B) !! S (S (length A)) = Some x.
Proof. induction A; simpl; auto. Qed.

Lemma delete_second A (p r : ref) B :
  delete (S (length A)) (A ++ p :: r :: B) = A ++ p :: B.
Proof. induction A; simpl; [done|]. by f_equal. Qed.

Lemma remove_node_spec s A r B :
  NoDup (A ++ r :: B) → linked (cells (mem s)) (A ++ r :: B) →
  A ≠ [] → B ≠ [] →
  ∃ c', _remove_node (Some r) s = Ok (with_mem s (Store c' (limit (mem s)))) ∧
        linked c' (A ++ B) ∧
        ∀ y, payload <$> c' !! y = payload <$> cells (mem s) !! y.
Proof.
  intros Hnd Hl HA HB.
  destruct A as [|p A _] using rev_ind; [done|].
  destruct B as [|x B]; [done|]. clear HA HB.
  rewrite <-(assoc_L (++)) in Hnd, Hl |- *. simpl in *.
  destruct (lookup_three A p r x B) as (Hp & Hr & Hx).
  destruct (Hl _ _ Hr) as (n & Hn & Hprev & Hnext).
  rewrite Hp in Hprev. rewrite Hx in Hnext.
  destruct (linked_lookup _ _ _ _ Hl Hp) as [np Hnp].
  destruct (linked_lookup _ _ _ _ Hl Hx) as [nx Hnx].
  assert (r ≠ p) as Hrp.
  { intros ->. pose proof (NoDup_lookup _ _ _ _ Hnd Hp Hr). lia. }
  assert (x ≠ p) as Hxp.
  { intros ->. pose proof (NoDup_lookup _ _ _ _ Hnd Hp Hx). lia. }
  pose proof (linked_delete _ _ _ _ _ _ _ _ Hnd Hl Hp Hr Hx Hnp Hnx) as Hl'.
  rewrite delete_second in Hl'.
  eexists. split_and!; [|exact Hl'|].
  - unfold _remove_node, set_next, set_prev, attr. simpl.
    rewrite Hn. simpl. rewrite Hprev, Hnp. simpl.
    rewrite lookup_insert_ne, Hn by done. simpl.
    rewrite Hnext, lookup_insert_ne, Hnx by done. simpl.
    by rewrite Hprev.
  - intros y. destruct (decide (y = x)) as [->|?].
    { by rewrite lookup_insert_eq, Hnx. }
    rewrite lookup_insert_ne by done.
    destruct (decide (y = p)) as [->|?].
    { by rewrite lookup_insert_eq, Hnp. }
    by rewrite lookup_insert_ne.
Qed.

Lemma add_to_head_spec s r L :
  NoDup (head s :: r :: L) → linked (cells (mem s)) (head s :: L) →
  L ≠ [] → is_Some (cells (mem s) !! r) →
  ∃ c', _add_to_head (Some r) s = Ok (with_mem s (Store c' (limit (mem s)))) ∧
        linked c' (head s :: r :: L) ∧
        ∀ y, payload <$> c' !! y = payload <$> cells (mem s) !! y.
Proof.
  intros Hnd Hl HL [n Hn]. destruct L as [|f L]; [done|]. clear HL.
  destruct (Hl 0%nat _ eq_refl) as (nh & Hnh & _ & Hnext). simpl in Hnext.
  destruct (Hl 1%nat _ eq_refl) as (nf & Hnf & _ & _).
  pose proof (linked_insert _ _ _ _ _ (key n) (value n) _ _ Hnd Hl Hnh Hnf)
    as Hl'.
  apply NoDup_cons in Hnd as [Hhd Hnd]. apply NoDup_cons in Hnd as [Hr _].
  rewrite !not_elem_of_cons in Hhd. rewrite not_elem_of_cons in Hr.
  destruct Hhd as (? & ? & ?), Hr as [? ?].
  eexists. split_and!; [|exact Hl'|].
  - unfold _add_to_head, set_next, set_prev, attr. simpl.
    rewrite Hn. simpl.
    rewrite (lookup_insert_ne _ r (head s)), Hnh by congruence. simpl.
    rewrite lookup_insert_eq. simpl. rewrite insert_insert_eq.
    rewrite (lookup_insert_ne _ r (head s)), Hnh by congruence. simpl.
    rewrite Hnext, (lookup_insert_ne _ r f), Hnf by congruence. simpl.
    rewrite (lookup_insert_ne _ f (head s)) by congruence.
    rewrite (lookup_insert_ne _ r (head s)), Hnh by congruence. done.
  - intros y. destruct (decide (y = head s)) as [->|?].
    { by rewrite lookup_insert_eq, Hnh. }
    rewrite lookup_insert_ne by congruence.
    destruct (decide (y = f)) as [->|?].
    { by rewrite lookup_insert_eq, Hnf. }
    rewrite lookup_insert_ne by congruence.
    destruct (decide (y = r)) as [->|?].
    { by rewrite lookup_insert_eq, Hn. }
    by rewrite lookup_insert_ne.
Qed.
End lru_list_ops.

(** ** LRUCache: the representation invariant *)

Section lru_rep.
Import LRUCache.
Implicit Types (s : t) (c : gmap nat ListNode) (r : ref) (k v : Z).
Implicit Types (es E : list (ref * (Z * Z))).

Lemma payload_is_Some c c' :
  (∀ y, payload <$> c' !! y = payload <$> c !! y) →
  ∀ y, is_Some (c' !! y) ↔ is_Some (c !! y).
Proof.
  intros Hp y. rewrite <-(fmap_is_Some payload (c' !! y)), Hp.
  apply fmap_is_Some.
Qed.

Lemma linked_fresh c L r n :
  linked c L → r ∉ L → linked (<[r := n]> c) L.
Proof.
  intros Hl Hr i y Hy. destruct (Hl _ _ Hy) as (n' & ? & ? & ?).
  exists n'. split; [|done]. rewrite lookup_insert_ne; [done|].
  intros ->. apply Hr. by eapply list_elem_of_lookup_2.
Qed.

Lemma rep_init capacity :
  ∃ s, init capacity = Ok s ∧ LRUCache.capacity s = capacity ∧ rep s [].
Proof.
  eexists. split; [reflexivity|]. split; [done|]. split; simpl.
  - apply (bool_decide_unpack _). by vm_compute.
  - intros [|[|i]] r Hr; simpl in Hr; try done; injection Hr as <-;
      eexists; (split; [by vm_compute|done]).
  - intros r kv []%elem_of_nil.
  - constructor.
  - intros k r. rewrite lookup_empty. split; [done|].
    by intros [v []%elem_of_nil].
  - intros r [n Hn]. destruct (decide (r < 2)%nat); [done|].
    by rewrite !lookup_insert_ne, lookup_empty in Hn by lia.
Qed.

Lemma rep_move_to_head s E1 r kv E2 :
  rep s (E1 ++ (r, kv) :: E2) →
  ∃ m', _move_to_head (Some r) s = Ok (with_mem s m') ∧
        rep (with_mem s m') ((r, kv) :: E1 ++ E2).
Proof.
  intros [Hnd Hl Hpay Hkeys Hcache Hlim].
  rewrite fmap_app, fmap_cons, <-(assoc_L (++)) in Hnd, Hl. simpl in Hnd, Hl.
  destruct (remove_node_spec s (head s :: E1.*1) r (E2.*1 ++ [tail s]))
    as (c1 & Hrm & Hl1 & Hp1); [done|done|done|by destruct (E2.*1)|].
  simpl in Hl1.
  assert (NoDup (head s :: r :: E1.*1 ++ E2.*1 ++ [tail s])) as Hnd'.
  { apply NoDup_cons in Hnd as [Hhd Hnd].
    apply NoDup_middle in Hnd as [Hr Hnd].
    apply NoDup_cons. split; [|by apply NoDup_cons].
    rewrite elem_of_cons, elem_of_app in *. set_solver. }
  destruct (add_to_head_spec (with_mem s (Store c1 (limit (mem s)))) r
              (E1.*1 ++ E2.*1 ++ [tail s]))
    as (c2 & Hadd & Hl2 & Hp2); simpl; [done|done| | |].
  { by destruct (E1.*1), (E2.*1). }
  { apply (payload_is_Some _ _ Hp1). rewrite <-(fmap_is_Some payload).
    rewrite (Hpay r kv); [done|]. set_solver. }
  simpl in *. exists (Store c2 (limit (mem s))). split.
  { unfold _move_to_head. rewrite Hrm. simpl. by rewrite Hadd. }
  assert (∀ y, payload <$> c2 !! y = payload <$> cells (mem s) !! y) as Hp.
  { intros y. by rewrite Hp2, Hp1. }
  split; simpl.
  - by rewrite fmap_app, <-(assoc_L (++)).
  - by rewrite fmap_app, <-(assoc_L (++)).
  - intros r' kv' Hin. rewrite Hp. apply Hpay. set_solver.
  - rewrite !fmap_app, !fmap_cons in Hkeys. rewrite !fmap_app.
    apply NoDup_middle in Hkeys as [? ?]. by apply NoDup_cons.
  - intros k' r'. rewrite Hcache. set_solver.
  - intros y Hy. apply Hlim. by apply (payload_is_Some _ _ Hp).
Qed.

Lemma rep_set_value s E1 r k v0 v E2 :
  rep s (E1 ++ (r, (k, v0)) :: E2) →
  ∃ m', set_value (Some r) v (mem s) = Ok m' ∧
        rep (with_mem s m') (E1 ++ (r, (k, v)) :: E2).
Proof.
  intros [Hnd Hl Hpay Hkeys Hcache Hlim].
  assert ((r, (k, v0)) ∈ E1 ++ (r, (k, v0)) :: E2) as Hin0 by set_solver.
  pose proof (Hpay _ _ Hin0) as Hp0.
  destruct (cells (mem s) !! r) as [n|] eqn:Hn; [|done].
  injection Hp0 as Hkn Hvn.
  eexists. split.
  { unfold set_value, attr. rewrite Hn. reflexivity. }
  assert ((E1 ++ (r, (k, v)) :: E2).*1 = (E1 ++ (r, (k, v0)) :: E2).*1)
    as Hrefs by (by rewrite !fmap_app, !fmap_cons).
  assert ((E1 ++ (r, (k, v)) :: E2).*2.*1 = (E1 ++ (r, (k, v0)) :: E2).*2.*1)
    as Hks by (by rewrite !fmap_app, !fmap_cons).
  assert (∀ kv', (r, kv') ∈ E1 ++ E2 → False) as Hfresh.
  { intros kv' Hin. apply NoDup_cons in Hnd as [_ Hnd].
    apply NoDup_app in Hnd as (Hnd & _ & _).
    rewrite fmap_app, fmap_cons in Hnd.
    apply NoDup_middle in Hnd as [Hr _]. apply Hr. rewrite <-fmap_app.
    apply list_elem_of_fmap. by exists (r, kv'). }
  split; simpl.
  - by rewrite Hrefs.
  - rewrite Hrefs. by apply linked_set_value.
  - intros r' kv' Hin. destruct (decide (r' = r)) as [->|Hne].
    + rewrite lookup_insert_eq. simpl. unfold payload. simpl.
      assert (kv' = (k, v)) as ->; [|congruence].
      apply elem_of_app in Hin as [Hin|Hin].
      * destruct (Hfresh kv'). set_solver.
      * apply elem_of_cons in Hin as [[= ->]|Hin]; [done|].
        destruct (Hfresh kv'). set_solver.
    + rewrite lookup_insert_ne by done. apply Hpay. set_solver.
  - by rewrite Hks.
  - intros k' r'. rewrite Hcache. set_solver.
  - intros y Hy. apply Hlim. destruct (decide (y = r)) as [->|Hne].
    + by rewrite Hn.
    + by rewrite lookup_insert_ne in Hy.
Qed.

Lemma lookup_two (A : list nat) (r x : nat) :
  (A ++ [r; x]) !! length A = Some r ∧
  (A ++ [r; x]) !! S (length A) = Some x.
Proof. induction A; simpl; auto. Qed.

(** The eviction branch of [put]: unlink the node before [tail] and drop
    its key from the hash map. *)
Lemma rep_evict s E r k v :
  rep s (E ++ [(r, (k, v))]) →
  ∃ s', ('(lru, self) ← _pop_tail s;
         n ← attr lru (mem self);
         c ← Dict.delitem (key n) (cache self);
         Ok (with_cache self c)) = Ok s' ∧
        rep s' E ∧ capacity s' = capacity s.
Proof.
  intros [Hnd Hl Hpay Hkeys Hcache Hlim].
  rewrite fmap_app, <-(assoc_L (++)) in Hnd, Hl. simpl in Hnd, Hl.
  destruct (lookup_two (head s :: E.*1) r (tail s)) as [Hr Htl].
  destruct (Hl _ _ Htl) as (nt & Hnt & Hprev & _). simpl in Hprev, Hr.
  rewrite Hr in Hprev.
  destruct (remove_node_spec s (head s :: E.*1) r [tail s])
    as (c1 & Hrm & Hl1 & Hp1); [done..|].
  simpl in Hl1.
  assert ((r, (k, v)) ∈ E ++ [(r, (k, v))]) as Hin by set_solver.
  pose proof (Hpay _ _ Hin) as Hpr. rewrite <-Hp1 in Hpr.
  destruct (c1 !! r) as [n1|] eqn:Hn1; [|done]. injection Hpr as Hk1 Hv1.
  assert (cache s !! k = Some r) as Hck by (apply Hcache; eauto).
  rewrite !fmap_app in Hkeys. simpl in Hkeys.
  apply NoDup_app in Hkeys as (Hkeys & Hk & _).
  eexists. split_and!.
  - unfold _pop_tail, attr. rewrite Hnt. simpl. rewrite Hprev, Hrm.
    simpl. rewrite Hn1. simpl. unfold Dict.delitem. rewrite Hk1, Hck.
    reflexivity.
  - split; simpl.
    + apply NoDup_cons in Hnd as [Hhd Hnd].
      apply NoDup_middle in Hnd as [_ Hnd].
      apply NoDup_cons. split; [|done]. set_solver.
    + done.
    + intros r' kv' Hin'. rewrite Hp1. apply Hpay. set_solver.
    + done.
    + intros k' r'. destruct (decide (k' = k)) as [->|Hne].
      * rewrite lookup_delete_eq. split; [done|]. intros [v' Hv'].
        destruct (Hk k); [|set_solver].
        apply list_elem_of_fmap. exists (k, v'). split; [done|].
        apply list_elem_of_fmap. by exists (r', (k, v')).
      * rewrite lookup_delete_ne by done. rewrite Hcache. set_solver.
    + intros y Hy. apply Hlim. by apply (payload_is_Some _ _ Hp1).
  - done.
Qed.

Lemma rep_add_new s E k v :
  rep s E → k ∉ E.*2.*1 →
  ∃ s', (let '(new_node, m) := alloc k v (mem s) in
         _add_to_head (Some new_node)
           (with_cache (with_mem s m) (<[k := new_node]> (cache s)))) = Ok s' ∧
        rep s' ((limit (mem s), (k, v)) :: E) ∧ capacity s' = capacity s.
Proof.
  intros [Hnd Hl Hpay Hkeys Hcache Hlim] Hk. simpl.
  set (r := limit (mem s)).
  assert (cells (mem s) !! r = None) as Hfresh.
  { destruct (cells (mem s) !! r) eqn:Hr; [|done].
    assert (r < r)%nat; [|lia]. apply Hlim. by rewrite Hr. }
  assert (r ∉ head s :: E.*1 ++ [tail s]) as HrL.
  { intros [i Hi]%list_elem_of_lookup.
    destruct (linked_lookup _ _ _ _ Hl Hi) as [? ?]. congruence. }
  set (c0 := <[r := Node k v None None]> (cells (mem s))).
  set (s0 := with_cache (with_mem s (Store c0 (S r))) (<[k := r]> (cache s))).
  destruct (add_to_head_spec s0 r (E.*1 ++ [tail s]))
    as (c1 & Hadd & Hl1 & Hp1); simpl.
  { apply NoDup_cons in Hnd as [Hhd Hnd].
    rewrite not_elem_of_cons in HrL. destruct HrL as [? ?].
    apply NoDup_cons. split; [|by apply NoDup_cons]. set_solver. }
  { by apply linked_fresh. }
  { by destruct (E.*1). }
  { unfold c0. rewrite lookup_insert_eq. by eexists. }
  exists (with_mem s0 (Store c1 (S r))). split_and!; [done| |done].
  simpl in *. split; simpl.
  - apply NoDup_cons in Hnd as [Hhd Hnd].
    rewrite not_elem_of_cons in HrL. destruct HrL as [? ?].
    apply NoDup_cons. split; [|by apply NoDup_cons]. set_solver.
  - done.
  - intros r' kv' Hin. rewrite Hp1. unfold c0.
    apply elem_of_cons in Hin as [[= -> ->]|Hin].
    + by rewrite lookup_insert_eq.
    + rewrite lookup_insert_ne; [by apply Hpay|].
      intros <-. apply HrL. right. apply elem_of_app. left.
      apply list_elem_of_fmap. by exists (r, kv').
  - apply NoDup_cons. done.
  - intros k' r'. destruct (decide (k' = k)) as [->|Hne].
    + rewrite lookup_insert_eq. split.
      * intros [= <-]. exists v. by left.
      * intros [v' [[= -> ->]|Hin]%elem_of_cons]; [done|].
        destruct Hk. apply list_elem_of_fmap. exists (k, v'). split; [done|].
        apply list_elem_of_fmap. by exists (r', (k, v')).
    + rewrite lookup_insert_ne by done. rewrite Hcache. set_solver.
  - intros y Hy. apply (payload_is_Some _ _ Hp1) in Hy. unfold c0 in Hy.
    destruct (decide (y = r)) as [->|Hne]; [lia|].
    rewrite lookup_insert_ne in Hy by done. apply Hlim in Hy. lia.
Qed.
End lru_rep.

(** ** LRUCache refines LRUCacheSimple *)

Section lru_refinement.
Import LRUCache.
Implicit Types (s : t) (x : LRUCacheSimple.t) (k v : Z).
Implicit Types (es E : list (nat * (Z * Z))).

Lemma es_split es k :
  NoDup es.*2.*1 → k ∈ es.*2.*1 →
  ∃ E1 r v E2, es = E1 ++ (r, (k, v)) :: E2 ∧
               (k ∉ E1.*2.*1) ∧ (k ∉ E2.*2.*1).
Proof.
  intros Hnd Hin. destruct (od_split k es.*2 Hnd Hin) as (A & v & B & Heq & HA & HB).
  apply fmap_app_inv in Heq as (E1 & E' & -> & HE' & ->).
  symmetry in HE'. apply fmap_cons_inv in HE' as ([r kv] & E2 & Hkv & -> & ->).
  simpl in Hkv. subst kv. by exists E1, r, v, E2.
Qed.

Lemma reverse_keys (d : list (Z * Z)) k : k ∈ (reverse d).*1 ↔ k ∈ d.*1.
Proof. by rewrite fmap_reverse, elem_of_reverse. Qed.

Lemma rep_cache_None s es k :
  rep s es → k ∉ es.*2.*1 → cache s !! k = None.
Proof.
  intros Hrep Hk. destruct (cache s !! k) as [r|] eqn:Hr; [|done].
  apply (rep_cache _ _ Hrep) in Hr as [v Hv]. destruct Hk.
  apply list_elem_of_fmap. exists (k, v). split; [done|].
  apply list_elem_of_fmap. by exists (r, (k, v)).
Qed.

Lemma rep_cache_Some s E1 r k v E2 :
  rep s (E1 ++ (r, (k, v)) :: E2) → cache s !! k = Some r.
Proof. intros Hrep. apply (rep_cache _ _ Hrep). exists v. set_solver. Qed.

Lemma reverse_middle E1 r k v E2 :
  reverse (E1 ++ (r, (k, v)) :: E2).*2 =
  reverse E2.*2 ++ (k, v) :: reverse E1.*2.
Proof.
  rewrite fmap_app, fmap_cons, reverse_app, reverse_cons. simpl.
  by rewrite <-(assoc_L (++)).
Qed.

Lemma reverse_front E1 r k v E2 :
  reverse ((r, (k, v)) :: E1 ++ E2).*2 =
  reverse E2.*2 ++ reverse E1.*2 ++ [(k, v)].
Proof.
  rewrite fmap_cons, fmap_app, reverse_cons, reverse_app. simpl.
  by rewrite <-(assoc_L (++)).
Qed.

Lemma get_refines k s x :
  refines s x →
  ∃ v s' x', get k s = Ok (v, s') ∧ LRUCacheSimple.get k x = Ok (v, x') ∧
             refines s' x' ∧
             LRUCacheSimple.capacity x' = LRUCacheSimple.capacity x.
Proof.
  destruct x as [c d]. intros (Hcap & es & Hrep & Hd). simpl in *. subst d.
  destruct (decide (k ∈ es.*2.*1)) as [Hin|Hni].
  - destruct (es_split _ _ (rep_keys _ _ Hrep) Hin)
      as (E1 & r & v & E2 & -> & HE1 & HE2).
    destruct (rep_move_to_head _ _ _ _ _ Hrep) as (m' & Hmv & Hrep').
    pose proof (rep_cache_Some _ _ _ _ _ _ Hrep) as Hck.
    assert (payload <$> cells m' !! r = Some (k, v)) as Hpay.
    { apply (rep_payload _ _ Hrep'). by left. }
    simpl in Hpay.
    destruct (cells m' !! r) as [n|] eqn:Hn; [|done]. injection Hpay as _ Hv.
    exists v, (with_mem s m'),
      (LRUCacheSimple.mk c (reverse ((r, (k, v)) :: E1 ++ E2).*2)).
    split_and!.
    + unfold get, Dict.contains, Dict.getitem. rewrite Hck. simpl.
      rewrite Hmv. simpl. rewrite Hn. simpl. by rewrite Hv.
    + rewrite reverse_middle, reverse_front.
      apply simple_get_hit; by rewrite reverse_keys.
    + split; [done|]. by exists ((r, (k, v)) :: E1 ++ E2).
    + done.
  - exists (-1), s, (LRUCacheSimple.mk c (reverse es.*2)). split_and!.
    + unfold get, Dict.contains. by rewrite (rep_cache_None _ _ _ Hrep Hni).
    + apply simple_get_miss. simpl. by rewrite reverse_keys.
    + split; [done|]. by exists es.
    + done.
Qed.

Lemma rep_size s es : rep s es → base.size (cache s) = length es.
Proof.
  intros Hrep. set (l := (λ e : nat * (Z * Z), (e.2.1, e.1)) <$> es).
  assert (l.*1 = es.*2.*1) as Hl.
  { unfold l. by rewrite <-!list_fmap_compose. }
  assert (cache s = list_to_map l) as ->.
  { apply map_eq. intros k. apply option_eq. intros r.
    rewrite <-elem_of_list_to_map by (rewrite Hl; apply (rep_keys _ _ Hrep)).
    rewrite (rep_cache _ _ Hrep). unfold l. rewrite list_elem_of_fmap. split.
    - intros [v Hv]. by exists (r, (k, v)).
    - intros ([r' [k' v']] & [= -> ->] & ?). eauto. }
  rewrite map_size_list_to_map by (rewrite Hl; apply (rep_keys _ _ Hrep)).
  unfold l. by rewrite length_fmap.
Qed.

Lemma refines_size s x :
  refines s x → LRUCache.size s = LRUCacheSimple.size x.
Proof.
  intros (_ & es & Hrep & Hd).
  unfold LRUCache.size, LRUCacheSimple.size, Dict.len, OrderedDict.len.
  by rewrite Hd, (rep_size _ _ Hrep), length_reverse, !length_fmap.
Qed.

Lemma put_refines k v s x :
  refines s x → 1 ≤ LRUCacheSimple.capacity x →
  LRUCacheSimple.size x ≤ LRUCacheSimple.capacity x →
  ∃ s' x', put k v s = Ok s' ∧ LRUCacheSimple.put k v x = Ok x' ∧
           refines s' x' ∧
           LRUCacheSimple.capacity x' = LRUCacheSimple.capacity x.
Proof.
  intros Href Hc Hsz. pose proof (refines_size _ _ Href) as Hlen.
  destruct x as [c d]. destruct Href as (Hcap & es & Hrep & Hd).
  unfold LRUCache.size, LRUCacheSimple.size in *. simpl in *. subst d.
  destruct (decide (k ∈ es.*2.*1)) as [Hin|Hni].
  - (* update in place *)
    destruct (es_split _ _ (rep_keys _ _ Hrep) Hin)
      as (E1 & r & v0 & E2 & -> & HE1 & HE2).
    pose proof (rep_cache_Some _ _ _ _ _ _ Hrep) as Hck.
    destruct (rep_set_value _ _ _ _ _ v _ Hrep) as (m1 & Hset & Hrep1).
    destruct (rep_move_to_head _ _ _ _ _ Hrep1) as (m2 & Hmv & Hrep2).
    exists (with_mem s m2),
      (LRUCacheSimple.mk c (reverse ((r, (k, v)) :: E1 ++ E2).*2)).
    split_and!.
    + unfold put, Dict.contains, Dict.getitem. rewrite Hck. simpl.
      rewrite Hset. simpl. by rewrite Hmv.
    + rewrite reverse_middle, reverse_front.
      apply simple_put_hit; rewrite ?reverse_keys; try done.
      by rewrite <-(reverse_middle E1 r).
    + split; [done|]. by exists ((r, (k, v)) :: E1 ++ E2).
    + done.
  - pose proof (rep_cache_None _ _ _ Hrep Hni) as Hck.
    destruct (decide (Dict.len (cache s) >= capacity s)) as [Hfull|Hroom].
    + (* evict, then insert *)
      destruct es as [|[r [k0 v0]] E _] using rev_ind.
      { rewrite Hlen in Hfull. unfold OrderedDict.len in Hfull.
        simpl in Hfull. lia. }
      destruct (rep_evict _ _ _ _ _ Hrep) as (s1 & Hev & Hrep1 & Hcap1).
      rewrite !fmap_app, not_elem_of_app in Hni. destruct Hni as [HniE Hk0].
      destruct (rep_add_new _ _ k v Hrep1 HniE) as (s2 & Hadd & Hrep2 & Hcap2).
      exists s2, (LRUCacheSimple.mk c
                    (reverse ((limit (mem s1), (k, v)) :: E).*2)).
      split_and!.
      * unfold put, Dict.contains. rewrite Hck.
        destruct (decide (Dict.len (cache s) >= capacity s)); [|done].
        rewrite Hev. simpl. exact Hadd.
      * rewrite simple_put_new_full.
        -- rewrite (fmap_cons snd), reverse_cons, fmap_app, reverse_app.
           reflexivity.
        -- by rewrite reverse_keys, !fmap_app, not_elem_of_app.
        -- lia.
      * split; [simpl; congruence|]. by eexists.
      * done.
    + (* room left *)
      destruct (rep_add_new _ _ k v Hrep Hni) as (s2 & Hadd & Hrep2 & Hcap2).
      exists s2, (LRUCacheSimple.mk c
                    (reverse ((limit (mem s), (k, v)) :: es).*2)).
      split_and!.
      * unfold put, Dict.contains. rewrite Hck.
        destruct (decide (Dict.len (cache s) >= capacity s)); [done|].
        exact Hadd.
      * rewrite simple_put_new_room.
        -- by rewrite fmap_cons, reverse_cons.
        -- by rewrite reverse_keys.
        -- lia.
      * split; [simpl; congruence|]. by eexists.
      * done.
Qed.

(** Without room for a single entry, [put] on an empty LRUCache pops the
    [head] sentinel, whose [prev] is [None]. *)
Lemma put_raises k v s :
  rep s [] → capacity s ≤ 0 → put k v s = Raise AttributeError.
Proof.
  intros Hrep Hc. pose proof (rep_size _ _ Hrep) as Hsz. simpl in Hsz.
  pose proof (rep_cache_None _ _ k Hrep) as Hck.
  destruct (rep_linked _ _ Hrep 1%nat (tail s) eq_refl) as (nt & Hnt & Hpt & _).
  destruct (rep_linked _ _ Hrep 0%nat (head s) eq_refl) as (nh & Hnh & Hph & _).
  simpl in Hpt. unfold put, Dict.contains, Dict.len.
  rewrite Hck by apply not_elem_of_nil. rewrite Hsz.
  case_decide; [|lia].
  unfold _pop_tail, _remove_node, attr, set_next. simpl.
  rewrite Hnt. simpl. rewrite Hpt, Hnh. simpl. by rewrite Hph.
Qed.

Lemma step_refines o s x :
  refines s x → 1 ≤ LRUCacheSimple.capacity x →
  LRUCacheSimple.size x ≤ LRUCacheSimple.capacity x →
  ∃ r s' x', step o s = Ok (r, s') ∧ LRUCacheSimple.step o x = Ok (r, x') ∧
             refines s' x'.
Proof.
  intros Href Hc Hsz. destruct o as [k|k v]; simpl.
  - destruct (get_refines k _ _ Href) as (v & s' & x' & -> & -> & ? & _).
    by exists (Some v), s', x'.
  - destruct (put_refines k v _ _ Href Hc Hsz) as (s' & x' & -> & -> & ? & _).
    by exists None, s', x'.
Qed.

(** Every run of an LRUCacheSimple returns. *)
Lemma simple_run_inv ops0 ops x :
  simple_inv ops0 x →
  ∃ rs x', LRUCacheSimple.run ops x = Ok (rs, x') ∧
           simple_inv (ops0 ++ ops) x' ∧
           LRUCacheSimple.capacity x' = LRUCacheSimple.capacity x.
Proof.
  revert ops0 x. induction ops as [|o ops IH]; intros ops0 x Hinv.
  - exists [], x. by rewrite (right_id_L [] (++)).
  - destruct (simple_step_inv _ o _ Hinv) as (r & x1 & Hx1 & Hinv1 & Hc1).
    destruct (IH _ _ Hinv1) as (rs & x' & Hx' & Hinv' & Hc').
    exists (r :: rs), x'. cbn [LRUCacheSimple.run]. rewrite Hx1. simpl.
    rewrite Hx'. simpl. rewrite <-(assoc_L (++)) in Hinv'.
    split_and!; [done|done|congruence].
Qed.

(** With room for at least one entry, a run of an LRUCache returns, and
    returns what the same run of the LRUCacheSimple it refines returns. *)
Lemma run_refines ops0 ops s x :
  refines s x → simple_inv ops0 x → 1 ≤ LRUCacheSimple.capacity x →
  ∃ rs s' x', run ops s = Ok (rs, s') ∧
              LRUCacheSimple.run ops x = Ok (rs, x') ∧
              refines s' x' ∧ simple_inv (ops0 ++ ops) x' ∧
              LRUCacheSimple.capacity x' = LRUCacheSimple.capacity x.
Proof.
  revert ops0 s x. induction ops as [|o ops IH]; intros ops0 s x Href Hinv Hc.
  - exists [], s, x. by rewrite (right_id_L [] (++)).
  - destruct (simple_step_inv _ o _ Hinv) as (r & x1 & Hx1 & Hinv1 & Hc1).
    destruct (step_refines o _ _ Href Hc) as (r' & s1 & x1' & Hs1 & Hx1' & Href1).
    { pose proof (simple_size _ _ Hinv). lia. }
    assert (r' = r ∧ x1' = x1) as [-> ->] by (split; congruence).
    destruct (IH (ops0 ++ [o]) _ _ Href1 Hinv1) as
      (rs & s' & x' & Hs' & Hx' & Href' & Hinv' & Hc'); [lia|].
    exists (r :: rs), s', x'. cbn [run LRUCacheSimple.run].
    rewrite Hs1, Hx1. simpl.
    rewrite Hs', Hx'. simpl. rewrite <-(assoc_L (++)) in Hinv'.
    split_and!; [done..|congruence].
Qed.

Lemma simple_inv_init c : simple_inv [] (LRUCacheSimple.mk c []).
Proof.
  split; simpl; [constructor|constructor|].
  unfold LRUCacheSimple.size, OrderedDict.len. simpl. lia.
Qed.

Lemma refines_init c :
  ∃ s, init c = Ok s ∧ refines s (LRUCacheSimple.mk c []).
Proof.
  destruct (rep_init c) as (s & Hs & Hc & Hrep). exists s. split; [done|].
  split; [done|]. by exists [].
Qed.
End lru_refinement.

(** ** LFUCache *)

Section lfu_facts.
Import LFUCache.
Implicit Types (s : t) (k v f : Z) (b A B : OrderedDict.t unit).
Implicit Types (d : gmap Z (OrderedDict.t unit)).

Lemma bucket_keys_middle A k B k' :
  k' ∈ (A ++ (k, ()) :: B).*1 ↔ k' = k ∨ k' ∈ (A ++ B).*1.
Proof. rewrite !fmap_app, fmap_cons, !elem_of_app, elem_of_cons. tauto. Qed.

Lemma bucket_split b k :
  k ∈ b.*1 → NoDup b.*1 →
  ∃ A B, b = A ++ (k, ()) :: B ∧ k ∉ (A ++ B).*1.
Proof.
  intros Hin Hnd. destruct (od_split k b Hnd Hin) as (A & [] & B & -> & HA & HB).
  exists A, B. split; [done|]. rewrite fmap_app, not_elem_of_app. done.
Qed.

Lemma add_to_bucket_spec f k d :
  k ∉ (default [] (d !! f)).*1 →
  add_to_bucket f k d = Ok (<[f := default [] (d !! f) ++ [(k, ())]]> d).
Proof.
  intros Hk. unfold add_to_bucket, Dict.contains, Dict.getitem.
  destruct (d !! f) as [b|] eqn:Hb; simpl in *.
  - rewrite Hb. simpl. by rewrite od_setitem_new.
  - rewrite lookup_insert_eq. simpl. by rewrite insert_insert_eq.
Qed.

Lemma update_freq_spec k s f A B :
  key_to_freq s !! k = Some f →
  freq_to_keys s !! f = Some (A ++ (k, ()) :: B) →
  k ∉ A.*1 →
  k ∉ (default [] (freq_to_keys s !! (f + 1))).*1 →
  _update_freq k s =
  Ok (mk (capacity s)
         (if OrderedDict.is_empty (A ++ B) && bool_decide (min_freq s = f)
          then f + 1 else min_freq s)
         (key_to_val s)
         (<[k := f + 1]> (key_to_freq s))
         (<[f + 1 := default [] (freq_to_keys s !! (f + 1)) ++ [(k, ())]]>
            (<[f := A ++ B]> (freq_to_keys s)))).
Proof.
  intros Hf Hb HA Hk. unfold _update_freq, Dict.getitem.
  rewrite Hf. simpl. rewrite Hb. simpl.
  rewrite od_delitem_middle by done. simpl.
  rewrite lookup_insert_eq. simpl.
  rewrite add_to_bucket_spec; rewrite lookup_insert_ne by lia; done.
Qed.

(** A hit: the key moves from the bucket of its frequency to the end of the
    next bucket. *)
Lemma update_freq_inv ops o s :
  lfu_inv ops s → is_Some (key_to_val s !! op_key o) →
  ∃ s', _update_freq (op_key o) s = Ok s' ∧ lfu_inv (ops ++ [o]) s' ∧
        key_to_val s' = key_to_val s ∧ capacity s' = capacity s.
Proof.
  intros [[Hdom Hin Hbf Hnd Hso Hpos] Hmin Hsz] Hsome.
  set (k := op_key o) in *.
  apply Hdom in Hsome as [f Hf].
  destruct (Hin _ _ Hf) as (b & Hb & Hkb).
  destruct (bucket_split b k Hkb (Hnd _ _ Hb)) as (A & B & -> & HAB).
  set (b1 := default [] (freq_to_keys s !! (f + 1))).
  assert (∀ k', k' ∈ b1.*1 → key_to_freq s !! k' = Some (f + 1)) as Hbf1.
  { intros k'. unfold b1. destruct (freq_to_keys s !! (f + 1)) eqn:E; simpl.
    - by apply Hbf.
    - by intros ?%elem_of_nil. }
  assert (NoDup b1.*1) as Hnd1.
  { unfold b1. destruct (freq_to_keys s !! (f + 1)) eqn:E; simpl.
    - by eapply Hnd.
    - constructor. }
  assert (StronglySorted (older ops) b1.*1) as Hso1.
  { unfold b1. destruct (freq_to_keys s !! (f + 1)) eqn:E; simpl.
    - by eapply Hso.
    - constructor. }
  assert (k ∉ b1.*1) as Hkb1.
  { intros Hc. apply Hbf1 in Hc. rewrite Hf in Hc. injection Hc. lia. }
  pose proof (Hnd _ _ Hb) as HndAB. pose proof (Hso _ _ Hb) as HsoAB.
  rewrite fmap_fst_middle in HndAB, HsoAB.
  apply NoDup_middle in HndAB as [_ HndAB].
  apply StronglySorted_middle in HsoAB. rewrite <-fmap_app in HndAB, HsoAB.
  eexists. split.
  { apply update_freq_spec; [done..| |done].
    rewrite fmap_app, not_elem_of_app in HAB. tauto. }
  split_and!; [|done..].
  split; [split|..]; simpl.
  - intros k'. destruct (decide (k' = k)) as [->|Hne].
    + rewrite lookup_insert_eq. split; [by eexists|]. intros _. apply Hdom.
      by eexists.
    + rewrite lookup_insert_ne by done. apply Hdom.
  - intros k' f' Hk'. destruct (decide (k' = k)) as [->|Hne].
    + rewrite lookup_insert_eq in Hk'. injection Hk' as <-.
      exists (b1 ++ [(k, ())]). rewrite lookup_insert_eq. split; [done|].
      rewrite fmap_app. set_solver.
    + rewrite lookup_insert_ne in Hk' by done.
      destruct (Hin _ _ Hk') as (b0 & Hb0 & Hk0).
      destruct (decide (f' = f + 1)) as [->|Hf1].
      * exists (b1 ++ [(k, ())]). rewrite lookup_insert_eq. split; [done|].
        unfold b1. rewrite Hb0. simpl. rewrite fmap_app. set_solver.
      * rewrite lookup_insert_ne by done.
        destruct (decide (f' = f)) as [->|Hf0].
        -- exists (A ++ B). rewrite lookup_insert_eq. split; [done|].
           rewrite Hb in Hb0. injection Hb0 as <-.
           by apply bucket_keys_middle in Hk0 as [?|?].
        -- exists b0. by rewrite lookup_insert_ne.
  - intros f' b' k' Hb' Hk'. destruct (decide (f' = f + 1)) as [->|Hf1].
    + rewrite lookup_insert_eq in Hb'. injection Hb' as <-.
      rewrite fmap_app in Hk'. apply elem_of_app in Hk' as [Hk'|Hk'].
      * assert (k' ≠ k) by (by intros ->).
        rewrite lookup_insert_ne by done. by apply Hbf1.
      * apply list_elem_of_singleton in Hk' as ->. by rewrite lookup_insert_eq.
    + rewrite lookup_insert_ne in Hb' by done.
      destruct (decide (f' = f)) as [->|Hf0].
      * rewrite lookup_insert_eq in Hb'. injection Hb' as <-.
        assert (k' ≠ k) by (by intros ->).
        rewrite lookup_insert_ne by done. apply (Hbf _ _ _ Hb).
        apply bucket_keys_middle. by right.
      * rewrite lookup_insert_ne in Hb' by done.
        pose proof (Hbf _ _ _ Hb' Hk') as Hk2f.
        assert (k' ≠ k) by (intros ->; congruence).
        by rewrite lookup_insert_ne.
  - intros f' b' Hb'. destruct (decide (f' = f + 1)) as [->|Hf1].
    + rewrite lookup_insert_eq in Hb'. injection Hb' as <-.
      rewrite fmap_app. apply NoDup_app. split_and!; [done| |].
      * by intros k' Hk' ->%list_elem_of_singleton.
      * repeat constructor. apply not_elem_of_nil.
    + rewrite lookup_insert_ne in Hb' by done.
      destruct (decide (f' = f)) as [->|Hf0].
      * rewrite lookup_insert_eq in Hb'. by injection Hb' as <-.
      * rewrite lookup_insert_ne in Hb' by done. by eapply Hnd.
  - intros f' b' Hb'. destruct (decide (f' = f + 1)) as [->|Hf1].
    + rewrite lookup_insert_eq in Hb'. injection Hb' as <-.
      rewrite fmap_app. by apply sorted_snoc_touched.
    + rewrite lookup_insert_ne in Hb' by done.
      destruct (decide (f' = f)) as [->|Hf0].
      * rewrite lookup_insert_eq in Hb'. injection Hb' as <-.
        by apply sorted_snoc_other.
      * rewrite lookup_insert_ne in Hb' by done.
        apply sorted_snoc_other; [|by eapply Hso].
        intros Hc. pose proof (Hbf _ _ _ Hb' Hc) as Hc'. fold k in Hc'.
        congruence.
  - intros k' f' Hk'. destruct (decide (k' = k)) as [->|Hne].
    + rewrite lookup_insert_eq in Hk'. injection Hk' as <-.
      pose proof (Hpos _ _ Hf). lia.
    + rewrite lookup_insert_ne in Hk' by done. by eapply Hpos.
  - intros Hne. destruct (Hmin Hne) as [[k0 Hk0] Hlb].
    pose proof (Hlb _ _ Hf) as Hmf.
    destruct (OrderedDict.is_empty (A ++ B)) eqn:Hemp; simpl;
      [case_bool_decide as Hmeq; simpl|].
    + (* the bucket of the least frequency is now empty *)
      destruct (A ++ B) eqn:HABnil; [|done].
      apply app_eq_nil in HABnil as [-> ->]. simpl in *.
      split; [exists k; by rewrite lookup_insert_eq|].
      intros k' f' Hk'. destruct (decide (k' = k)) as [->|Hne'].
      * rewrite lookup_insert_eq in Hk'. injection Hk' as <-. lia.
      * rewrite lookup_insert_ne in Hk' by done.
        pose proof (Hlb _ _ Hk'). destruct (decide (f' = f)) as [->|]; [|lia].
        destruct (Hin _ _ Hk') as (b0 & Hb0 & Hk0').
        rewrite Hb in Hb0. injection Hb0 as <-. set_solver.
    + split.
      * exists k0. rewrite lookup_insert_ne; [done|]. intros <-. congruence.
      * intros k' f' Hk'. destruct (decide (k' = k)) as [->|Hne'].
        -- rewrite lookup_insert_eq in Hk'. injection Hk' as <-. lia.
        -- rewrite lookup_insert_ne in Hk' by done. by eapply Hlb.
    + split.
      * destruct (decide (k0 = k)) as [->|Hne'].
        -- destruct (A ++ B) as [|[k1 []] b'] eqn:HABeq; [done|].
           assert (k1 ∈ (A ++ B).*1) as Hk1 by (rewrite HABeq; set_solver).
           exists k1. rewrite lookup_insert_ne by (intros ->; set_solver).
           replace (min_freq s) with f by congruence.
           apply (Hbf _ _ _ Hb). apply bucket_keys_middle. by right.
        -- exists k0. by rewrite lookup_insert_ne.
      * intros k' f' Hk'. destruct (decide (k' = k)) as [->|Hne'].
        -- rewrite lookup_insert_eq in Hk'. injection Hk' as <-. lia.
        -- rewrite lookup_insert_ne in Hk' by done. by eapply Hlb.
  - done.
Qed.

(** A call on a key that is not stored, and that leaves the cache as it is,
    keeps the invariant. *)
Lemma lfu_inv_untouched ops o s :
  lfu_inv ops s → key_to_val s !! op_key o = None → lfu_inv (ops ++ [o]) s.
Proof.
  intros [[Hdom Hin Hbf Hnd Hso Hpos] Hmin Hsz] Hnone.
  split; [split|..]; try done.
  intros f b Hb. apply sorted_snoc_other; [|by eapply Hso].
  intros Hc. pose proof (Hbf _ _ _ Hb Hc) as Hf.
  assert (is_Some (key_to_val s !! op_key o)) as [? ?]; [|congruence].
  apply Hdom. by eexists.
Qed.

(** Overwriting the value of a stored key. *)
Lemma lfu_inv_set_value ops s k v :
  lfu_inv ops s → is_Some (key_to_val s !! k) →
  lfu_inv ops (mk (capacity s) (min_freq s) (<[k := v]> (key_to_val s))
                  (key_to_freq s) (freq_to_keys s)).
Proof.
  intros [[Hdom Hin Hbf Hnd Hso Hpos] Hmin Hsz] Hsome.
  split; [split|..]; simpl; try done.
  - intros k'. destruct (decide (k' = k)) as [->|Hne].
    + rewrite lookup_insert_eq. split; [|by eexists]. intros _. by apply Hdom.
    + rewrite lookup_insert_ne by done. apply Hdom.
  - intros _. apply Hmin. intros Hemp. rewrite Hemp, lookup_empty in Hsome.
    by destruct Hsome.
  - unfold size, Dict.len in *. simpl.
    destruct Hsome as [v0 Hv0]. by rewrite map_size_insert_Some.
Qed.

(** Eviction: the oldest key of the bucket of the least frequency leaves the
    three dictionaries. *)
Lemma lfu_evict_core ops s e bm :
  lfu_core ops s →
  freq_to_keys s !! min_freq s = Some ((e, ()) :: bm) →
  lfu_core ops (mk (capacity s) (min_freq s) (delete e (key_to_val s))
                   (delete e (key_to_freq s))
                   (<[min_freq s := bm]> (freq_to_keys s))).
Proof.
  intros [Hdom Hin Hbf Hnd Hso Hpos] Hb.
  pose proof (Hnd _ _ Hb) as Hndb. pose proof (Hso _ _ Hb) as Hsob.
  simpl in Hndb, Hsob. apply NoDup_cons in Hndb as [He Hndb].
  apply StronglySorted_cons in Hsob as [_ Hsob].
  assert (key_to_freq s !! e = Some (min_freq s)) as Hfe.
  { apply (Hbf _ _ _ Hb). by left. }
  split; simpl.
  - intros k. destruct (decide (k = e)) as [->|Hne].
    + by rewrite !lookup_delete_eq.
    + rewrite !lookup_delete_ne by done. apply Hdom.
  - intros k f Hk. apply lookup_delete_Some in Hk as [Hne Hk].
    destruct (Hin _ _ Hk) as (b0 & Hb0 & Hk0).
    destruct (decide (f = min_freq s)) as [->|Hf].
    + exists bm. rewrite lookup_insert_eq. split; [done|].
      rewrite Hb in Hb0. injection Hb0 as <-. simpl in Hk0.
      apply elem_of_cons in Hk0 as [?|?]; [congruence|done].
    + exists b0. by rewrite lookup_insert_ne.
  - intros f b k Hb' Hk. destruct (decide (f = min_freq s)) as [->|Hf].
    + rewrite lookup_insert_eq in Hb'. injection Hb' as <-.
      rewrite lookup_delete_ne by (by intros <-).
      apply (Hbf _ _ _ Hb). by right.
    + rewrite lookup_insert_ne in Hb' by done.
      pose proof (Hbf _ _ _ Hb' Hk) as Hk'.
      rewrite lookup_delete_ne; [done|]. intros <-. congruence.
  - intros f b Hb'. destruct (decide (f = min_freq s)) as [->|Hf].
    + rewrite lookup_insert_eq in Hb'. by injection Hb' as <-.
    + rewrite lookup_insert_ne in Hb' by done. by eapply Hnd.
  - intros f b Hb'. destruct (decide (f = min_freq s)) as [->|Hf].
    + rewrite lookup_insert_eq in Hb'. by injection Hb' as <-.
    + rewrite lookup_insert_ne in Hb' by done. by eapply Hso.
  - intros k f [_ Hk]%lookup_delete_Some. by eapply Hpos.
Qed.

(** Insertion of a new key: it enters the bucket of frequency 1 at the end,
    and 1 becomes the least frequency. *)
Lemma lfu_insert_inv ops k v s :
  lfu_core ops s → key_to_val s !! k = None →
  size s + 1 ≤ capacity s →
  ∃ s', (f2k ← add_to_bucket 1 k (freq_to_keys s);
         Ok (mk (capacity s) 1 (<[k := v]> (key_to_val s))
                (<[k := 1]> (key_to_freq s)) f2k)) = Ok s' ∧
        lfu_inv (ops ++ [Put k v]) s' ∧
        key_to_val s' = <[k := v]> (key_to_val s) ∧
        capacity s' = capacity s.
Proof.
  intros [Hdom Hin Hbf Hnd Hso Hpos] Hnone Hsz.
  assert (∀ f b, freq_to_keys s !! f = Some b → k ∉ b.*1) as Hfresh.
  { intros f b Hb Hc. pose proof (Hbf _ _ _ Hb Hc) as Hf.
    assert (is_Some (key_to_val s !! k)) as [? ?]; [|congruence].
    apply Hdom. by eexists. }
  assert (key_to_freq s !! k = None) as Hfnone.
  { destruct (key_to_freq s !! k) eqn:Hf; [|done].
    assert (is_Some (key_to_val s !! k)) as [? ?]; [|congruence].
    apply Hdom. by eexists. }
  set (b1 := default [] (freq_to_keys s !! 1)).
  assert (k ∉ b1.*1) as Hkb1.
  { unfold b1. destruct (freq_to_keys s !! 1) eqn:E; simpl.
    - by eapply Hfresh.
    - apply not_elem_of_nil. }
  rewrite add_to_bucket_spec by done. simpl. eexists. split; [done|].
  split_and!; [|done..].
  split; [split|..]; simpl.
  - intros k'. destruct (decide (k' = k)) as [->|Hne].
    + rewrite !lookup_insert_eq. split; by eexists.
    + rewrite !lookup_insert_ne by done. apply Hdom.
  - intros k' f' Hk'. destruct (decide (k' = k)) as [->|Hne].
    + rewrite lookup_insert_eq in Hk'. injection Hk' as <-.
      eexists. rewrite lookup_insert_eq. split; [done|].
      rewrite fmap_app. set_solver.
    + rewrite lookup_insert_ne in Hk' by done.
      destruct (Hin _ _ Hk') as (b0 & Hb0 & Hk0).
      destruct (decide (f' = 1)) as [->|Hf1].
      * eexists. rewrite lookup_insert_eq. split; [done|].
        rewrite Hb0. simpl. rewrite fmap_app. set_solver.
      * exists b0. by rewrite lookup_insert_ne.
  - intros f' b' k' Hb' Hk'. destruct (decide (f' = 1)) as [->|Hf1].
    + rewrite lookup_insert_eq in Hb'. injection Hb' as <-.
      rewrite fmap_app in Hk'. apply elem_of_app in Hk' as [Hk'|Hk'].
      * assert (k' ≠ k) by (by intros ->).
        rewrite lookup_insert_ne by done.
        destruct (freq_to_keys s !! 1) eqn:E; simpl in Hk'.
        -- by eapply Hbf.
        -- by apply elem_of_nil in Hk'.
      * apply list_elem_of_singleton in Hk' as ->. by rewrite lookup_insert_eq.
    + rewrite lookup_insert_ne in Hb' by done.
      pose proof (Hfresh _ _ Hb').
      rewrite lookup_insert_ne by (by intros <-). by eapply Hbf.
  - intros f' b' Hb'. destruct (decide (f' = 1)) as [->|Hf1].
    + rewrite lookup_insert_eq in Hb'. injection Hb' as <-.
      rewrite fmap_app. apply NoDup_app. split_and!.
      * destruct (freq_to_keys s !! 1) eqn:E; simpl; [by eapply Hnd|constructor].
      * by intros k' Hk' ->%list_elem_of_singleton.
      * repeat constructor. apply not_elem_of_nil.
    + rewrite lookup_insert_ne in Hb' by done. by eapply Hnd.
  - intros f' b' Hb'. destruct (decide (f' = 1)) as [->|Hf1].
    + rewrite lookup_insert_eq in Hb'. injection Hb' as <-.
      rewrite fmap_app. apply (sorted_snoc_touched ops (Put k v)); [done|].
      destruct (freq_to_keys s !! 1) eqn:E; simpl; [by eapply Hso|constructor].
    + rewrite lookup_insert_ne in Hb' by done.
      apply (sorted_snoc_other ops (Put k v)); [by eapply Hfresh|by eapply Hso].
  - intros k' f' Hk'. destruct (decide (k' = k)) as [->|Hne].
    + rewrite lookup_insert_eq in Hk'. by injection Hk' as <-.
    + rewrite lookup_insert_ne in Hk' by done. by eapply Hpos.
  - intros _. split; [exists k; by rewrite lookup_insert_eq|].
    intros k' f' Hk'. destruct (decide (k' = k)) as [->|Hne].
    + rewrite lookup_insert_eq in Hk'. by injection Hk' as <-.
    + rewrite lookup_insert_ne in Hk' by done. by eapply Hpos.
  - unfold size, Dict.len in *. simpl.
    rewrite map_size_insert_None by done. lia.
Qed.

Lemma lfu_get_spec ops k s :
  lfu_inv ops s →
  ∃ s', get k s = Ok (default (-1) (key_to_val s !! k), s') ∧
        lfu_inv (ops ++ [Get k]) s' ∧
        key_to_val s' = key_to_val s ∧ capacity s' = capacity s.
Proof.
  intros Hinv. unfold get, Dict.contains.
  destruct (key_to_val s !! k) as [v|] eqn:Hk; simpl.
  - destruct (update_freq_inv ops (Get k) s Hinv) as (s' & Hup & Hinv' & Hv & Hc).
    { simpl. by rewrite Hk. }
    simpl in Hup. rewrite Hup. simpl. unfold Dict.getitem. rewrite Hv, Hk.
    by exists s'.
  - exists s. split_and!; [done| |done..]. by apply lfu_inv_untouched.
Qed.

Lemma lfu_put_spec ops k v s :
  lfu_inv ops s →
  ∃ s', put k v s = Ok s' ∧ lfu_inv (ops ++ [Put k v]) s' ∧
        capacity s' = capacity s ∧
        (capacity s ≤ 0 → s' = s) ∧
        (1 ≤ capacity s →
         is_Some (key_to_val s !! k) ∨ size s < capacity s →
         key_to_val s' = <[k := v]> (key_to_val s)) ∧
        (1 ≤ capacity s → key_to_val s !! k = None → capacity s ≤ size s →
         ∃ e bm, freq_to_keys s !! min_freq s = Some ((e, ()) :: bm) ∧
                 key_to_val s' = <[k := v]> (delete e (key_to_val s))).
Proof.
  intros Hinv. unfold put. case_decide as Hcap.
  { exists s. split_and!; try done; try lia.
    apply lfu_inv_untouched; [done|]. simpl.
    pose proof (lfu_size _ _ Hinv) as Hsz. unfold size, Dict.len in Hsz.
    assert (base.size (key_to_val s) = 0%nat) as ->%map_size_empty_inv by lia.
    apply lookup_empty. }
  unfold Dict.contains.
  destruct (key_to_val s !! k) as [v0|] eqn:Hk.
  { destruct (update_freq_inv ops (Put k v) _
                (lfu_inv_set_value _ _ k v Hinv ltac:(by rewrite Hk)))
      as (s' & Hup & Hinv' & Hv & Hc).
    { simpl. rewrite lookup_insert_eq. by eexists. }
    simpl in Hup, Hv, Hc. exists s'. split_and!; try done; try lia. }
  destruct Hinv as [Hcore Hmin Hsz]. unfold size, Dict.len in *.
  case_decide as Hfull.
  - (* evict, then insert *)
    assert (key_to_val s ≠ ∅) as Hne.
    { intros Hemp. rewrite Hemp, map_size_empty in Hfull. lia. }
    destruct (Hmin Hne) as [[k0 Hk0] _].
    destruct (lfu_in_bucket _ _ Hcore _ _ Hk0) as (b & Hb & Hkb).
    destruct b as [|[e []] bm]; [by apply elem_of_nil in Hkb|].
    assert (key_to_freq s !! e = Some (min_freq s)) as Hfe.
    { apply (lfu_bucket_freq _ _ Hcore _ _ _ Hb). by left. }
    assert (is_Some (key_to_val s !! e)) as [ve Hve].
    { apply (lfu_dom _ _ Hcore). by eexists. }
    pose proof (lfu_evict_core _ _ _ _ Hcore Hb) as Hcore1.
    destruct (lfu_insert_inv ops k v _ Hcore1) as (s' & Hins & Hinv' & Hv & Hc).
    { simpl. rewrite lookup_delete_ne; [done|]. intros <-. congruence. }
    { unfold size, Dict.len. simpl.
      rewrite map_size_delete_Some by done. lia. }
    simpl in Hins, Hv, Hc. exists s'. split_and!; try done; try lia.
    + unfold Dict.getitem, Dict.delitem. rewrite Hb. simpl.
      rewrite Hve. simpl. rewrite Hfe. simpl. exact Hins.
    + intros _ [[? ?]|?]; [done|lia].
    + intros _ _ _. by exists e, bm.
  - (* room left *)
    destruct (lfu_insert_inv ops k v _ Hcore Hk) as (s' & Hins & Hinv' & Hv & Hc).
    { unfold size, Dict.len. lia. }
    exists s'. split_and!; try done; try lia.
Qed.

Lemma lfu_step_inv ops o s :
  lfu_inv ops s →
  ∃ r s', step o s = Ok (r, s') ∧ lfu_inv (ops ++ [o]) s' ∧
          capacity s' = capacity s.
Proof.
  intros Hinv. destruct o as [k|k v]; simpl.
  - destruct (lfu_get_spec _ k _ Hinv) as (s' & -> & ? & _ & ?). simpl. eauto.
  - destruct (lfu_put_spec _ k v _ Hinv) as (s' & -> & ? & ? & _). simpl. eauto.
Qed.

(** Every run of an LFUCache returns. *)
Lemma lfu_run_inv ops0 ops s :
  lfu_inv ops0 s →
  ∃ rs s', run ops s = Ok (rs, s') ∧ lfu_inv (ops0 ++ ops) s' ∧
           capacity s' = capacity s.
Proof.
  revert ops0 s. induction ops as [|o ops IH]; intros ops0 s Hinv.
  - exists [], s. by rewrite (right_id_L [] (++)).
  - destruct (lfu_step_inv _ o _ Hinv) as (r & s1 & Hs1 & Hinv1 & Hc1).
    destruct (IH _ _ Hinv1) as (rs & s' & Hs' & Hinv' & Hc').
    exists (r :: rs), s'. cbn [run]. rewrite Hs1. simpl. rewrite Hs'. simpl.
    rewrite <-(assoc_L (++)) in Hinv'. split_and!; [done|done|congruence].
Qed.

Lemma lfu_inv_init c : lfu_inv [] (mk c 0 ∅ ∅ ∅).
Proof.
  split; [split|..]; simpl; try done.
  unfold size, Dict.len. simpl. rewrite map_size_empty. lia.
Qed.
End lfu_facts.

(** ** Sessions *)

Lemma simple_session_inv cap ops :
  ∃ rs x, LRUCacheSimple.session cap ops = Ok (rs, x) ∧
          simple_inv ops x ∧ LRUCacheSimple.capacity x = cap.
Proof.
  destruct (simple_run_inv [] ops _ (simple_inv_init cap))
    as (rs & x & Hrun & Hinv & Hc).
  exists rs, x. by split_and!.
Qed.

Lemma lru_session_refines cap ops :
  1 ≤ cap →
  ∃ rs s x, LRUCache.session cap ops = Ok (rs, s) ∧
            LRUCacheSimple.session cap ops = Ok (rs, x) ∧
            refines s x ∧ simple_inv ops x ∧
            LRUCacheSimple.capacity x = cap.
Proof.
  intros Hc. destruct (refines_init cap) as (s0 & Hs0 & Href).
  destruct (run_refines [] ops _ _ Href (simple_inv_init cap) Hc)
    as (rs & s & x & Hs & Hx & Href' & Hinv & Hc').
  exists rs, s, x. unfold LRUCache.session. rewrite Hs0. by split_and!.
Qed.

(** Without capacity, an LRUCache stays empty for as long as it survives. *)
Lemma lru_run_no_capacity ops s rs s' :
  rep s [] → LRUCache.capacity s ≤ 0 → LRUCache.run ops s = Ok (rs, s') →
  s' = s ∧ Forall (λ o, ∃ k, o = Get k) ops.
Proof.
  intros Hrep Hc. revert rs. induction ops as [|o ops IH]; intros rs Hrun.
  - simpl in Hrun. injection Hrun as <- <-. by split.
  - cbn [LRUCache.run] in Hrun. destruct o as [k|k v]; simpl in Hrun.
    + unfold LRUCache.get, Dict.contains in Hrun.
      rewrite (rep_cache_None _ _ k Hrep) in Hrun by apply not_elem_of_nil.
      simpl in Hrun. apply bind_Ok in Hrun as ([rs' s''] & Hrun & Heq).
      injection Heq as <- <-. destruct (IH _ Hrun) as [-> Hall].
      split; [done|]. constructor; eauto.
    + by rewrite put_raises in Hrun.
Qed.

Lemma lru_session_no_capacity cap ops rs s :
  cap ≤ 0 → LRUCache.session cap ops = Ok (rs, s) →
  rep s [] ∧ LRUCache.capacity s = cap.
Proof.
  intros Hc Hs. destruct (rep_init cap) as (s0 & Hs0 & Hc0 & Hrep).
  unfold LRUCache.session in Hs. rewrite Hs0 in Hs. simpl in Hs.
  destruct (lru_run_no_capacity _ _ _ _ Hrep ltac:(lia) Hs) as [-> _]. done.
Qed.

Lemma lfu_session_inv cap ops :
  ∃ rs s, LFUCache.session cap ops = Ok (rs, s) ∧
          lfu_inv ops s ∧ LFUCache.capacity s = cap.
Proof.
  destruct (lfu_run_inv [] ops _ (lfu_inv_init cap)) as (rs & s & Hrun & ? & ?).
  by exists rs, s.
Qed.

Lemma refines_contains s x k :
  refines s x →
  Dict.contains k (LRUCache.cache s) =
  OrderedDict.contains k (LRUCacheSimple.cache x).
Proof.
  intros (_ & es & Hrep & ->).
  destruct (decide (k ∈ es.*2.*1)) as [Hin|Hni].
  - destruct (es_split _ _ (rep_keys _ _ Hrep) Hin)
      as (E1 & r & v & E2 & -> & _ & _).
    unfold Dict.contains. rewrite (rep_cache_Some _ _ _ _ _ _ Hrep).
    symmetry. apply od_contains_true. by rewrite reverse_keys.
  - unfold Dict.contains. rewrite (rep_cache_None _ _ _ Hrep Hni).
    symmetry. apply od_contains_false. by rewrite reverse_keys.
Qed.

Lemma simple_get_elem c (d : list (Z * Z)) k v :
  NoDup d.*1 → (k, v) ∈ d →
  ∃ x', LRUCacheSimple.get k (LRUCacheSimple.mk c d) = Ok (v, x').
Proof.
  intros Hnd Hin.
  assert (k ∈ d.*1) as Hk by (apply list_elem_of_fmap; by exists (k, v)).
  destruct (od_split k d Hnd Hk) as (A & v' & B & -> & HA & HB).
  assert (v' = v) as ->.
  { pose proof (od_elem_lookup _ _ _ Hnd Hin) as Hl.
    rewrite od_lookup_middle in Hl by done. congruence. }
  rewrite simple_get_hit by done. by eexists.
Qed.

Lemma lru_get_elem s x k v :
  refines s x → NoDup (LRUCacheSimple.cache x).*1 →
  (k, v) ∈ LRUCacheSimple.cache x →
  ∃ s', LRUCache.get k s = Ok (v, s').
Proof.
  intros Href Hnd Hin.
  destruct (get_refines k _ _ Href) as (v' & s' & x' & Hs & Hx & _).
  destruct x as [c d]. destruct (simple_get_elem c d k v Hnd Hin) as [x'' Hx''].
  simpl in *. exists s'. congruence.
Qed.

Lemma lru_get_absent s x k :
  refines s x → k ∉ (LRUCacheSimple.cache x).*1 →
  Dict.contains k (LRUCache.cache s) = false ∧
  LRUCache.get k s = Ok (-1, s).
Proof.
  intros Href Hk.
  assert (Dict.contains k (LRUCache.cache s) = false) as Hc.
  { rewrite (refines_contains _ _ _ Href). by apply od_contains_false. }
  split; [done|]. unfold LRUCache.get. by rewrite Hc.
Qed.

(** Puts of new keys while there is room append to the dictionary. *)
Lemma simple_puts_fill c (items d : list (Z * Z)) :
  NoDup (d ++ items).*1 →
  OrderedDict.len d + Z.of_nat (length items) ≤ c →
  LRUCacheSimple.run (puts items) (LRUCacheSimple.mk c d) =
  Ok (replicate (length items) None, LRUCacheSimple.mk c (d ++ items)).
Proof.
  revert d. induction items as [|[k v] items IH]; intros d Hnd Hlen; simpl.
  { by rewrite (right_id_L [] (++)). }
  rewrite fmap_app, fmap_cons in Hnd. simpl in Hnd.
  rewrite simple_put_new_room; simpl in *.
  - rewrite IH; simpl.
    + by rewrite <-(assoc_L (++)).
    + by rewrite <-(assoc_L (++)), fmap_app.
    + unfold OrderedDict.len in *. rewrite length_app. simpl. lia.
  - apply NoDup_middle in Hnd as [Hk _].
    rewrite not_elem_of_app in Hk. tauto.
  - lia.
Qed.

(** One put more than the capacity drops the oldest item. *)
Lemma simple_puts_overflow c (items d : list (Z * Z)) k v :
  1 ≤ c → NoDup (d ++ items ++ [(k, v)]).*1 →
  OrderedDict.len d + Z.of_nat (length items) = c →
  LRUCacheSimple.run (puts (items ++ [(k, v)])) (LRUCacheSimple.mk c d) =
  Ok (replicate (S (length items)) None,
      LRUCacheSimple.mk c (tail (d ++ items ++ [(k, v)]))).
Proof.
  intros Hc. revert d.
  induction items as [|[k0 v0] items IH]; intros d Hnd Hlen; simpl.
  - rewrite simple_put_new_full; simpl in *; [done| |lia].
    rewrite fmap_app in Hnd. simpl in Hnd.
    apply NoDup_app in Hnd as (_ & Hd & _). intros Hk. apply (Hd _ Hk).
    by left.
  - rewrite <-app_comm_cons, fmap_app, fmap_cons in Hnd. simpl in Hnd.
    rewrite simple_put_new_room; simpl in *.
    + rewrite IH; simpl.
      * by rewrite <-(assoc_L (++)).
      * by rewrite <-(assoc_L (++)), fmap_app.
      * unfold OrderedDict.len in *. rewrite length_app. simpl. lia.
    + apply NoDup_middle in Hnd as [Hk _].
      rewrite not_elem_of_app in Hk. tauto.
    + lia.
Qed.

(** After [put(k, v)] on a cache with room for an entry, [(k, v)] is an
    item of the dictionary. *)
Lemma simple_put_elem ops k v x :
  simple_inv ops x → 1 ≤ LRUCacheSimple.capacity x →
  ∃ x', LRUCacheSimple.put k v x = Ok x' ∧ (k, v) ∈ LRUCacheSimple.cache x'.
Proof.
  destruct x as [c d]. intros [Hnd _ Hsz] Hc.
  unfold LRUCacheSimple.size in Hsz. simpl in *.
  destruct (decide (k ∈ d.*1)) as [Hin|Hni].
  - destruct (od_split _ _ Hnd Hin) as (A & v0 & B & -> & HA & HB).
    rewrite simple_put_hit by (done || lia). eexists. split; [done|].
    simpl. set_solver.
  - destruct (decide (OrderedDict.len d < c)) as [Hlt|Hge].
    + rewrite simple_put_new_room by done. eexists. split; [done|].
      simpl. set_solver.
    + rewrite simple_put_new_full by (done || lia). eexists. split; [done|].
      simpl. destruct d as [|e d]; simpl.
      * unfold OrderedDict.len in Hge. simpl in Hge. lia.
      * set_solver.
Qed.

(** Puts of new keys while there is room store every item. *)
Lemma lfu_puts_fill ops0 (items : list (Z * Z)) s :
  lfu_inv ops0 s → 1 ≤ LFUCache.capacity s → NoDup items.*1 →
  (∀ k, k ∈ items.*1 → LFUCache.key_to_val s !! k = None) →
  LFUCache.size s + Z.of_nat (length items) ≤ LFUCache.capacity s →
  ∃ s', LFUCache.run (puts items) s = Ok (replicate (length items) None, s') ∧
        lfu_inv (ops0 ++ puts items) s' ∧
        LFUCache.capacity s' = LFUCache.capacity s ∧
        LFUCache.size s' = LFUCache.size s + Z.of_nat (length items) ∧
        (∀ k v, (k, v) ∈ items → LFUCache.key_to_val s' !! k = Some v) ∧
        (∀ k, k ∉ items.*1 →
              LFUCache.key_to_val s' !! k = LFUCache.key_to_val s !! k).
Proof.
  revert ops0 s.
  induction items as [|[k v] items IH]; intros ops0 s Hinv Hc Hnd Hnew Hsz.
  { exists s. simpl. rewrite (right_id_L [] (++)).
    split_and!; [done|done|done|lia| |done]. by intros k v ?%elem_of_nil. }
  simpl in Hnd, Hsz. apply NoDup_cons in Hnd as [Hk Hnd].
  destruct (lfu_put_spec ops0 k v s Hinv)
    as (s1 & Hput & Hinv1 & Hc1 & _ & Hins & _).
  specialize (Hins Hc ltac:(right; lia)).
  assert (LFUCache.size s1 = LFUCache.size s + 1) as Hsz1.
  { unfold LFUCache.size, Dict.len. rewrite Hins.
    rewrite map_size_insert_None; [lia|]. apply Hnew. by left. }
  destruct (IH (ops0 ++ [Put k v]) s1 Hinv1) as
    (s' & Hrun & Hinv' & Hc' & Hsz' & Hitems & Hother); [lia|done| |lia|].
  { intros k' Hk'. rewrite Hins, lookup_insert_ne by (by intros <-).
    apply Hnew. by right. }
  exists s'. cbn [puts fmap list_fmap LFUCache.run LFUCache.step]. simpl.
  rewrite Hput. simpl. unfold puts in Hrun. rewrite Hrun. simpl.
  rewrite <-(assoc_L (++)) in Hinv'.
  split_and!; [done|done|congruence|lia| |].
  - intros k' v' [[= -> ->]|Hin]%elem_of_cons.
    + by rewrite Hother, Hins, lookup_insert_eq.
    + by apply Hitems.
  - intros k' [Hne Hk']%not_elem_of_cons.
    by rewrite Hother, Hins, lookup_insert_ne.
Qed.

(** No operation of an LFUCache removes a bucket. *)
Lemma add_to_bucket_keeps f k d d' g :
  LFUCache.add_to_bucket f k d = Ok d' → is_Some (d !! g) → is_Some (d' !! g).
Proof.
  unfold LFUCache.add_to_bucket. intros (b & _ & [= <-])%bind_Ok Hg.
  destruct (decide (g = f)) as [->|Hne].
  - rewrite lookup_insert_eq. by eexists.
  - rewrite lookup_insert_ne by done.
    destruct (negb (Dict.contains f d)); [|done]. by rewrite lookup_insert_ne.
Qed.

Lemma update_freq_keeps k s s' g :
  LFUCache._update_freq k s = Ok s' →
  is_Some (LFUCache.freq_to_keys s !! g) →
  is_Some (LFUCache.freq_to_keys s' !! g).
Proof.
  unfold LFUCache._update_freq.
  intros (f & _ & (b & _ & (b' & _ & (b'' & _ &
          (d' & Hadd & [= <-])%bind_Ok)%bind_Ok)%bind_Ok)%bind_Ok)%bind_Ok Hg.
  simpl. apply (add_to_bucket_keeps _ _ _ _ _ Hadd).
  destruct (decide (g = f)) as [->|Hne].
  - rewrite lookup_insert_eq. by eexists.
  - by rewrite lookup_insert_ne.
Qed.

Lemma lfu_step_keeps o s r s' g :
  LFUCache.step o s = Ok (r, s') →
  is_Some (LFUCache.freq_to_keys s !! g) →
  is_Some (LFUCache.freq_to_keys s' !! g).
Proof.
  destruct o as [k|k v]; simpl.
  - intros ([v s1] & Hget & [= <- <-])%bind_Ok. unfold LFUCache.get in Hget.
    destruct (negb _); [by injection Hget as <- <-|].
    apply bind_Ok in Hget as (s2 & Hup & (v' & _ & [= <- <-])%bind_Ok).
    by eapply update_freq_keeps.
  - intros (s1 & Hput & [= <- <-])%bind_Ok. unfold LFUCache.put in Hput.
    case_decide; [by injection Hput as <-|].
    destruct (Dict.contains _ _).
    { intros Hg. by eapply (update_freq_keeps _ _ _ _ Hput). }
    apply bind_Ok in Hput as (s2 & Hev & (d' & Hadd & [= <-])%bind_Ok).
    intros Hg. simpl. apply (add_to_bucket_keeps _ _ _ _ _ Hadd).
    case_decide; [|by injection Hev as <-].
    apply bind_Ok in Hev as (b & _ & ([[e []] bm] & _ &
      (k2v & _ & (k2f & _ & [= <-])%bind_Ok)%bind_Ok)%bind_Ok).
    simpl. destruct (decide (g = LFUCache.min_freq s)) as [->|Hne].
    + rewrite lookup_insert_eq. by eexists.
    + by rewrite lookup_insert_ne.
Qed.

(** * The claims *)

(** C1.  In an LFUCache with capacity at least 1 that is full, [put] of an
    absent key evicts exactly one key [e]; [e] has the least access
    frequency of all stored keys, and among the keys of that frequency it is
    the least recently touched.  In particular, with capacity 2, after
    [put(1,1)], [put(2,2)], [put(3,3)] key 1 is gone: [get(1)] misses and
    [get(2)] hits. *)
Theorem lfu_put_evicts_least_frequent_least_recent cap ops rs s k v :
  1 ≤ cap →
  LFUCache.session cap ops = Ok (rs, s) →
  LFUCache.size s = cap →
  LFUCache.key_to_val s !! k = None →
  (∃ e fe s',
     LFUCache.put k v s = Ok s' ∧
     LFUCache.key_to_val s' = <[k := v]> (delete e (LFUCache.key_to_val s)) ∧
     is_Some (LFUCache.key_to_val s !! e) ∧
     LFUCache.key_to_freq s !! e = Some fe ∧
     (∀ k' f', LFUCache.key_to_freq s !! k' = Some f' → fe ≤ f') ∧
     (∀ k', k' ≠ e → LFUCache.key_to_freq s !! k' = Some fe →
            older ops e k')) ∧
  (∃ s2, LFUCache.session 2 [Put 1 1; Put 2 2; Put 3 3; Get 1; Get 2] =
         Ok ([None; None; None; Some (-1); Some 2], s2)).
Proof.
  intros Hcap Hs Hfull Hk. split; [|eexists; by vm_compute].
  destruct (lfu_session_inv cap ops) as (rs' & s0 & Hs0 & Hinv & Hc).
  assert (s0 = s) as -> by congruence.
  destruct (lfu_put_spec ops k v s Hinv)
    as (s' & Hput & _ & _ & _ & _ & Hev).
  destruct (Hev ltac:(lia) Hk ltac:(lia)) as (e & bm & Hb & Hv').
  pose proof (lfu_core_inv _ _ Hinv) as Hcore.
  assert (LFUCache.key_to_freq s !! e = Some (LFUCache.min_freq s)) as Hfe.
  { apply (lfu_bucket_freq _ _ Hcore _ _ _ Hb). by left. }
  exists e, (LFUCache.min_freq s), s'. split_and!; [done|done| |done| |].
  - apply (lfu_dom _ _ Hcore). by eexists.
  - apply (lfu_min _ _ Hinv). intros Hemp.
    unfold LFUCache.size, Dict.len in Hfull.
    rewrite Hemp, map_size_empty in Hfull. lia.
  - intros k' Hne Hk'.
    destruct (lfu_in_bucket _ _ Hcore _ _ Hk') as (b & Hb' & Hin).
    rewrite Hb in Hb'. injection Hb' as <-. simpl in Hin.
    apply elem_of_cons in Hin as [?|Hin]; [done|].
    pose proof (lfu_bucket_sorted _ _ Hcore _ _ Hb) as Hso. simpl in Hso.
    apply StronglySorted_cons in Hso as [Hall _].
    by apply (proj1 (Forall_forall _ _) Hall).
Qed.

Lemma lfu_put_evicts_least_frequent_least_recent_witness :
  ∃ e fe s',
    LFUCache.put 3 3
      (LFUCache.mk 2 1 {[1 := 1; 2 := 2]} {[1 := 1; 2 := 1]}
                   {[1 := [(1, ()); (2, ())]]}) = Ok s' ∧
    LFUCache.key_to_val s' = <[3 := 3]> (delete e {[1 := 1; 2 := 2]}) ∧
    is_Some (({[1 := 1; 2 := 2]} : gmap Z Z) !! e) ∧
    ({[1 := 1; 2 := 1]} : gmap Z Z) !! e = Some fe ∧
    (∀ k' f', ({[1 := 1; 2 := 1]} : gmap Z Z) !! k' = Some f' → fe ≤ f') ∧
    (∀ k', k' ≠ e → ({[1 := 1; 2 := 1]} : gmap Z Z) !! k' = Some fe →
           older [Put 1 1; Put 2 2] e k').
Proof.
  refine (proj1 (lfu_put_evicts_least_frequent_least_recent
           2 [Put 1 1; Put 2 2] [None; None]
           (LFUCache.mk 2 1 {[1 := 1; 2 := 2]} {[1 := 1; 2 := 1]}
                        {[1 := [(1, ()); (2, ())]]}) 3 3 _ _ _ _)).
  - lia.
  - by vm_compute.
  - by vm_compute.
  - vm_compute. by eexists.
Defined.

(** C2.  A cache of capacity 0 should take [put] as a no-op and miss on
    every [get].  LFUCache and LRUCacheSimple do; LRUCache does not: its
    [put] raises AttributeError, for every key and value. *)
Theorem lru_zero_capacity_put_raises k v :
  LRUCache.session 0 [Put k v; Get k] = Raise AttributeError ∧
  (∃ s, LFUCache.session 0 [Put k v; Get k] = Ok ([None; Some (-1)], s) ∧
        LFUCache.size s = 0) ∧
  (∃ x, LRUCacheSimple.session 0 [Put k v; Get k] = Ok ([None; Some (-1)], x) ∧
        LRUCacheSimple.size x = 0).
Proof.
  split_and!.
  - destruct (rep_init 0) as (s & Hs & Hc & Hrep).
    unfold LRUCache.session. rewrite Hs. cbn [mbind result_bind].
    cbn [LRUCache.run LRUCache.step]. rewrite put_raises; [done..|lia].
  - eexists. split; reflexivity.
  - eexists. split; reflexivity.
Qed.

Lemma lru_run_put_raises s ops1 k v ops2 :
  rep s [] → LRUCache.capacity s ≤ 0 →
  LRUCache.run (ops1 ++ Put k v :: ops2) s = Raise AttributeError.
Proof.
  intros Hrep Hc. induction ops1 as [|o ops1 IH]; cbn [app LRUCache.run].
  - simpl. by rewrite put_raises.
  - destruct o as [k'|k' v']; simpl.
    + unfold LRUCache.get, Dict.contains.
      rewrite (rep_cache_None _ _ k' Hrep) by apply not_elem_of_nil.
      simpl. by rewrite IH.
    + by rewrite put_raises.
Qed.

(** C6.  [get] and [put] should never raise on a cache built with a
    non-negative capacity.  On an LRUCache of capacity 0 (or less) the
    first [put] of any session raises AttributeError: [_pop_tail] unlinks
    the [head] sentinel of the empty list. *)
Theorem lru_put_raises_without_capacity cap ops1 k v ops2 :
  cap ≤ 0 →
  LRUCache.session cap (ops1 ++ Put k v :: ops2) = Raise AttributeError.
Proof.
  intros Hc. destruct (rep_init cap) as (s & Hs & Hcs & Hrep).
  unfold LRUCache.session. rewrite Hs. cbn [mbind result_bind].
  apply lru_run_put_raises; [done|lia].
Qed.

Lemma lru_put_raises_without_capacity_witness :
  LRUCache.session 0 ([Get 1] ++ Put 1 1 :: [Get 1]) = Raise AttributeError.
Proof. apply (lru_put_raises_without_capacity 0 [Get 1] 1 1 [Get 1]). lia. Defined.

(** C7 as stated fails: a negative capacity is accepted. *)
Lemma negative_capacity_accepted :
  (∃ s, LRUCache.init (-1) = Ok s ∧ LRUCache.capacity s = -1) ∧
  LRUCacheSimple.init (-1) = Ok (LRUCacheSimple.mk (-1) []) ∧
  LFUCache.init (-1) = Ok (LFUCache.mk (-1) 0 ∅ ∅ ∅).
Proof. split_and!; [eexists; split; reflexivity|reflexivity..]. Qed.

(** C7, amended.  For every negative capacity the three constructors
    return an empty cache that stores the capacity as given: nothing is
    raised and nothing is clamped. *)
Theorem init_accepts_negative_capacity c :
  c < 0 →
  (∃ s, LRUCache.init c = Ok s ∧ LRUCache.capacity s = c ∧
        LRUCache.size s = 0) ∧
  LRUCacheSimple.init c = Ok (LRUCacheSimple.mk c []) ∧
  LFUCache.init c = Ok (LFUCache.mk c 0 ∅ ∅ ∅).
Proof.
  intros _. split_and!; [|reflexivity..].
  eexists. split_and!; reflexivity.
Qed.

Lemma init_accepts_negative_capacity_witness :
  (∃ s, LRUCache.init (-5) = Ok s ∧ LRUCache.capacity s = -5 ∧
        LRUCache.size s = 0) ∧
  LRUCacheSimple.init (-5) = Ok (LRUCacheSimple.mk (-5) []) ∧
  LFUCache.init (-5) = Ok (LFUCache.mk (-5) 0 ∅ ∅ ∅).
Proof. apply (init_accepts_negative_capacity (-5)). lia. Defined.

(** A hit on the only key of a cache of capacity 1, stored with frequency
    [m + 1]: [_update_freq] empties the bucket of [m + 1], leaves it in
    [freq_to_keys], and opens the bucket of [m + 2]. *)
Lemma lfu_hit_leaves_empty_bucket (m : Z)
    (f2k : gmap Z (OrderedDict.t unit)) :
  f2k !! (m + 1) = Some [(1, ())] →
  f2k !! (m + 2) = None →
  LFUCache.step (Get 1)
    (LFUCache.mk 1 (m + 1) {[1 := 1]} {[1 := m + 1]} f2k) =
  Ok (Some 1, LFUCache.mk 1 (m + 2) {[1 := 1]} {[1 := m + 2]}
                (<[m + 2 := [(1, ())]]> (<[m + 1 := []]> f2k))).
Proof.
  intros Hb Hn.
  assert (LFUCache._update_freq 1
            (LFUCache.mk 1 (m + 1) {[1 := 1]} {[1 := m + 1]} f2k) =
          Ok (LFUCache.mk 1 (m + 2) {[1 := 1]} {[1 := m + 2]}
                (<[m + 2 := [(1, ())]]> (<[m + 1 := []]> f2k)))) as Hup.
  { unfold LFUCache._update_freq, Dict.getitem. simpl.
    rewrite lookup_singleton_eq. simpl. rewrite Hb. simpl.
    rewrite lookup_insert_eq. simpl.
    rewrite bool_decide_eq_true_2 by done.
    replace (m + 1 + 1) with (m + 2) by lia.
    unfold LFUCache.add_to_bucket, Dict.contains, Dict.getitem.
    rewrite lookup_insert_ne by lia. rewrite Hn. simpl.
    rewrite lookup_insert_eq. simpl.
    by rewrite insert_insert_eq, insert_singleton_eq. }
  unfold LFUCache.step, LFUCache.get, Dict.contains. simpl.
  rewrite lookup_singleton_eq. simpl. rewrite Hup. simpl.
  unfold Dict.getitem. simpl. by rewrite lookup_singleton_eq.
Qed.

(** [n] further hits after [m]: every hit adds one bucket, and every bucket
    below the frequency of the key is empty. *)
Lemma lfu_hits_leave_empty_buckets (n : nat) :
  ∀ (m : nat) (f2k : gmap Z (OrderedDict.t unit)),
    base.size f2k = S m →
    f2k !! (Z.of_nat m + 1) = Some [(1, ())] →
    (∀ f, 1 ≤ f ≤ Z.of_nat m → f2k !! f = Some []) →
    (∀ f, Z.of_nat m + 1 < f → f2k !! f = None) →
    ∃ f2k',
      LFUCache.run (replicate n (Get 1))
        (LFUCache.mk 1 (Z.of_nat m + 1) {[1 := 1]}
           {[1 := Z.of_nat m + 1]} f2k) =
      Ok (replicate n (Some 1),
          LFUCache.mk 1 (Z.of_nat (m + n) + 1) {[1 := 1]}
            {[1 := Z.of_nat (m + n) + 1]} f2k') ∧
      base.size f2k' = S (m + n) ∧
      f2k' !! (Z.of_nat (m + n) + 1) = Some [(1, ())] ∧
      (∀ f, 1 ≤ f ≤ Z.of_nat (m + n) → f2k' !! f = Some []) ∧
      (∀ f, Z.of_nat (m + n) + 1 < f → f2k' !! f = None).
Proof.
  induction n as [|n IH]; intros m f2k Hsz Hb Hlow Hhigh.
  { exists f2k. rewrite Nat.add_0_r. by split_and!. }
  cbn [replicate LFUCache.run].
  rewrite (lfu_hit_leaves_empty_bucket (Z.of_nat m) f2k Hb)
    by (apply Hhigh; lia).
  cbn [mbind result_bind].
  replace (Z.of_nat m + 2) with (Z.of_nat (S m) + 1) by lia.
  destruct (IH (S m)
    (<[Z.of_nat (S m) + 1 := [(1, ())]]> (<[Z.of_nat m + 1 := []]> f2k)))
    as (f2k' & Hrun & Hsz' & Hb' & Hlow' & Hhigh').
  - rewrite map_size_insert_None.
    + rewrite map_size_insert_Some by (by eexists). by rewrite Hsz.
    + rewrite lookup_insert_ne by lia. apply Hhigh. lia.
  - by rewrite lookup_insert_eq.
  - intros f Hf. rewrite lookup_insert_ne by lia.
    destruct (decide (f = Z.of_nat m + 1)) as [->|Hne].
    + by rewrite lookup_insert_eq.
    + rewrite lookup_insert_ne by done. apply Hlow. lia.
  - intros f Hf. rewrite !lookup_insert_ne by lia. apply Hhigh. lia.
  - exists f2k'. rewrite Hrun. cbn [mbind result_bind].
    replace (S m + n)%nat with (m + S n)%nat in * by lia. by split_and!.
Qed.

(** C8.  The code does not do what the claim says: no method of LFUCache
    deletes an entry of [freq_to_keys], so a bucket emptied by a frequency
    update or by an eviction stays in the mapping.  In a cache of capacity 1
    a [put] followed by five hits leaves six buckets, five of them empty; a
    hit followed by the eviction of the key leaves the bucket of frequency 2
    empty; and a [put] followed by [n] hits leaves [n + 1] buckets of which
    those of the frequencies 1 to [n] are empty, while the cache holds one
    entry: the mapping grows with the number of calls, against the
    "Space Complexity: O(capacity)" of the class docstring. *)
Theorem lfu_emptied_buckets_accumulate :
  (∃ s, LFUCache.session 1 [Put 1 1; Get 1; Get 1; Get 1; Get 1; Get 1] =
        Ok ([None; Some 1; Some 1; Some 1; Some 1; Some 1], s) ∧
        LFUCache.size s = 1 ∧
        LFUCache.freq_to_keys s =
          {[1 := []; 2 := []; 3 := []; 4 := []; 5 := []; 6 := [(1, ())]]}) ∧
  (∃ s, LFUCache.session 1 [Put 1 1; Get 1; Put 2 2] =
        Ok ([None; Some 1; None], s) ∧
        LFUCache.size s = 1 ∧
        LFUCache.freq_to_keys s = {[1 := [(2, ())]; 2 := []]}) ∧
  (∀ n : nat,
     ∃ s, LFUCache.session 1 (Put 1 1 :: replicate n (Get 1)) =
          Ok (None :: replicate n (Some 1), s) ∧
          LFUCache.size s = 1 ∧
          base.size (LFUCache.freq_to_keys s) = S n ∧
          (∀ f, 1 ≤ f ≤ Z.of_nat n → LFUCache.freq_to_keys s !! f = Some [])).
Proof.
  split_and!.
  - eexists. split_and!; by vm_compute.
  - eexists. split_and!; by vm_compute.
  - intros n.
    destruct (lfu_hits_leave_empty_buckets n 0 {[1 := [(1, ())]]})
      as (f2k' & Hrun & Hsz & _ & Hlow & _).
    + by rewrite map_size_singleton.
    + by rewrite lookup_singleton_eq.
    + intros f Hf. lia.
    + intros f Hf. rewrite lookup_singleton_ne; [done|lia].
    + eexists. split_and!.
      * unfold LFUCache.session, LFUCache.init. cbn [mbind result_bind].
        cbn [LFUCache.run].
        change (LFUCache.step (Put 1 1) (LFUCache.mk 1 0 ∅ ∅ ∅))
          with (Ok (None : option Z,
                    LFUCache.mk 1 (Z.of_nat 0 + 1) {[1 := 1]}
                      {[1 := Z.of_nat 0 + 1]} {[1 := [(1, ())]]})).
        cbn [mbind result_bind]. rewrite Hrun. cbn [mbind result_bind].
        reflexivity.
      * unfold LFUCache.size, Dict.len. cbn [LFUCache.key_to_val].
        by rewrite map_size_singleton.
      * done.
      * done.
Qed.

(** C9.  For every capacity of at least 1 and every sequence of calls, the
    run of LRUCache and the run of LRUCacheSimple both return, with the same
    result for every call, and end in caches that hold the same entries in
    the same recency order. *)
Theorem lru_implementations_agree cap ops :
  1 ≤ cap →
  ∃ rs s x, LRUCache.session cap ops = Ok (rs, s) ∧
            LRUCacheSimple.session cap ops = Ok (rs, x) ∧
            refines s x.
Proof.
  intros Hc.
  destruct (lru_session_refines cap ops Hc) as (rs & s & x & ? & ? & ? & _).
  by exists rs, s, x.
Qed.

Lemma lru_implementations_agree_witness :
  ∃ rs s x,
    LRUCache.session 2 [Put 1 1; Put 2 2; Get 1; Put 3 3; Get 2] = Ok (rs, s) ∧
    LRUCacheSimple.session 2 [Put 1 1; Put 2 2; Get 1; Put 3 3; Get 2] =
      Ok (rs, x) ∧
    refines s x.
Proof. apply (lru_implementations_agree 2). lia. Defined.

(** C5.  For every non-negative capacity and every sequence of calls, the
    number of stored entries never exceeds the capacity, which never changes:
    this holds in the cache the calls end in, for every sequence, hence after
    each call.  LRUCacheSimple and LFUCache always get there; LRUCache gets
    there whenever the capacity is at least 1. *)
Theorem size_within_capacity cap ops :
  0 ≤ cap →
  ((∀ rs s, LRUCache.session cap ops = Ok (rs, s) →
            LRUCache.size s ≤ LRUCache.capacity s ∧
            LRUCache.capacity s = cap) ∧
   (1 ≤ cap → ∃ rs s, LRUCache.session cap ops = Ok (rs, s))) ∧
  (∃ rs x, LRUCacheSimple.session cap ops = Ok (rs, x) ∧
           LRUCacheSimple.size x ≤ LRUCacheSimple.capacity x ∧
           LRUCacheSimple.capacity x = cap) ∧
  (∃ rs s, LFUCache.session cap ops = Ok (rs, s) ∧
           LFUCache.size s ≤ LFUCache.capacity s ∧
           LFUCache.capacity s = cap).
Proof.
  intros Hcap. split_and!.
  - intros rs s Hs. destruct (decide (1 ≤ cap)) as [Hc|Hc].
    + destruct (lru_session_refines cap ops Hc)
        as (rs' & s0 & x & Hs0 & _ & Href & Hinv & Hcx).
      assert (s0 = s) as -> by congruence.
      rewrite (refines_size _ _ Href). pose proof (simple_size _ _ Hinv).
      destruct Href as [Hcs _]. lia.
    + destruct (lru_session_no_capacity cap ops rs s ltac:(lia) Hs)
        as [Hrep Hcs].
      unfold LRUCache.size, Dict.len. rewrite (rep_size _ _ Hrep). simpl. lia.
  - intros Hc.
    destruct (lru_session_refines cap ops Hc) as (rs & s & _ & Hs & _).
    by exists rs, s.
  - destruct (simple_session_inv cap ops) as (rs & x & Hx & Hinv & Hc).
    exists rs, x. pose proof (simple_size _ _ Hinv). split_and!; [done|lia|done].
  - destruct (lfu_session_inv cap ops) as (rs & s & Hs & Hinv & Hc).
    exists rs, s. pose proof (lfu_size _ _ Hinv). split_and!; [done|lia|done].
Qed.

Lemma size_within_capacity_witness :
  ((∀ rs s, LRUCache.session 1 [Put 1 1; Put 2 2; Get 2] = Ok (rs, s) →
            LRUCache.size s ≤ LRUCache.capacity s ∧
            LRUCache.capacity s = 1) ∧
   (1 ≤ 1 → ∃ rs s, LRUCache.session 1 [Put 1 1; Put 2 2; Get 2] = Ok (rs, s))) ∧
  (∃ rs x, LRUCacheSimple.session 1 [Put 1 1; Put 2 2; Get 2] = Ok (rs, x) ∧
           LRUCacheSimple.size x ≤ LRUCacheSimple.capacity x ∧
           LRUCacheSimple.capacity x = 1) ∧
  (∃ rs s, LFUCache.session 1 [Put 1 1; Put 2 2; Get 2] = Ok (rs, s) ∧
           LFUCache.size s ≤ LFUCache.capacity s ∧
           LFUCache.capacity s = 1).
Proof. apply (size_within_capacity 1 [Put 1 1; Put 2 2; Get 2]). lia. Defined.

(** C4.  After puts of pairwise distinct keys, no more of them than the
    capacity, [get] on each of the keys returns the value that was put, in
    LRUCache, in LRUCacheSimple and in LFUCache. *)
Theorem put_get_round_trip cap (items : list (Z * Z)) k v :
  NoDup items.*1 → Z.of_nat (length items) ≤ cap → (k, v) ∈ items →
  (∃ s s', LRUCache.session cap (puts items) =
             Ok (replicate (length items) None, s) ∧
           LRUCache.get k s = Ok (v, s')) ∧
  (∃ x x', LRUCacheSimple.session cap (puts items) =
             Ok (replicate (length items) None, x) ∧
           LRUCacheSimple.get k x = Ok (v, x')) ∧
  (∃ s s', LFUCache.session cap (puts items) =
             Ok (replicate (length items) None, s) ∧
           LFUCache.get k s = Ok (v, s')).
Proof.
  intros Hnd Hlen Hin.
  assert (1 ≤ cap) as Hc.
  { destruct items; [by apply elem_of_nil in Hin|simpl in Hlen; lia]. }
  assert (LRUCacheSimple.session cap (puts items) =
          Ok (replicate (length items) None, LRUCacheSimple.mk cap items))
    as Hsimple.
  { unfold LRUCacheSimple.session, LRUCacheSimple.init. cbn [mbind result_bind].
    rewrite (simple_puts_fill cap items []); [done|done|].
    unfold OrderedDict.len. simpl. lia. }
  split_and!.
  - destruct (lru_session_refines cap (puts items) Hc)
      as (rs & s & x & Hs & Hx & Href & _).
    rewrite Hsimple in Hx. injection Hx as <- <-.
    destruct (lru_get_elem s _ k v Href Hnd Hin) as [s' Hget].
    by exists s, s'.
  - destruct (simple_get_elem cap items k v Hnd Hin) as [x' Hget].
    by exists (LRUCacheSimple.mk cap items), x'.
  - destruct (lfu_puts_fill [] items _ (lfu_inv_init cap))
      as (s & Hrun & Hinv & _ & _ & Hitems & _); simpl; try done.
    destruct (lfu_get_spec _ k s Hinv) as (s' & Hget & _).
    rewrite (Hitems _ _ Hin) in Hget. by exists s, s'.
Qed.

Lemma put_get_round_trip_witness :
  (∃ s s', LRUCache.session 2 (puts [(7, 70); (8, 80)]) =
             Ok (replicate 2 None, s) ∧
           LRUCache.get 7 s = Ok (70, s')) ∧
  (∃ x x', LRUCacheSimple.session 2 (puts [(7, 70); (8, 80)]) =
             Ok (replicate 2 None, x) ∧
           LRUCacheSimple.get 7 x = Ok (70, x')) ∧
  (∃ s s', LFUCache.session 2 (puts [(7, 70); (8, 80)]) =
             Ok (replicate 2 None, s) ∧
           LFUCache.get 7 s = Ok (70, s')).
Proof.
  apply (put_get_round_trip 2 [(7, 70); (8, 80)] 7 70).
  - apply (bool_decide_unpack _). by vm_compute.
  - simpl. lia.
  - by left.
Defined.

Lemma lfu_put_lookup ops k v s s' :
  lfu_inv ops s → 1 ≤ LFUCache.capacity s → LFUCache.put k v s = Ok s' →
  LFUCache.key_to_val s' !! k = Some v.
Proof.
  intros Hinv Hc Hput.
  destruct (lfu_put_spec ops k v s Hinv) as (s1 & Hput1 & _ & _ & _ & Hins & Hev).
  assert (s1 = s') as -> by congruence.
  destruct (LFUCache.key_to_val s !! k) as [v0|] eqn:Hk.
  { rewrite Hins by (done || by left). apply lookup_insert_eq. }
  destruct (decide (LFUCache.size s < LFUCache.capacity s)).
  { rewrite Hins by (done || by right). apply lookup_insert_eq. }
  destruct (Hev Hc eq_refl ltac:(lia)) as (e & bm & _ & ->).
  apply lookup_insert_eq.
Qed.

(** C10.  A miss is the integer -1, in LRUCache and in LFUCache alike.
    After [put(k, -1)] the key is stored (whenever the capacity is at least
    1) and [get(k)] returns -1, which is also what [get] returns for a key
    that is not stored: the two cannot be told apart by what [get] returns. *)
Theorem miss_is_in_band cap ops k :
  (∀ rs s s', LRUCache.session cap ops = Ok (rs, s) →
     LRUCache.put k (-1) s = Ok s' →
     Dict.contains k (LRUCache.cache s') = true ∧
     (∃ s'', LRUCache.get k s' = Ok (-1, s'')) ∧
     (∀ k', Dict.contains k' (LRUCache.cache s') = false →
            LRUCache.get k' s' = Ok (-1, s'))) ∧
  (∀ rs s s', LFUCache.session cap ops = Ok (rs, s) →
     LFUCache.put k (-1) s = Ok s' →
     (1 ≤ cap → Dict.contains k (LFUCache.key_to_val s') = true) ∧
     (∃ s'', LFUCache.get k s' = Ok (-1, s'')) ∧
     (∀ k', Dict.contains k' (LFUCache.key_to_val s') = false →
            LFUCache.get k' s' = Ok (-1, s'))).
Proof.
  split.
  - intros rs s s' Hs Hput.
    assert (∀ k', Dict.contains k' (LRUCache.cache s') = false →
                  LRUCache.get k' s' = Ok (-1, s')) as Habs.
    { intros k' Hk'. unfold LRUCache.get. by rewrite Hk'. }
    destruct (decide (1 ≤ cap)) as [Hc|Hc]; last first.
    { destruct (lru_session_no_capacity cap ops rs s ltac:(lia) Hs)
        as [Hrep Hcs].
      rewrite put_raises in Hput by (done || lia). done. }
    destruct (lru_session_refines cap ops Hc)
      as (rs' & s0 & x & Hs0 & _ & Href & Hinv & Hcx).
    assert (s0 = s) as -> by congruence.
    pose proof (simple_size _ _ Hinv) as Hsz.
    destruct (put_refines k (-1) s x Href) as (s1 & x1 & Hp & Hpx & Href1 & _);
      [lia..|].
    assert (s1 = s') as -> by congruence.
    destruct (simple_put_elem ops k (-1) x Hinv) as (x1' & Hpx' & Hin); [lia|].
    assert (x1' = x1) as -> by congruence.
    destruct (simple_step_inv ops (Put k (-1)) x Hinv)
      as (r & x2 & Hstep & Hinv2 & _).
    simpl in Hstep. rewrite Hpx in Hstep. injection Hstep as <- <-.
    pose proof (simple_nodup _ _ Hinv2) as Hnd.
    split_and!; [|by eapply lru_get_elem|done].
    rewrite (refines_contains _ _ _ Href1). apply od_contains_true.
    apply list_elem_of_fmap. by exists (k, -1).
  - intros rs s s' Hs Hput.
    destruct (lfu_session_inv cap ops) as (rs' & s0 & Hs0 & Hinv & Hcs).
    assert (s0 = s) as -> by congruence.
    destruct (lfu_put_spec ops k (-1) s Hinv)
      as (s1 & Hput1 & Hinv1 & _ & Hnoop & _).
    assert (s1 = s') as -> by congruence.
    destruct (lfu_get_spec _ k s' Hinv1) as (s'' & Hget & _).
    split_and!.
    + intros Hc. unfold Dict.contains.
      by rewrite (lfu_put_lookup ops k (-1) s s' Hinv ltac:(lia) Hput).
    + exists s''. rewrite Hget. do 2 f_equal.
      destruct (decide (1 ≤ cap)) as [Hc|Hc].
      * by rewrite (lfu_put_lookup ops k (-1) s s' Hinv ltac:(lia) Hput).
      * by destruct (LFUCache.key_to_val s' !! k) as [v|] eqn:Hk;
          [rewrite Hnoop in Hk by lia;
           pose proof (lfu_size _ _ Hinv) as Hsz;
           unfold LFUCache.size, Dict.len in Hsz;
           assert (base.size (LFUCache.key_to_val s) = 0%nat)
             as Hemp%map_size_empty_inv by lia;
           rewrite Hemp, lookup_empty in Hk|].
    + intros k' Hk'. unfold LFUCache.get. by rewrite Hk'.
Qed.

Lemma miss_is_in_band_witness :
  ∃ s',
    LRUCache.put 5 (-1)
      (LRUCache.mk 1 ∅
         (LRUCache.Store
            {[0%nat := LRUCache.Node 0 0 None (Some 1%nat);
              1%nat := LRUCache.Node 0 0 (Some 0%nat) None]} 2) 0 1) = Ok s' ∧
    Dict.contains 5 (LRUCache.cache s') = true ∧
    (∃ s'', LRUCache.get 5 s' = Ok (-1, s'')) ∧
    (∀ k', Dict.contains k' (LRUCache.cache s') = false →
           LRUCache.get k' s' = Ok (-1, s')).
Proof.
  eexists. split; [by vm_compute|].
  refine (proj1 (miss_is_in_band 1 [] 5) [] _ _ _ _).
  - by vm_compute.
  - by vm_compute.
Defined.

(** In a full LRUCacheSimple of capacity at least 2, a hit on [k] followed
    by the put of a new key evicts the oldest other key [e] and keeps [k]. *)
Lemma simple_get_protects ops c d k k' v' :
  simple_inv ops (LRUCacheSimple.mk c d) → 2 ≤ c → OrderedDict.len d = c →
  k ∈ d.*1 → k' ∉ d.*1 →
  ∃ vk e d1 d2,
    LRUCacheSimple.get k (LRUCacheSimple.mk c d) =
      Ok (vk, LRUCacheSimple.mk c d1) ∧
    LRUCacheSimple.put k' v' (LRUCacheSimple.mk c d1) =
      Ok (LRUCacheSimple.mk c d2) ∧
    simple_inv (ops ++ [Get k]) (LRUCacheSimple.mk c d1) ∧
    NoDup d2.*1 ∧ (k, vk) ∈ d2 ∧
    e ≠ k ∧ e ∈ d.*1 ∧ (e ∉ d2.*1) ∧
    (∀ k'', k'' ∈ d.*1 → k'' ≠ e →
            k'' ∈ d2.*1 ∧ older (ops ++ [Get k]) e k'').
Proof.
  intros Hinv Hc Hlen Hk Hk'.
  destruct (od_split k d (simple_nodup _ _ Hinv) Hk)
    as (A & vk & B & -> & HA & HB).
  destruct (simple_step_inv ops (Get k) _ Hinv) as (r & x1 & Hstep & Hinv1 & _).
  simpl in Hstep. rewrite simple_get_hit in Hstep by done.
  injection Hstep as <- <-.
  destruct (A ++ B) as [|[e ve] R] eqn:HAB.
  { apply app_eq_nil in HAB as [-> ->]. unfold OrderedDict.len in Hlen.
    simpl in Hlen. lia. }
  assert (k ∉ ((e, ve) :: R).*1) as HkR.
  { rewrite <-HAB, fmap_app, not_elem_of_app. done. }
  assert ((k' ∉ ((e, ve) :: R).*1) ∧ k' ≠ k) as [Hk'R Hk'k].
  { rewrite fmap_fst_middle in Hk'. rewrite <-HAB, fmap_app.
    rewrite !not_elem_of_app, not_elem_of_cons in *. tauto. }
  assert (A ++ B ++ [(k, vk)] = (e, ve) :: R ++ [(k, vk)]) as Hd1.
  { by rewrite (assoc_L (++)), HAB. }
  rewrite Hd1 in Hinv1.
  pose proof (simple_nodup _ _ Hinv1) as Hnd1.
  pose proof (simple_sorted _ _ Hinv1) as Hso1. simpl in Hnd1, Hso1.
  rewrite fmap_app in Hnd1, Hso1. simpl in Hnd1, Hso1.
  apply NoDup_cons in Hnd1 as [He Hnd1].
  apply StronglySorted_cons in Hso1 as [Hall _].
  rewrite Forall_forall in Hall.
  simpl in HkR, Hk'R. rewrite not_elem_of_cons in HkR, Hk'R.
  exists vk, e, ((e, ve) :: R ++ [(k, vk)]), (R ++ [(k, vk); (k', v')]).
  split_and!.
  - rewrite simple_get_hit by done. by rewrite Hd1.
  - rewrite simple_put_new_full.
    + simpl. by rewrite <-(assoc_L (++)).
    + simpl. rewrite fmap_app, not_elem_of_cons, not_elem_of_app. simpl.
      rewrite not_elem_of_cons. split_and!; [tauto|tauto|done|].
      apply not_elem_of_nil.
    + rewrite <-Hlen. unfold OrderedDict.len.
      rewrite length_app. simpl. rewrite length_app. simpl.
      assert (length (A ++ B) = S (length R)) as Hl by by rewrite HAB.
      rewrite length_app in Hl. lia.
  - done.
  - rewrite fmap_app. simpl. apply NoDup_app in Hnd1 as (HndR & HRk & _).
    apply NoDup_app. split_and!; [done| |].
    + intros y Hy [->|[->|[]%elem_of_nil]%elem_of_cons]%elem_of_cons.
      * by apply (HRk _ Hy); left.
      * tauto.
    + apply NoDup_cons. split; [|repeat constructor; apply not_elem_of_nil].
      rewrite not_elem_of_cons. split; [done|apply not_elem_of_nil].
  - set_solver.
  - intros ->. tauto.
  - rewrite fmap_fst_middle.
    assert (e ∈ (A ++ B).*1) as Hin by (rewrite HAB; by left).
    rewrite fmap_app in Hin. rewrite !elem_of_app, elem_of_cons in *. tauto.
  - rewrite fmap_app. simpl. rewrite not_elem_of_app, !not_elem_of_cons.
    rewrite not_elem_of_app in He. simpl in He.
    rewrite not_elem_of_cons in He.
    split_and!; [tauto|tauto|intros ->; tauto|apply not_elem_of_nil].
  - intros k'' Hk'' Hne.
    assert (k'' ∈ R.*1 ++ [k]) as Hin.
    { rewrite fmap_fst_middle in Hk''.
      assert (k'' = k ∨ k'' ∈ (A ++ B).*1) as [->|Hin].
      { rewrite fmap_app. rewrite !elem_of_app, elem_of_cons in *. tauto. }
      - set_solver.
      - rewrite HAB in Hin. simpl in Hin. set_solver. }
    split; [|by apply Hall].
    rewrite fmap_app. simpl. set_solver.
Qed.

(** C3 as stated fails at capacity 1: the [get] just before the evicting
    [put] hits key 1, and key 1 is evicted all the same. *)
Lemma lru_get_does_not_protect_single_entry :
  ∃ s, LRUCache.session 1 [Put 1 1; Get 1; Put 2 2; Get 1] =
         Ok ([None; Some 1; None; Some (-1)], s) ∧
       Dict.contains 1 (LRUCache.cache s) = false.
Proof. eexists. split; by vm_compute. Qed.

(** C3, amended.  In an LRUCache of capacity N >= 1, after N+1 puts of
    distinct keys, with no gets, the first key is gone and [get] on it
    misses, while each of the other N keys is stored and [get] returns its
    value.  When N >= 2 and the cache is full, a [get] that hits [k] just
    before the [put] of a new key protects [k]: the put evicts another key
    [e], the least recently touched of all, and [k] keeps its value. *)
Theorem lru_eviction_order N :
  1 ≤ N →
  (∀ item items,
     Z.of_nat (length items) = N → NoDup (item :: items).*1 →
     ∃ s, LRUCache.session N (puts (item :: items)) =
            Ok (replicate (S (length items)) None, s) ∧
          Dict.contains item.1 (LRUCache.cache s) = false ∧
          LRUCache.get item.1 s = Ok (-1, s) ∧
          ∀ k v, (k, v) ∈ items →
                 Dict.contains k (LRUCache.cache s) = true ∧
                 ∃ s', LRUCache.get k s = Ok (v, s')) ∧
  (2 ≤ N →
   ∀ ops rs s k k' v',
     LRUCache.session N ops = Ok (rs, s) → LRUCache.size s = N →
     Dict.contains k (LRUCache.cache s) = true →
     Dict.contains k' (LRUCache.cache s) = false →
     ∃ vk s1 s2 e,
       LRUCache.get k s = Ok (vk, s1) ∧
       LRUCache.put k' v' s1 = Ok s2 ∧
       Dict.contains k (LRUCache.cache s2) = true ∧
       (∃ s3, LRUCache.get k s2 = Ok (vk, s3)) ∧
       e ≠ k ∧
       Dict.contains e (LRUCache.cache s) = true ∧
       Dict.contains e (LRUCache.cache s2) = false ∧
       ∀ k'', Dict.contains k'' (LRUCache.cache s) = true → k'' ≠ e →
              Dict.contains k'' (LRUCache.cache s2) = true ∧
              older (ops ++ [Get k]) e k'').
Proof.
  intros HN. split.
  - intros item items Hlen Hnd.
    destruct (lru_session_refines N (puts (item :: items)) HN)
      as (rs & s & x & Hs & Hx & Href & _).
    assert (LRUCacheSimple.session N (puts (item :: items)) =
            Ok (replicate (S (length items)) None, LRUCacheSimple.mk N items))
      as Hsimple.
    { destruct items as [|[kl vl] init _] using rev_ind; [simpl in Hlen; lia|].
      rewrite length_app in Hlen |- *. simpl in Hlen.
      unfold LRUCacheSimple.session, LRUCacheSimple.init.
      change (puts (item :: init ++ [(kl, vl)]))
        with (puts ((item :: init) ++ [(kl, vl)])).
      cbn [mbind result_bind].
      rewrite (simple_puts_overflow N (item :: init) [] kl vl); [|done|done|].
      - cbn [length app tail]. do 3 f_equal. simpl. lia.
      - unfold OrderedDict.len. simpl. lia. }
    rewrite Hsimple in Hx. injection Hx as <- <-.
    rewrite fmap_cons in Hnd. apply NoDup_cons in Hnd as [Hitem Hnd].
    destruct (lru_get_absent s _ item.1 Href Hitem) as [Hc Hget].
    exists s. split_and!; [done..|].
    intros k v Hin. split; [|by eapply lru_get_elem].
    rewrite (refines_contains _ _ _ Href). apply od_contains_true.
    apply list_elem_of_fmap. by exists (k, v).
  - intros HN2 ops rs s k k' v' Hs Hfull Hk Hk'.
    destruct (lru_session_refines N ops HN)
      as (rs' & s0 & [c d] & Hs0 & _ & Href & Hinv & Hcx).
    assert (s0 = s) as -> by congruence. simpl in Hcx. subst c.
    rewrite (refines_size _ _ Href) in Hfull.
    unfold LRUCacheSimple.size in Hfull. simpl in Hfull.
    rewrite (refines_contains _ _ _ Href) in Hk.
    rewrite (refines_contains _ _ _ Href) in Hk'. simpl in Hk, Hk'.
    apply od_contains_true in Hk. apply od_contains_false in Hk'.
    destruct (simple_get_protects ops N d k k' v' Hinv HN2 Hfull Hk Hk')
      as (vk & e & d1 & d2 & Hg & Hp & Hinv1 & Hnd2 & Hin2 & Hek & Hed & Hed2
          & Hrest).
    destruct (get_refines k _ _ Href) as (v1 & s1 & x1 & Hg1 & Hgx & Href1 & _).
    rewrite Hg in Hgx. injection Hgx as <- <-.
    destruct (put_refines k' v' _ _ Href1) as (s2 & x2 & Hp2 & Hpx & Href2 & _).
    { simpl. lia. }
    { pose proof (simple_size _ _ Hinv1). simpl in *. lia. }
    rewrite Hp in Hpx. injection Hpx as <-.
    exists vk, s1, s2, e. split_and!; try done.
    + rewrite (refines_contains _ _ _ Href2). apply od_contains_true.
      apply list_elem_of_fmap. by exists (k, vk).
    + by eapply lru_get_elem.
    + rewrite (refines_contains _ _ _ Href). by apply od_contains_true.
    + rewrite (refines_contains _ _ _ Href2). by apply od_contains_false.
    + intros k'' Hk''. rewrite (refines_contains _ _ _ Href) in Hk''.
      apply od_contains_true in Hk''. intros Hne.
      destruct (Hrest _ Hk'' Hne) as [Hin Hold]. split; [|done].
      rewrite (refines_contains _ _ _ Href2). by apply od_contains_true.
Qed.

Lemma lru_eviction_order_witness :
  ∃ s, LRUCache.session 2 (puts [(1, 10); (2, 20); (3, 30)]) =
         Ok (replicate 3 None, s) ∧
       Dict.contains 1 (LRUCache.cache s) = false ∧
       LRUCache.get 1 s = Ok (-1, s) ∧
       ∀ k v, (k, v) ∈ [(2, 20); (3, 30)] →
              Dict.contains k (LRUCache.cache s) = true ∧
              ∃ s', LRUCache.get k s = Ok (v, s').
Proof.
  refine (proj1 (lru_eviction_order 2 _) (1, 10) [(2, 20); (3, 30)] _ _).
  - lia.
  - reflexivity.
  - apply (bool_decide_unpack _). by vm_compute.
Defined.

(** * Further properties of the three classes *)

(** ** Helper lemmas *)

Lemma lru_peek_refines s x k :
  refines s x → lru_peek k s = OrderedDict.lookup k (LRUCacheSimple.cache x).
Proof.
  intros (_ & es & Hrep & ->). unfold lru_peek.
  destruct (decide (k ∈ es.*2.*1)) as [Hin|Hni].
  - destruct (es_split _ _ (rep_keys _ _ Hrep) Hin)
      as (E1 & r & v & E2 & -> & HE1 & HE2).
    rewrite (rep_cache_Some _ _ _ _ _ _ Hrep). simpl.
    assert (payload <$> LRUCache.cells (LRUCache.mem s) !! r = Some (k, v))
      as Hpay.
    { apply (rep_payload _ _ Hrep). set_solver. }
    destruct (LRUCache.cells (LRUCache.mem s) !! r) as [n|]; [|done].
    injection Hpay as _ Hv. simpl. rewrite Hv.
    rewrite reverse_middle, od_lookup_middle; [done|]. by rewrite reverse_keys.
  - rewrite (rep_cache_None _ _ _ Hrep Hni). simpl. symmetry.
    apply od_lookup_None. by rewrite reverse_keys.
Qed.

(** Whatever the capacity, an LRUCache that a session ends in refines an
    LRUCacheSimple that satisfies the invariant of the same history. *)
Lemma lru_session_sim cap ops rs s :
  LRUCache.session cap ops = Ok (rs, s) →
  ∃ x, refines s x ∧ simple_inv ops x ∧ LRUCacheSimple.capacity x = cap.
Proof.
  intros Hs. destruct (decide (1 ≤ cap)) as [Hc|Hc].
  - destruct (lru_session_refines cap ops Hc)
      as (rs' & s0 & x & Hs0 & _ & Href & Hinv & Hcx).
    assert (s0 = s) as -> by congruence. by exists x.
  - destruct (lru_session_no_capacity cap ops rs s ltac:(lia) Hs)
      as [Hrep Hcs].
    exists (LRUCacheSimple.mk cap []). split_and!; [|split; simpl|done].
    + split; [done|]. by exists [].
    + constructor.
    + constructor.
    + unfold LRUCacheSimple.size, OrderedDict.len. simpl. lia.
Qed.

(** What [get] does to an LRUCacheSimple: it returns the value of the key,
    or -1, and leaves every value and the number of items as they are. *)
Lemma simple_get_cases c (d : list (Z * Z)) k :
  NoDup d.*1 →
  ∃ d', LRUCacheSimple.get k (LRUCacheSimple.mk c d) =
          Ok (default (-1) (OrderedDict.lookup k d), LRUCacheSimple.mk c d') ∧
        (∀ k', OrderedDict.lookup k' d' = OrderedDict.lookup k' d) ∧
        length d' = length d ∧
        (k ∉ d.*1 → d' = d).
Proof.
  intros Hnd. destruct (decide (k ∈ d.*1)) as [Hin|Hni].
  - destruct (od_split k d Hnd Hin) as (A & v & B & -> & HA & HB).
    exists (A ++ B ++ [(k, v)]). rewrite od_lookup_middle by done. simpl.
    split_and!.
    + by apply simple_get_hit.
    + intros k'. rewrite (assoc_L (++)).
      destruct (decide (k' = k)) as [->|Hne].
      * rewrite !od_lookup_middle; [done..|].
        rewrite fmap_app, not_elem_of_app. done.
      * rewrite !od_lookup_other by done. by rewrite (right_id_L [] (++)).
    + rewrite !length_app. simpl. lia.
    + intros Hk. destruct Hk. rewrite fmap_fst_middle. set_solver.
  - exists d. apply od_lookup_None in Hni as Hl. rewrite Hl. simpl.
    split_and!; [|done..]. by apply simple_get_miss.
Qed.

(** What [put] does to an LRUCacheSimple with room for at least one item. *)
Lemma simple_put_cases ops c (d : list (Z * Z)) k v :
  simple_inv ops (LRUCacheSimple.mk c d) → 1 ≤ c →
  ∃ d', LRUCacheSimple.put k v (LRUCacheSimple.mk c d) =
          Ok (LRUCacheSimple.mk c d') ∧
        OrderedDict.lookup k d' = Some v ∧
        (k ∈ d.*1 ∨ OrderedDict.len d < c →
         (∀ k', k' ≠ k → OrderedDict.lookup k' d' = OrderedDict.lookup k' d) ∧
         length d' = if decide (k ∈ d.*1) then length d else S (length d)) ∧
        (k ∉ d.*1 → c ≤ OrderedDict.len d →
         ∃ e ve R, d = (e, ve) :: R ∧ d' = R ++ [(k, v)] ∧ e ≠ k ∧
                   (e ∉ R.*1) ∧ (k ∉ R.*1) ∧
                   Forall (older ops e) R.*1).
Proof.
  intros [Hnd Hso Hsz] Hc. unfold LRUCacheSimple.size in Hsz. simpl in *.
  destruct (decide (k ∈ d.*1)) as [Hin|Hni].
  - destruct (od_split k d Hnd Hin) as (A & v0 & B & -> & HA & HB).
    exists (A ++ B ++ [(k, v)]).
    assert (k ∉ (A ++ B).*1) as HAB by (rewrite fmap_app, not_elem_of_app; done).
    split_and!.
    + apply simple_put_hit; [done..|lia].
    + rewrite (assoc_L (++)). by apply od_lookup_middle.
    + intros _. split.
      * intros k' Hne. rewrite (assoc_L (++)).
        rewrite !od_lookup_other by done. by rewrite (right_id_L [] (++)).
      * rewrite !length_app. simpl. lia.
    + intros Hk. destruct Hk. rewrite fmap_fst_middle. set_solver.
  - destruct (decide (OrderedDict.len d < c)) as [Hlt|Hge].
    + exists (d ++ [(k, v)]). split_and!.
      * by apply simple_put_new_room.
      * by apply od_lookup_middle.
      * intros _. split.
        -- intros k' Hne. rewrite od_lookup_other by done.
           by rewrite (right_id_L [] (++)).
        -- rewrite length_app. simpl. lia.
      * intros _ ?. lia.
    + destruct d as [|[e ve] R].
      { unfold OrderedDict.len in Hge. simpl in Hge. lia. }
      exists (R ++ [(k, v)]). simpl in Hnd, Hso, Hni.
      apply NoDup_cons in Hnd as [He Hnd].
      apply StronglySorted_cons in Hso as [Hall Hso].
      apply not_elem_of_cons in Hni as [Hke HkR].
      split_and!.
      * rewrite simple_put_new_full; [done| |lia].
        simpl. rewrite not_elem_of_cons. done.
      * by apply od_lookup_middle.
      * intros [Hk|Hlt]; [|lia]. simpl in Hk.
        apply elem_of_cons in Hk as [?|?]; done.
      * intros _ _. exists e, ve, R. split_and!; try done.
Qed.

Lemma simple_put_inv ops k v x x' :
  simple_inv ops x → LRUCacheSimple.put k v x = Ok x' →
  simple_inv (ops ++ [Put k v]) x'.
Proof.
  intros Hinv Hput.
  destruct (simple_step_inv ops (Put k v) x Hinv) as (r & x1 & Hstep & Hinv1 & _).
  simpl in Hstep. rewrite Hput in Hstep. by injection Hstep as <- <-.
Qed.

(** ** Reading back what was written *)

(** X1.  In a cache of capacity at least 1, whatever calls came before,
    [put(k, v)] returns and the [get(k)] that follows it returns [v]. *)
Theorem put_then_get cap ops k v :
  1 ≤ cap →
  (∀ rs s, LRUCache.session cap ops = Ok (rs, s) →
     ∃ s' s'', LRUCache.put k v s = Ok s' ∧ LRUCache.get k s' = Ok (v, s'')) ∧
  (∀ rs x, LRUCacheSimple.session cap ops = Ok (rs, x) →
     ∃ x' x'', LRUCacheSimple.put k v x = Ok x' ∧
               LRUCacheSimple.get k x' = Ok (v, x'')) ∧
  (∀ rs s, LFUCache.session cap ops = Ok (rs, s) →
     ∃ s' s'', LFUCache.put k v s = Ok s' ∧ LFUCache.get k s' = Ok (v, s'')).
Proof.
  intros Hc. split_and!.
  - intros rs s Hs.
    destruct (lru_session_sim cap ops rs s Hs) as (x & Href & Hinv & Hcx).
    pose proof (simple_size _ _ Hinv) as Hsz.
    destruct (put_refines k v s x Href) as (s' & x' & Hp & Hpx & Href' & _);
      [lia..|].
    destruct (simple_put_elem ops k v x Hinv) as (x1 & Hpx1 & Hin); [lia|].
    assert (x1 = x') as -> by congruence.
    pose proof (simple_nodup _ _ (simple_put_inv _ _ _ _ _ Hinv Hpx)) as Hnd.
    destruct (lru_get_elem s' x' k v Href' Hnd Hin) as [s'' Hg].
    by exists s', s''.
  - intros rs x Hx.
    destruct (simple_session_inv cap ops) as (rs' & x0 & Hx0 & Hinv & Hcx).
    assert (x0 = x) as -> by congruence.
    destruct (simple_put_elem ops k v x Hinv) as (x' & Hpx & Hin); [lia|].
    pose proof (simple_nodup _ _ (simple_put_inv _ _ _ _ _ Hinv Hpx)) as Hnd.
    destruct x' as [c' d'].
    destruct (simple_get_elem c' d' k v Hnd Hin) as [x'' Hg].
    by exists (LRUCacheSimple.mk c' d'), x''.
  - intros rs s Hs.
    destruct (lfu_session_inv cap ops) as (rs' & s0 & Hs0 & Hinv & Hcs).
    assert (s0 = s) as -> by congruence.
    destruct (lfu_put_spec ops k v s Hinv) as (s' & Hput & Hinv' & _).
    destruct (lfu_get_spec _ k s' Hinv') as (s'' & Hget & _).
    rewrite (lfu_put_lookup ops k v s s' Hinv ltac:(lia) Hput) in Hget.
    by exists s', s''.
Qed.

Lemma put_then_get_witness :
  ∃ s' s'', LFUCache.put 7 70 (LFUCache.mk 1 1 {[1 := 1]} {[1 := 1]}
                                 {[1 := [(1, ())]]}) = Ok s' ∧
            LFUCache.get 7 s' = Ok (70, s'').
Proof.
  refine (proj2 (proj2 (put_then_get 1 [Put 1 1] 7 70 _)) [None] _ _).
  - lia.
  - by vm_compute.
Defined.

(** X2.  [get] returns the value stored for the key, or -1 when there is
    none, and changes neither the stored values nor their number; on a miss
    it leaves the cache exactly as it was. *)
Theorem get_keeps_entries cap ops k :
  (∀ rs s, LRUCache.session cap ops = Ok (rs, s) →
     ∃ s', LRUCache.get k s = Ok (default (-1) (lru_peek k s), s') ∧
           (∀ k', lru_peek k' s' = lru_peek k' s) ∧
           LRUCache.size s' = LRUCache.size s ∧
           (lru_peek k s = None → s' = s)) ∧
  (∀ rs x, LRUCacheSimple.session cap ops = Ok (rs, x) →
     ∃ x', LRUCacheSimple.get k x =
             Ok (default (-1) (OrderedDict.lookup k (LRUCacheSimple.cache x)),
                 x') ∧
           (∀ k', OrderedDict.lookup k' (LRUCacheSimple.cache x') =
                  OrderedDict.lookup k' (LRUCacheSimple.cache x)) ∧
           LRUCacheSimple.size x' = LRUCacheSimple.size x ∧
           (OrderedDict.lookup k (LRUCacheSimple.cache x) = None → x' = x)) ∧
  (∀ rs s, LFUCache.session cap ops = Ok (rs, s) →
     ∃ s', LFUCache.get k s =
             Ok (default (-1) (LFUCache.key_to_val s !! k), s') ∧
           LFUCache.key_to_val s' = LFUCache.key_to_val s ∧
           (LFUCache.key_to_val s !! k = None → s' = s)).
Proof.
  split_and!.
  - intros rs s Hs.
    destruct (lru_session_sim cap ops rs s Hs) as ([c d] & Href & Hinv & Hcx).
    destruct (get_refines k _ _ Href) as (v & s' & x' & Hg & Hgx & Href' & _).
    destruct (simple_get_cases c d k (simple_nodup _ _ Hinv))
      as (d' & Hgd & Hlk & Hlen & Hmiss).
    rewrite Hgd in Hgx. injection Hgx as <- <-.
    exists s'. rewrite (lru_peek_refines _ _ _ Href). simpl.
    split_and!; [done| | |].
    + intros k'. rewrite (lru_peek_refines _ _ _ Href').
      rewrite (lru_peek_refines _ _ _ Href). apply Hlk.
    + rewrite (refines_size _ _ Href'), (refines_size _ _ Href).
      unfold LRUCacheSimple.size, OrderedDict.len. simpl. by rewrite Hlen.
    + intros Hnone%od_lookup_None.
      destruct (lru_get_absent s _ k Href Hnone) as [_ Hg']. congruence.
  - intros rs x Hx.
    destruct (simple_session_inv cap ops) as (rs' & x0 & Hx0 & Hinv & Hcx).
    assert (x0 = x) as -> by congruence. destruct x as [c d].
    destruct (simple_get_cases c d k (simple_nodup _ _ Hinv))
      as (d' & Hgd & Hlk & Hlen & Hmiss).
    exists (LRUCacheSimple.mk c d'). simpl. split_and!; [done|done| |].
    + unfold LRUCacheSimple.size, OrderedDict.len. simpl. by rewrite Hlen.
    + intros Hnone%od_lookup_None. by rewrite Hmiss.
  - intros rs s Hs.
    destruct (lfu_session_inv cap ops) as (rs' & s0 & Hs0 & Hinv & Hcs).
    assert (s0 = s) as -> by congruence.
    destruct (lfu_get_spec _ k s Hinv) as (s' & Hget & _ & Hv & _).
    exists s'. split_and!; [done..|].
    intros Hnone. unfold LFUCache.get, Dict.contains in Hget.
    rewrite Hnone in Hget. simpl in Hget. congruence.
Qed.

Lemma get_keeps_entries_witness :
  ∃ x', LRUCacheSimple.get 1 (LRUCacheSimple.mk 2 [(1, 10); (2, 20)]) =
          Ok (default (-1) (OrderedDict.lookup 1 [(1, 10); (2, 20)]), x') ∧
        (∀ k', OrderedDict.lookup k' (LRUCacheSimple.cache x') =
               OrderedDict.lookup k' [(1, 10); (2, 20)]) ∧
        LRUCacheSimple.size x' =
          LRUCacheSimple.size (LRUCacheSimple.mk 2 [(1, 10); (2, 20)]) ∧
        (OrderedDict.lookup 1 [(1, 10); (2, 20)] = None →
         x' = LRUCacheSimple.mk 2 [(1, 10); (2, 20)]).
Proof.
  refine (proj1 (proj2 (get_keeps_entries 2 [Put 1 10; Put 2 20] 1))
            [None; None] (LRUCacheSimple.mk 2 [(1, 10); (2, 20)]) _).
  by vm_compute.
Defined.

(** ** What [put] changes *)

(** X3.  In a cache of capacity at least 1, a [put] on a key that is stored,
    or made while there is room, evicts nothing: afterwards the key has the
    new value, every other key has the value it had, and the number of
    entries is the same (stored key) or one more (new key). *)
Theorem put_without_eviction cap ops k v :
  1 ≤ cap →
  (∀ rs s, LRUCache.session cap ops = Ok (rs, s) →
     is_Some (lru_peek k s) ∨ LRUCache.size s < cap →
     ∃ s', LRUCache.put k v s = Ok s' ∧ lru_peek k s' = Some v ∧
           (∀ k', k' ≠ k → lru_peek k' s' = lru_peek k' s) ∧
           (is_Some (lru_peek k s) → LRUCache.size s' = LRUCache.size s) ∧
           (lru_peek k s = None →
            LRUCache.size s' = LRUCache.size s + 1)) ∧
  (∀ rs x, LRUCacheSimple.session cap ops = Ok (rs, x) →
     is_Some (OrderedDict.lookup k (LRUCacheSimple.cache x)) ∨
       LRUCacheSimple.size x < cap →
     ∃ x', LRUCacheSimple.put k v x = Ok x' ∧
           OrderedDict.lookup k (LRUCacheSimple.cache x') = Some v ∧
           (∀ k', k' ≠ k →
              OrderedDict.lookup k' (LRUCacheSimple.cache x') =
              OrderedDict.lookup k' (LRUCacheSimple.cache x)) ∧
           (is_Some (OrderedDict.lookup k (LRUCacheSimple.cache x)) →
            LRUCacheSimple.size x' = LRUCacheSimple.size x) ∧
           (OrderedDict.lookup k (LRUCacheSimple.cache x) = None →
            LRUCacheSimple.size x' = LRUCacheSimple.size x + 1)) ∧
  (∀ rs s, LFUCache.session cap ops = Ok (rs, s) →
     is_Some (LFUCache.key_to_val s !! k) ∨ LFUCache.size s < cap →
     ∃ s', LFUCache.put k v s = Ok s' ∧
           LFUCache.key_to_val s' = <[k := v]> (LFUCache.key_to_val s)).
Proof.
  intros Hc.
  assert (∀ c (d : list (Z * Z)),
    simple_inv ops (LRUCacheSimple.mk c d) → c = cap →
    is_Some (OrderedDict.lookup k d) ∨ OrderedDict.len d < cap →
    ∃ d', LRUCacheSimple.put k v (LRUCacheSimple.mk c d) =
            Ok (LRUCacheSimple.mk c d') ∧
          OrderedDict.lookup k d' = Some v ∧
          (∀ k', k' ≠ k → OrderedDict.lookup k' d' = OrderedDict.lookup k' d) ∧
          (is_Some (OrderedDict.lookup k d) →
           OrderedDict.len d' = OrderedDict.len d) ∧
          (OrderedDict.lookup k d = None →
           OrderedDict.len d' = OrderedDict.len d + 1)) as Hsimple.
  { intros c d Hinv -> Hcase.
    destruct (simple_put_cases ops cap d k v Hinv Hc)
      as (d' & Hput & Hk & Hkeep & _).
    rewrite od_lookup_is_Some in Hcase. destruct (Hkeep Hcase) as [Hother Hlen].
    exists d'. split_and!; [done..| |].
    - intros Hin%od_lookup_is_Some. rewrite decide_True in Hlen by done.
      unfold OrderedDict.len. by rewrite Hlen.
    - intros Hni%od_lookup_None. rewrite decide_False in Hlen by done.
      unfold OrderedDict.len. rewrite Hlen. lia. }
  split_and!.
  - intros rs s Hs Hcase.
    destruct (lru_session_sim cap ops rs s Hs) as ([c d] & Href & Hinv & Hcx).
    simpl in Hcx. rewrite (lru_peek_refines _ _ _ Href) in Hcase.
    rewrite (refines_size _ _ Href) in Hcase. simpl in Hcase.
    destruct (Hsimple c d Hinv Hcx Hcase)
      as (d' & Hput & Hk & Hother & Hsame & Hmore).
    pose proof (simple_size _ _ Hinv) as Hsz.
    destruct (put_refines k v s _ Href) as (s' & x' & Hp & Hpx & Href' & _);
      [simpl in *; lia..|].
    rewrite Hput in Hpx. injection Hpx as <-.
    exists s'. rewrite !(lru_peek_refines _ _ _ Href').
    rewrite (refines_size _ _ Href'), (refines_size _ _ Href).
    rewrite (lru_peek_refines _ _ _ Href). simpl.
    split_and!; [done..| | |]; try done.
    intros k' Hne. rewrite (lru_peek_refines _ _ _ Href').
    rewrite (lru_peek_refines _ _ _ Href). by apply Hother.
  - intros rs x Hx Hcase.
    destruct (simple_session_inv cap ops) as (rs' & x0 & Hx0 & Hinv & Hcx).
    assert (x0 = x) as -> by congruence. destruct x as [c d]. simpl in *.
    destruct (Hsimple c d Hinv Hcx Hcase)
      as (d' & Hput & Hk & Hother & Hsame & Hmore).
    by exists (LRUCacheSimple.mk c d').
  - intros rs s Hs Hcase.
    destruct (lfu_session_inv cap ops) as (rs' & s0 & Hs0 & Hinv & Hcs).
    assert (s0 = s) as -> by congruence.
    destruct (lfu_put_spec ops k v s Hinv) as (s' & Hput & _ & _ & _ & Hins & _).
    exists s'. split; [done|]. apply Hins; [lia|].
    destruct Hcase; [by left|right; lia].
Qed.

Lemma put_without_eviction_witness :
  ∃ s', LFUCache.put 1 11 (LFUCache.mk 1 1 {[1 := 1]} {[1 := 1]}
                              {[1 := [(1, ())]]}) = Ok s' ∧
        LFUCache.key_to_val s' = <[1 := 11]> {[1 := 1]}.
Proof.
  refine (proj2 (proj2 (put_without_eviction 1 [Put 1 1] 1 11 _)) [None]
            (LFUCache.mk 1 1 {[1 := 1]} {[1 := 1]} {[1 := [(1, ())]]}) _ _).
  - lia.
  - by vm_compute.
  - left. vm_compute. by eexists.
Defined.

(** X4.  In a full LRU cache of capacity at least 1, the [put] of a key
    that is not stored evicts exactly one key: the least recently touched of
    the stored keys.  The new key gets its value, every other key keeps its
    value, and the number of entries stays the same. *)
Theorem lru_put_evicts_least_recent cap ops k v :
  1 ≤ cap →
  (∀ rs s, LRUCache.session cap ops = Ok (rs, s) →
     LRUCache.size s = cap → lru_peek k s = None →
     ∃ e s', LRUCache.put k v s = Ok s' ∧ e ≠ k ∧
             is_Some (lru_peek e s) ∧ lru_peek e s' = None ∧
             lru_peek k s' = Some v ∧
             (∀ k', k' ≠ e → k' ≠ k → lru_peek k' s' = lru_peek k' s) ∧
             (∀ k', k' ≠ e → is_Some (lru_peek k' s) → older ops e k') ∧
             LRUCache.size s' = LRUCache.size s) ∧
  (∀ rs x, LRUCacheSimple.session cap ops = Ok (rs, x) →
     LRUCacheSimple.size x = cap →
     OrderedDict.lookup k (LRUCacheSimple.cache x) = None →
     ∃ e x', LRUCacheSimple.put k v x = Ok x' ∧ e ≠ k ∧
             is_Some (OrderedDict.lookup e (LRUCacheSimple.cache x)) ∧
             OrderedDict.lookup e (LRUCacheSimple.cache x') = None ∧
             OrderedDict.lookup k (LRUCacheSimple.cache x') = Some v ∧
             (∀ k', k' ≠ e → k' ≠ k →
                OrderedDict.lookup k' (LRUCacheSimple.cache x') =
                OrderedDict.lookup k' (LRUCacheSimple.cache x)) ∧
             (∀ k', k' ≠ e →
                is_Some (OrderedDict.lookup k' (LRUCacheSimple.cache x)) →
                older ops e k') ∧
             LRUCacheSimple.size x' = LRUCacheSimple.size x).
Proof.
  intros Hc.
  assert (∀ c (d : list (Z * Z)),
    simple_inv ops (LRUCacheSimple.mk c d) → c = cap →
    OrderedDict.len d = cap → OrderedDict.lookup k d = None →
    ∃ e d', LRUCacheSimple.put k v (LRUCacheSimple.mk c d) =
              Ok (LRUCacheSimple.mk c d') ∧ e ≠ k ∧
            is_Some (OrderedDict.lookup e d) ∧
            OrderedDict.lookup e d' = None ∧
            OrderedDict.lookup k d' = Some v ∧
            (∀ k', k' ≠ e → k' ≠ k →
               OrderedDict.lookup k' d' = OrderedDict.lookup k' d) ∧
            (∀ k', k' ≠ e → is_Some (OrderedDict.lookup k' d) →
               older ops e k') ∧
            OrderedDict.len d' = OrderedDict.len d) as Hsimple.
  { intros c d Hinv -> Hfull Hnone%od_lookup_None.
    destruct (simple_put_cases ops cap d k v Hinv Hc)
      as (d' & Hput & Hk & _ & Hev).
    destruct (Hev Hnone ltac:(lia)) as (e & ve & R & -> & -> & Hek & HeR & HkR & Hall).
    exists e, (R ++ [(k, v)]). split_and!; [done..| | | | | |]; try done.
    - simpl. rewrite decide_True by done. by eexists.
    - apply od_lookup_None. rewrite fmap_app, not_elem_of_app. simpl.
      rewrite not_elem_of_cons. split_and!; [done..|apply not_elem_of_nil].
    - intros k' Hne Hnk. rewrite od_lookup_other by done.
      rewrite (right_id_L [] (++)). simpl. by rewrite decide_False.
    - intros k' Hne Hin. simpl in Hin. rewrite decide_False in Hin by done.
      apply od_lookup_is_Some in Hin.
      by apply (proj1 (Forall_forall _ _) Hall).
    - unfold OrderedDict.len. rewrite length_app. simpl. lia. }
  split.
  - intros rs s Hs Hfull Hnone.
    destruct (lru_session_sim cap ops rs s Hs) as ([c d] & Href & Hinv & Hcx).
    simpl in Hcx. rewrite (lru_peek_refines _ _ _ Href) in Hnone.
    rewrite (refines_size _ _ Href) in Hfull. simpl in Hfull, Hnone.
    destruct (Hsimple c d Hinv Hcx Hfull Hnone)
      as (e & d' & Hput & Hek & Hes & Hes' & Hk & Hother & Hold & Hlen).
    destruct (put_refines k v s _ Href) as (s' & x' & Hp & Hpx & Href' & _);
      [unfold LRUCacheSimple.size in *; simpl in *; lia..|].
    rewrite Hput in Hpx. injection Hpx as <-.
    exists e, s'. rewrite !(lru_peek_refines _ _ _ Href').
    rewrite (refines_size _ _ Href'), (refines_size _ _ Href).
    rewrite (lru_peek_refines _ _ _ Href). simpl.
    split_and!; try done.
    + intros k' Hne Hnk. rewrite (lru_peek_refines _ _ _ Href').
      rewrite (lru_peek_refines _ _ _ Href). by apply Hother.
    + intros k' Hne. rewrite (lru_peek_refines _ _ _ Href). by apply Hold.
  - intros rs x Hx Hfull Hnone.
    destruct (simple_session_inv cap ops) as (rs' & x0 & Hx0 & Hinv & Hcx).
    assert (x0 = x) as -> by congruence. destruct x as [c d]. simpl in *.
    destruct (Hsimple c d Hinv Hcx Hfull Hnone) as (e & d' & ?).
    by exists e, (LRUCacheSimple.mk c d').
Qed.

Lemma lru_put_evicts_least_recent_witness :
  ∃ e x', LRUCacheSimple.put 3 30 (LRUCacheSimple.mk 2 [(2, 20); (1, 10)]) =
            Ok x' ∧ e ≠ 3 ∧
          is_Some (OrderedDict.lookup e [(2, 20); (1, 10)]) ∧
          OrderedDict.lookup e (LRUCacheSimple.cache x') = None ∧
          OrderedDict.lookup 3 (LRUCacheSimple.cache x') = Some 30 ∧
          (∀ k', k' ≠ e → k' ≠ 3 →
             OrderedDict.lookup k' (LRUCacheSimple.cache x') =
             OrderedDict.lookup k' [(2, 20); (1, 10)]) ∧
          (∀ k', k' ≠ e →
             is_Some (OrderedDict.lookup k' [(2, 20); (1, 10)]) →
             older [Put 1 10; Put 2 20; Get 1] e k') ∧
          LRUCacheSimple.size x' =
            LRUCacheSimple.size (LRUCacheSimple.mk 2 [(2, 20); (1, 10)]).
Proof.
  refine (proj2 (lru_put_evicts_least_recent 2 [Put 1 10; Put 2 20; Get 1]
                   3 30 _) [None; None; Some 10]
            (LRUCacheSimple.mk 2 [(2, 20); (1, 10)]) _ _ _).
  - lia.
  - by vm_compute.
  - by vm_compute.
  - by vm_compute.
Defined.

(** ** Caches without capacity *)

(** X5.  An LFUCache whose capacity is 0 or negative never stores anything
    and never raises: every [put] is skipped, every [get] returns -1, and
    the cache stays as it was constructed. *)
Theorem lfu_without_capacity_stores_nothing cap ops :
  cap ≤ 0 →
  LFUCache.session cap ops =
  Ok (miss_results ops, LFUCache.mk cap 0 ∅ ∅ ∅).
Proof.
  intros Hc. unfold LFUCache.session, LFUCache.init. cbn [mbind result_bind].
  induction ops as [|o ops IH]; [done|].
  cbn [LFUCache.run]. destruct o as [k|k v]; simpl.
  - unfold LFUCache.get, Dict.contains. simpl. rewrite lookup_empty. simpl.
    by rewrite IH.
  - unfold LFUCache.put. simpl. rewrite decide_True by done. simpl.
    by rewrite IH.
Qed.

Lemma lfu_without_capacity_stores_nothing_witness :
  LFUCache.session (-3) [Put 1 1; Get 1; Put 1 2; Get 2] =
  Ok (miss_results [Put 1 1; Get 1; Put 1 2; Get 2],
      LFUCache.mk (-3) 0 ∅ ∅ ∅).
Proof. apply (lfu_without_capacity_stores_nothing (-3)). lia. Defined.

(** X6.  An LRUCacheSimple whose capacity is 0 or negative never raises and
    is empty after every call: [put] inserts the item and pops it again at
    once, and every [get] returns -1. *)
Theorem simple_without_capacity_stores_nothing cap ops :
  cap ≤ 0 →
  LRUCacheSimple.session cap ops =
  Ok (miss_results ops, LRUCacheSimple.mk cap []).
Proof.
  intros Hc. unfold LRUCacheSimple.session, LRUCacheSimple.init.
  cbn [mbind result_bind].
  induction ops as [|o ops IH]; [done|].
  cbn [LRUCacheSimple.run]. destruct o as [k|k v]; simpl.
  - by rewrite IH.
  - unfold LRUCacheSimple.put. simpl.
    rewrite decide_True by (unfold OrderedDict.len; simpl; lia). simpl.
    by rewrite IH.
Qed.

Lemma simple_without_capacity_stores_nothing_witness :
  LRUCacheSimple.session 0 [Put 1 1; Get 1; Put 2 2] =
  Ok (miss_results [Put 1 1; Get 1; Put 2 2], LRUCacheSimple.mk 0 []).
Proof. apply (simple_without_capacity_stores_nothing 0). lia. Defined.

(** ** Invariants of the data structures *)

(** X7.  After every session that returns, the linked list and the hash map
    of an LRUCache are in step: the nodes between the two sentinels are
    linked both ways without a repeated node, [head] has no predecessor and
    [tail] no successor, each node carries one key of the hash map and the
    hash map sends that key to that node, no key occurs twice, and from
    [head] to [tail] the keys run from the most to the least recently
    touched. *)
Theorem lru_list_and_map_in_step cap ops rs s :
  LRUCache.session cap ops = Ok (rs, s) →
  ∃ es, rep s es ∧
        StronglySorted (older ops) (reverse es.*2.*1) ∧
        LRUCache.size s = Z.of_nat (length es) ∧
        LRUCache.capacity s = cap.
Proof.
  intros Hs.
  destruct (lru_session_sim cap ops rs s Hs) as (x & Href & Hinv & Hcx).
  pose proof (simple_sorted _ _ Hinv) as Hso.
  destruct Href as (Hcap & es & Hrep & Hd).
  exists es. split_and!; [done| | |congruence].
  - by rewrite Hd, fmap_reverse in Hso.
  - unfold LRUCache.size, Dict.len. by rewrite (rep_size _ _ Hrep).
Qed.

Lemma lru_list_and_map_in_step_witness :
  ∃ s, LRUCache.session 2 [Put 1 10; Put 2 20; Get 1; Put 3 30] =
       Ok ([None; None; Some 10; None], s) ∧
       LRUCache.cache s = {[1 := 2%nat; 3 := 4%nat]} ∧
       ∃ es, length es = 2%nat ∧
             rep s es ∧
             StronglySorted (older [Put 1 10; Put 2 20; Get 1; Put 3 30])
               (reverse es.*2.*1) ∧
             LRUCache.size s = Z.of_nat (length es) ∧
             LRUCache.capacity s = 2.
Proof.
  eexists. split; [by vm_compute|]. split; [by vm_compute|].
  destruct (lru_list_and_map_in_step 2 [Put 1 10; Put 2 20; Get 1; Put 3 30]
              [None; None; Some 10; None] _ ltac:(by vm_compute))
    as (es & Hrep & Hso & Hsz & Hcap).
  exists es. split_and!; [|done..].
  apply Nat2Z.inj. rewrite <-Hsz. by vm_compute.
Defined.

(** X8.  After every session the OrderedDict of an LRUCacheSimple holds
    each key once, ordered from the least to the most recently touched key,
    so that its first item is the one [popitem(last=False)] must evict. *)
Theorem simple_order_is_recency cap ops :
  ∃ rs x, LRUCacheSimple.session cap ops = Ok (rs, x) ∧
          NoDup (LRUCacheSimple.cache x).*1 ∧
          StronglySorted (older ops) (LRUCacheSimple.cache x).*1 ∧
          LRUCacheSimple.capacity x = cap.
Proof.
  destruct (simple_session_inv cap ops) as (rs & x & Hx & Hinv & Hc).
  exists rs, x. split_and!; [done| | |done].
  - apply (simple_nodup _ _ Hinv).
  - apply (simple_sorted _ _ Hinv).
Qed.

(** X9.  After every session on an LFUCache that holds at least one key,
    [min_freq] is the frequency of a stored key and no stored key has a
    smaller frequency. *)
Theorem lfu_min_freq_is_least cap ops rs s :
  LFUCache.session cap ops = Ok (rs, s) →
  LFUCache.key_to_val s ≠ ∅ →
  (∃ k, is_Some (LFUCache.key_to_val s !! k) ∧
        LFUCache.key_to_freq s !! k = Some (LFUCache.min_freq s)) ∧
  (∀ k f, LFUCache.key_to_freq s !! k = Some f → LFUCache.min_freq s ≤ f).
Proof.
  intros Hs Hne.
  destruct (lfu_session_inv cap ops) as (rs' & s0 & Hs0 & Hinv & Hcs).
  assert (s0 = s) as -> by congruence.
  destruct (lfu_min _ _ Hinv Hne) as [[k Hk] Hlb]. split; [|done].
  exists k. split; [|done].
  apply (lfu_dom _ _ (lfu_core_inv _ _ Hinv)). by eexists.
Qed.

Lemma lfu_min_freq_is_least_witness :
  (∃ k, is_Some (({[1 := 1; 2 := 2]} : gmap Z Z) !! k) ∧
        ({[1 := 2; 2 := 1]} : gmap Z Z) !! k = Some 1) ∧
  (∀ k f, ({[1 := 2; 2 := 1]} : gmap Z Z) !! k = Some f → 1 ≤ f).
Proof.
  refine (lfu_min_freq_is_least 2 [Put 1 1; Put 2 2; Get 1]
           [None; None; Some 1]
           (LFUCache.mk 2 1 {[1 := 1; 2 := 2]} {[1 := 2; 2 := 1]}
              {[1 := [(2, ())]; 2 := [(1, ())]]}) _ _).
  - by vm_compute.
  - apply (bool_decide_unpack _). by vm_compute.
Defined.

(** X10.  After every session the three dictionaries of an LFUCache agree:
    [key_to_val] and [key_to_freq] have the same keys, every frequency is
    at least 1, a bucket holds no key twice, every key of a bucket is a
    stored key, and no key is in two buckets. *)
Theorem lfu_dictionaries_agree cap ops rs s :
  LFUCache.session cap ops = Ok (rs, s) →
  (∀ k, is_Some (LFUCache.key_to_val s !! k) ↔
        is_Some (LFUCache.key_to_freq s !! k)) ∧
  (∀ k f, LFUCache.key_to_freq s !! k = Some f → 1 ≤ f) ∧
  (∀ f b, LFUCache.freq_to_keys s !! f = Some b → NoDup b.*1) ∧
  (∀ f b k, LFUCache.freq_to_keys s !! f = Some b → k ∈ b.*1 →
            is_Some (LFUCache.key_to_val s !! k)) ∧
  (∀ f f' b b' k, LFUCache.freq_to_keys s !! f = Some b → k ∈ b.*1 →
                  LFUCache.freq_to_keys s !! f' = Some b' → k ∈ b'.*1 →
                  f = f').
Proof.
  intros Hs.
  destruct (lfu_session_inv cap ops) as (rs' & s0 & Hs0 & Hinv & Hcs).
  assert (s0 = s) as -> by congruence.
  pose proof (lfu_core_inv _ _ Hinv) as [Hdom Hin Hbf Hnd Hso Hpos].
  split_and!; [done..| |].
  - intros f b k Hb Hk. apply Hdom. exists f. by eapply Hbf.
  - intros f f' b b' k Hb Hk Hb' Hk'.
    pose proof (Hbf _ _ _ Hb Hk). pose proof (Hbf _ _ _ Hb' Hk'). congruence.
Qed.

Lemma lfu_dictionaries_agree_witness :
  (∀ k, is_Some (({[1 := 1]} : gmap Z Z) !! k) ↔
        is_Some (({[1 := 2]} : gmap Z Z) !! k)) ∧
  (∀ k f, ({[1 := 2]} : gmap Z Z) !! k = Some f → 1 ≤ f) ∧
  (∀ f b, ({[1 := []; 2 := [(1, ())]]} : gmap Z (list (Z * unit))) !! f
          = Some b → NoDup b.*1) ∧
  (∀ f b k, ({[1 := []; 2 := [(1, ())]]} : gmap Z (list (Z * unit))) !! f
            = Some b → k ∈ b.*1 →
            is_Some (({[1 := 1]} : gmap Z Z) !! k)) ∧
  (∀ f f' b b' k,
     ({[1 := []; 2 := [(1, ())]]} : gmap Z (list (Z * unit))) !! f = Some b →
     k ∈ b.*1 →
     ({[1 := []; 2 := [(1, ())]]} : gmap Z (list (Z * unit))) !! f' = Some b' →
     k ∈ b'.*1 → f = f').
Proof.
  refine (lfu_dictionaries_agree 2 [Put 1 1; Get 1] [None; Some 1]
           (LFUCache.mk 2 2 {[1 := 1]} {[1 := 2]}
              {[1 := []; 2 := [(1, ())]]}) _).
  by vm_compute.
Defined.

(** ** Frequencies in LFUCache *)

Lemma update_freq_exact ops k f s :
  lfu_inv ops s → LFUCache.key_to_freq s !! k = Some f →
  ∃ s', LFUCache._update_freq k s = Ok s' ∧
        LFUCache.key_to_freq s' = <[k := f + 1]> (LFUCache.key_to_freq s) ∧
        LFUCache.key_to_val s' = LFUCache.key_to_val s.
Proof.
  intros Hinv Hf. pose proof (lfu_core_inv _ _ Hinv) as Hcore.
  destruct (lfu_in_bucket _ _ Hcore _ _ Hf) as (b & Hb & Hkb).
  destruct (bucket_split b k Hkb (lfu_bucket_nodup _ _ Hcore _ _ Hb))
    as (A & B & -> & HAB).
  rewrite fmap_app, not_elem_of_app in HAB.
  eexists. split; [apply (update_freq_spec k s f A B); [done|done|tauto|]|done].
  destruct (LFUCache.freq_to_keys s !! (f + 1)) as [b1|] eqn:Hb1; simpl.
  - intros Hc. pose proof (lfu_bucket_freq _ _ Hcore _ _ _ Hb1 Hc) as Hf'.
    rewrite Hf in Hf'. injection Hf'. lia.
  - apply not_elem_of_nil.
Qed.

(** X11.  A hit counts: when a stored key has frequency [f], a [get] on it,
    and likewise a [put] on it, raises its frequency to [f + 1] and changes
    no other frequency; the [get] changes no value and the [put] changes the
    value of that key only. *)
Theorem lfu_hit_increments_frequency cap ops rs s k f :
  LFUCache.session cap ops = Ok (rs, s) →
  LFUCache.key_to_freq s !! k = Some f →
  (∃ s', LFUCache.get k s =
           Ok (default (-1) (LFUCache.key_to_val s !! k), s') ∧
         LFUCache.key_to_freq s' = <[k := f + 1]> (LFUCache.key_to_freq s) ∧
         LFUCache.key_to_val s' = LFUCache.key_to_val s) ∧
  (∀ v, ∃ s', LFUCache.put k v s = Ok s' ∧
              LFUCache.key_to_freq s' =
                <[k := f + 1]> (LFUCache.key_to_freq s) ∧
              LFUCache.key_to_val s' = <[k := v]> (LFUCache.key_to_val s)).
Proof.
  intros Hs Hf.
  destruct (lfu_session_inv cap ops) as (rs' & s0 & Hs0 & Hinv & Hcs).
  assert (s0 = s) as -> by congruence.
  assert (is_Some (LFUCache.key_to_val s !! k)) as [v0 Hv0].
  { apply (lfu_dom _ _ (lfu_core_inv _ _ Hinv)). by eexists. }
  split.
  - destruct (update_freq_exact ops k f s Hinv Hf) as (s' & Hup & Hf' & Hv').
    exists s'. split_and!; [|done..].
    unfold LFUCache.get, Dict.contains, Dict.getitem. rewrite Hv0. simpl.
    rewrite Hup. simpl. by rewrite Hv', Hv0.
  - intros v.
    assert (1 ≤ LFUCache.capacity s) as Hc.
    { pose proof (lfu_size _ _ Hinv) as Hsz.
      unfold LFUCache.size, Dict.len in Hsz.
      assert (base.size (LFUCache.key_to_val s) ≠ 0%nat); [|lia].
      intros Hemp%map_size_empty_inv. by rewrite Hemp, lookup_empty in Hv0. }
    pose proof (lfu_inv_set_value ops s k v Hinv ltac:(by eexists)) as Hinv1.
    destruct (update_freq_exact ops k f _ Hinv1 Hf) as (s' & Hup & Hf' & Hv').
    exists s'. split_and!; [|done..].
    unfold LFUCache.put, Dict.contains. rewrite decide_False by lia.
    by rewrite Hv0.
Qed.

Lemma lfu_hit_increments_frequency_witness :
  (∃ s', LFUCache.get 1 (LFUCache.mk 2 1 {[1 := 10]} {[1 := 1]}
                            {[1 := [(1, ())]]}) =
           Ok (default (-1) (({[1 := 10]} : gmap Z Z) !! 1), s') ∧
         LFUCache.key_to_freq s' = <[1 := 1 + 1]> {[1 := 1]} ∧
         LFUCache.key_to_val s' = {[1 := 10]}) ∧
  (∀ v, ∃ s', LFUCache.put 1 v (LFUCache.mk 2 1 {[1 := 10]} {[1 := 1]}
                                  {[1 := [(1, ())]]}) = Ok s' ∧
              LFUCache.key_to_freq s' = <[1 := 1 + 1]> {[1 := 1]} ∧
              LFUCache.key_to_val s' = <[1 := v]> {[1 := 10]}).
Proof.
  refine (lfu_hit_increments_frequency 2 [Put 1 10] [None]
            (LFUCache.mk 2 1 {[1 := 10]} {[1 := 1]} {[1 := [(1, ())]]})
            1 1 _ _).
  - by vm_compute.
  - by vm_compute.
Defined.

(** X12.  In an LFUCache of capacity at least 1, the [put] of a key that is
    not stored gives that key frequency 1 and sets [min_freq] to 1; every
    other key that is stored afterwards keeps its frequency and its
    value. *)
Theorem lfu_new_key_starts_at_one cap ops rs s k v :
  1 ≤ cap →
  LFUCache.session cap ops = Ok (rs, s) →
  LFUCache.key_to_val s !! k = None →
  ∃ s', LFUCache.put k v s = Ok s' ∧
        LFUCache.key_to_val s' !! k = Some v ∧
        LFUCache.key_to_freq s' !! k = Some 1 ∧
        LFUCache.min_freq s' = 1 ∧
        (∀ k', k' ≠ k → is_Some (LFUCache.key_to_val s' !! k') →
               LFUCache.key_to_freq s' !! k' = LFUCache.key_to_freq s !! k' ∧
               LFUCache.key_to_val s' !! k' = LFUCache.key_to_val s !! k').
Proof.
  intros Hc Hs Hk.
  destruct (lfu_session_inv cap ops) as (rs' & s0 & Hs0 & Hinv & Hcs).
  assert (s0 = s) as -> by congruence.
  destruct (lfu_put_spec ops k v s Hinv) as (s' & Hput & _).
  exists s'. split; [done|].
  unfold LFUCache.put, Dict.contains in Hput.
  rewrite decide_False in Hput by lia. rewrite Hk in Hput.
  apply bind_Ok in Hput as (s1 & Hev & (d' & _ & [= <-])%bind_Ok). simpl.
  rewrite !lookup_insert_eq. split_and!; [done..|].
  intros k' Hne. rewrite !lookup_insert_ne by done. intros Hsome.
  case_decide; [|by injection Hev as <-].
  apply bind_Ok in Hev as (b & _ & ([[e []] bm] & _ &
    (k2v & Hdv & (k2f & Hdf & [= <-])%bind_Ok)%bind_Ok)%bind_Ok).
  simpl in *. unfold Dict.delitem in Hdv, Hdf.
  destruct (LFUCache.key_to_val s !! e); [|done].
  destruct (LFUCache.key_to_freq s !! e); [|done].
  injection Hdv as <-. injection Hdf as <-.
  destruct (decide (k' = e)) as [->|Hne'].
  - rewrite lookup_delete_eq in Hsome. by destruct Hsome.
  - by rewrite !lookup_delete_ne.
Qed.

Lemma lfu_new_key_starts_at_one_witness :
  ∃ s', LFUCache.put 2 20 (LFUCache.mk 1 1 {[1 := 10]} {[1 := 1]}
                              {[1 := [(1, ())]]}) = Ok s' ∧
        LFUCache.key_to_val s' !! 2 = Some 20 ∧
        LFUCache.key_to_freq s' !! 2 = Some 1 ∧
        LFUCache.min_freq s' = 1 ∧
        (∀ k', k' ≠ 2 → is_Some (LFUCache.key_to_val s' !! k') →
               LFUCache.key_to_freq s' !! k' =
                 ({[1 := 1]} : gmap Z Z) !! k' ∧
               LFUCache.key_to_val s' !! k' =
                 ({[1 := 10]} : gmap Z Z) !! k').
Proof.
  refine (lfu_new_key_starts_at_one 1 [Put 1 10] [None]
            (LFUCache.mk 1 1 {[1 := 10]} {[1 := 1]} {[1 := [(1, ())]]})
            2 20 _ _ _).
  - lia.
  - by vm_compute.
  - by vm_compute.
Defined.

(** ** Capacity 1 *)

(** X13.  A cache of capacity 1 holds exactly the key of the last [put]:
    whatever calls came before, after [put(k, v)] the key [k] has value [v]
    and no other key is stored. *)
Theorem capacity_one_holds_last_put ops k v :
  (∀ rs s, LRUCache.session 1 ops = Ok (rs, s) →
     ∃ s', LRUCache.put k v s = Ok s' ∧
           ∀ k', lru_peek k' s' = if decide (k' = k) then Some v else None) ∧
  (∀ rs x, LRUCacheSimple.session 1 ops = Ok (rs, x) →
     LRUCacheSimple.put k v x = Ok (LRUCacheSimple.mk 1 [(k, v)])) ∧
  (∀ rs s, LFUCache.session 1 ops = Ok (rs, s) →
     ∃ s', LFUCache.put k v s = Ok s' ∧
           LFUCache.key_to_val s' = {[k := v]}).
Proof.
  assert (∀ x, simple_inv ops x → LRUCacheSimple.capacity x = 1 →
               LRUCacheSimple.put k v x = Ok (LRUCacheSimple.mk 1 [(k, v)]))
    as Hsimple.
  { intros x Hinv Hcx.
    destruct (simple_put_elem ops k v x Hinv) as (x' & Hput & Hin); [lia|].
    destruct (simple_step_inv ops (Put k v) x Hinv)
      as (r & x1 & Hstep & Hinv1 & Hc1).
    simpl in Hstep. rewrite Hput in Hstep. injection Hstep as <- <-.
    pose proof (simple_size _ _ Hinv1) as Hsz.
    unfold LRUCacheSimple.size, OrderedDict.len in Hsz.
    destruct x' as [c' d']. simpl in *. rewrite Hput. do 2 f_equal; [lia|].
    destruct d' as [|i [|j d']]; simpl in Hsz; [by apply elem_of_nil in Hin| |lia].
    by apply list_elem_of_singleton in Hin as <-. }
  split_and!.
  - intros rs s Hs.
    destruct (lru_session_sim 1 ops rs s Hs) as (x & Href & Hinv & Hcx).
    pose proof (simple_size _ _ Hinv) as Hsz.
    destruct (put_refines k v s x Href) as (s' & x' & Hp & Hpx & Href' & _);
      [lia..|].
    rewrite (Hsimple x Hinv Hcx) in Hpx. injection Hpx as <-.
    exists s'. split; [done|]. intros k'.
    rewrite (lru_peek_refines _ _ _ Href'). simpl.
    by destruct (decide (k' = k)).
  - intros rs x Hx.
    destruct (simple_session_inv 1 ops) as (rs' & x0 & Hx0 & Hinv & Hcx).
    assert (x0 = x) as -> by congruence. by apply Hsimple.
  - intros rs s Hs.
    destruct (lfu_session_inv 1 ops) as (rs' & s0 & Hs0 & Hinv & Hcs).
    assert (s0 = s) as -> by congruence.
    destruct (lfu_put_spec ops k v s Hinv) as (s' & Hput & Hinv' & Hc' & _).
    exists s'. split; [done|].
    pose proof (lfu_put_lookup ops k v s s' Hinv ltac:(lia) Hput) as Hk.
    pose proof (lfu_size _ _ Hinv') as Hsz.
    unfold LFUCache.size, Dict.len in Hsz.
    rewrite <-(insert_delete_id _ _ _ Hk) in Hsz |- *.
    rewrite map_size_insert_None in Hsz by apply lookup_delete_eq.
    assert (delete k (LFUCache.key_to_val s') = ∅) as ->.
    { apply map_size_empty_inv. lia. }
    done.
Qed.

Lemma capacity_one_holds_last_put_witness :
  LRUCacheSimple.put 2 20 (LRUCacheSimple.mk 1 [(1, 10)]) =
  Ok (LRUCacheSimple.mk 1 [(2, 20)]).
Proof.
  refine (proj1 (proj2 (capacity_one_holds_last_put [Put 1 10] 2 20))
            [None] (LRUCacheSimple.mk 1 [(1, 10)]) _).
  by vm_compute.
Defined.

(** ** How full a cache is *)

Lemma put_keys_snoc ops o :
  put_keys (ops ++ [o]) =
  match o with Put k _ => put_keys ops ∪ {[k]} | Get _ => put_keys ops end.
Proof.
  unfold put_keys. rewrite omap_app, list_to_set_app_L.
  destruct o; simpl; set_solver.
Qed.

Lemma keys_le_size (ks : list Z) (D : gset Z) :
  NoDup ks → (∀ k, k ∈ ks → k ∈ D) → (length ks ≤ size D)%nat.
Proof.
  intros Hnd Hsub. rewrite <-(size_list_to_set (C:=gset Z)) by done.
  apply subseteq_size. intros k Hk. apply Hsub. set_solver.
Qed.

Lemma keys_lt_size (ks : list Z) (D : gset Z) k0 :
  NoDup ks → (∀ k, k ∈ ks → k ∈ D) → k0 ∈ D → k0 ∉ ks →
  (length ks < size D)%nat.
Proof.
  intros Hnd Hsub Hk0 Hni.
  assert (length (k0 :: ks) ≤ size D)%nat; [|simpl in *; lia].
  apply keys_le_size; [by apply NoDup_cons|].
  intros k [->|?]%elem_of_cons; auto.
Qed.

Lemma map_le_size (m : gmap Z Z) (D : gset Z) :
  (∀ k, is_Some (m !! k) → k ∈ D) → (size m ≤ size D)%nat.
Proof.
  intros Hsub. rewrite <-(size_dom (D:=gset Z)).
  apply subseteq_size. intros k Hk%elem_of_dom. by apply Hsub.
Qed.

Lemma map_lt_size (m : gmap Z Z) (D : gset Z) k0 :
  (∀ k, is_Some (m !! k) → k ∈ D) → k0 ∈ D → m !! k0 = None →
  (size m < size D)%nat.
Proof.
  intros Hsub Hk0 Hnone.
  assert (size (<[k0 := 0%Z]> m) ≤ size D)%nat as Hle.
  { apply map_le_size. intros k. destruct (decide (k = k0)) as [->|Hne].
    - done.
    - rewrite lookup_insert_ne by done. apply Hsub. }
  rewrite map_size_insert_None in Hle by done. lia.
Qed.

(** One call on an LRUCacheSimple keeps: the stored keys are keys that were
    put, and the number of items is the smaller of the capacity and the
    number of distinct keys put. *)
Lemma simple_fill_step ops o x r x' :
  simple_inv ops x → 1 ≤ LRUCacheSimple.capacity x →
  (∀ k, k ∈ (LRUCacheSimple.cache x).*1 → k ∈ put_keys ops) →
  LRUCacheSimple.size x =
    Z.min (LRUCacheSimple.capacity x) (Z.of_nat (size (put_keys ops))) →
  LRUCacheSimple.step o x = Ok (r, x') →
  (∀ k, k ∈ (LRUCacheSimple.cache x').*1 → k ∈ put_keys (ops ++ [o])) ∧
  LRUCacheSimple.size x' =
    Z.min (LRUCacheSimple.capacity x') (Z.of_nat (size (put_keys (ops ++ [o])))).
Proof.
  destruct x as [c d]. intros Hinv Hc Hsub Hsz Hstep.
  unfold LRUCacheSimple.size, OrderedDict.len in *. simpl in *.
  pose proof (simple_nodup _ _ Hinv) as Hnd. simpl in Hnd.
  rewrite put_keys_snoc. destruct o as [k|k v]; simpl in Hstep.
  - destruct (simple_get_cases c d k Hnd) as (d' & Hg & Hlk & Hlen & _).
    rewrite Hg in Hstep. injection Hstep as <- <-. simpl. split.
    + intros k' Hk'. apply Hsub. apply od_lookup_is_Some.
      rewrite <-Hlk. by apply od_lookup_is_Some.
    + by rewrite Hlen.
  - destruct (simple_put_cases ops c d k v Hinv Hc)
      as (d' & Hp & Hk & Hkeep & Hev).
    rewrite Hp in Hstep. injection Hstep as <- <-. simpl.
    destruct (decide (k ∈ d.*1)) as [Hin|Hni].
    + destruct (Hkeep (or_introl Hin)) as [Hother Hlen].
      assert (put_keys ops ∪ {[k]} = put_keys ops) as ->.
      { specialize (Hsub _ Hin). set_solver. }
      split; [|by rewrite Hlen].
      intros k' Hk'%od_lookup_is_Some. destruct (decide (k' = k)) as [->|Hne].
      * by apply Hsub.
      * rewrite Hother in Hk' by done. by apply Hsub, od_lookup_is_Some.
    + destruct (decide (Z.of_nat (length d) < c)) as [Hlt|Hge].
      * destruct (Hkeep (or_intror Hlt)) as [Hother Hlen].
        assert (k ∉ put_keys ops) as HkD.
        { intros HkD. pose proof (keys_lt_size _ _ _ Hnd Hsub HkD Hni) as Hl.
          rewrite length_fmap in Hl. lia. }
        split.
        -- intros k' Hk'%od_lookup_is_Some.
           destruct (decide (k' = k)) as [->|Hne]; [set_solver|].
           rewrite Hother in Hk' by done.
           apply od_lookup_is_Some, Hsub in Hk'. set_solver.
        -- rewrite size_union, size_singleton by set_solver.
           clear -Hsz Hlt Hlen. lia.
      * destruct (Hev Hni ltac:(unfold OrderedDict.len; lia))
          as (e & ve & R & -> & -> & Hek & HeR & HkR & _).
        simpl in *. split.
        -- intros k' Hk'. rewrite fmap_app in Hk'.
           apply elem_of_app in Hk' as [Hk'|Hk'].
           ++ apply elem_of_union_l, Hsub. by right.
           ++ simpl in Hk'. set_solver.
        -- rewrite length_app. simpl.
           assert (size (put_keys ops) ≤ size (put_keys ops ∪ {[k]}))%nat
             by (apply subseteq_size; set_solver).
           lia.
Qed.

Lemma simple_run_fill ops0 ops x rs x' :
  simple_inv ops0 x → 1 ≤ LRUCacheSimple.capacity x →
  (∀ k, k ∈ (LRUCacheSimple.cache x).*1 → k ∈ put_keys ops0) →
  LRUCacheSimple.size x =
    Z.min (LRUCacheSimple.capacity x) (Z.of_nat (size (put_keys ops0))) →
  LRUCacheSimple.run ops x = Ok (rs, x') →
  LRUCacheSimple.size x' =
    Z.min (LRUCacheSimple.capacity x)
          (Z.of_nat (size (put_keys (ops0 ++ ops)))).
Proof.
  revert ops0 x rs.
  induction ops as [|o ops IH]; intros ops0 x rs Hinv Hc Hsub Hsz Hrun.
  - simpl in Hrun. injection Hrun as <- <-. by rewrite (right_id_L [] (++)).
  - cbn [LRUCacheSimple.run] in Hrun.
    apply bind_Ok in Hrun as ([r x1] & Hstep & ([rs1 x2] & Hrun & [= <- <-])%bind_Ok).
    destruct (simple_step_inv ops0 o x Hinv) as (r' & x1' & Hstep' & Hinv1 & Hc1).
    assert (x1' = x1) as -> by congruence.
    destruct (simple_fill_step ops0 o x r x1 Hinv Hc Hsub Hsz Hstep)
      as [Hsub1 Hsz1].
    rewrite (assoc_L (++) ops0 [o] ops : ops0 ++ o :: ops = (ops0 ++ [o]) ++ ops).
    rewrite <-Hc1. apply (IH (ops0 ++ [o]) x1 rs1 Hinv1); [lia|done..].
Qed.

(** The same for an LFUCache. *)
Lemma lfu_fill_step ops o s r s' :
  lfu_inv ops s → 1 ≤ LFUCache.capacity s →
  (∀ k, is_Some (LFUCache.key_to_val s !! k) → k ∈ put_keys ops) →
  LFUCache.size s =
    Z.min (LFUCache.capacity s) (Z.of_nat (size (put_keys ops))) →
  LFUCache.step o s = Ok (r, s') →
  (∀ k, is_Some (LFUCache.key_to_val s' !! k) → k ∈ put_keys (ops ++ [o])) ∧
  LFUCache.size s' =
    Z.min (LFUCache.capacity s') (Z.of_nat (size (put_keys (ops ++ [o])))).
Proof.
  intros Hinv Hc Hsub Hsz Hstep. unfold LFUCache.size, Dict.len in *.
  rewrite put_keys_snoc. destruct o as [k|k v]; simpl in Hstep.
  - destruct (lfu_get_spec ops k s Hinv) as (s1 & Hg & _ & Hv & Hc1).
    rewrite Hg in Hstep. injection Hstep as <- <-. by rewrite Hv, Hc1.
  - destruct (lfu_put_spec ops k v s Hinv)
      as (s1 & Hp & Hinv1 & Hc1 & _ & Hins & Hev).
    rewrite Hp in Hstep. injection Hstep as <- <-. rewrite Hc1.
    unfold LFUCache.size, Dict.len in *.
    destruct (LFUCache.key_to_val s !! k) as [v0|] eqn:Hk.
    + rewrite (Hins Hc (or_introl (mk_is_Some _ _ eq_refl))).
      assert (put_keys ops ∪ {[k]} = put_keys ops) as ->.
      { assert (k ∈ put_keys ops) by (apply Hsub; by rewrite Hk). set_solver. }
      split; [|by rewrite map_size_insert_Some].
      intros k'. destruct (decide (k' = k)) as [->|Hne].
      * intros _. apply Hsub. by rewrite Hk.
      * rewrite lookup_insert_ne by done. apply Hsub.
    + destruct (decide (Z.of_nat (size (LFUCache.key_to_val s))
                        < LFUCache.capacity s)) as [Hlt|Hge].
      * rewrite (Hins Hc (or_intror Hlt)).
        assert (k ∉ put_keys ops) as HkD.
        { intros HkD. pose proof (map_lt_size _ _ _ Hsub HkD Hk). lia. }
        split.
        -- intros k'. destruct (decide (k' = k)) as [->|Hne]; [set_solver|].
           rewrite lookup_insert_ne by done. intros ?%Hsub. set_solver.
        -- rewrite map_size_insert_None by done.
           rewrite size_union, size_singleton by set_solver. lia.
      * destruct (Hev Hc eq_refl ltac:(lia)) as (e & bm & Hb & ->).
        assert (is_Some (LFUCache.key_to_val s !! e)) as [ve Hve].
        { apply (lfu_dom _ _ (lfu_core_inv _ _ Hinv)). exists (LFUCache.min_freq s).
          apply (lfu_bucket_freq _ _ (lfu_core_inv _ _ Hinv) _ _ _ Hb). by left. }
        assert (e ≠ k) as Hek by (intros ->; congruence).
        split.
        -- intros k'. destruct (decide (k' = k)) as [->|Hne]; [set_solver|].
           rewrite lookup_insert_ne by done.
           intros [x [_ Hx]%lookup_delete_Some].
           apply elem_of_union_l, Hsub. by eexists.
        -- rewrite map_size_insert_None
             by (rewrite lookup_delete_ne; done).
           rewrite map_size_delete_Some by done.
           assert (size (put_keys ops) ≤ size (put_keys ops ∪ {[k]}))%nat
             by (apply subseteq_size; set_solver).
           pose proof (lfu_size _ _ Hinv) as Hle.
           unfold LFUCache.size, Dict.len in Hle.
           assert (size (LFUCache.key_to_val s) ≠ 0)%nat.
           { intros Hemp%map_size_empty_inv. by rewrite Hemp, lookup_empty in Hve. }
           lia.
Qed.

Lemma lfu_run_fill ops0 ops s rs s' :
  lfu_inv ops0 s → 1 ≤ LFUCache.capacity s →
  (∀ k, is_Some (LFUCache.key_to_val s !! k) → k ∈ put_keys ops0) →
  LFUCache.size s =
    Z.min (LFUCache.capacity s) (Z.of_nat (size (put_keys ops0))) →
  LFUCache.run ops s = Ok (rs, s') →
  LFUCache.size s' =
    Z.min (LFUCache.capacity s) (Z.of_nat (size (put_keys (ops0 ++ ops)))).
Proof.
  revert ops0 s rs.
  induction ops as [|o ops IH]; intros ops0 s rs Hinv Hc Hsub Hsz Hrun.
  - simpl in Hrun. injection Hrun as <- <-. by rewrite (right_id_L [] (++)).
  - cbn [LFUCache.run] in Hrun.
    apply bind_Ok in Hrun as ([r s1] & Hstep & ([rs1 s2] & Hrun & [= <- <-])%bind_Ok).
    destruct (lfu_step_inv ops0 o s Hinv) as (r' & s1' & Hstep' & Hinv1 & Hc1).
    assert (s1' = s1) as -> by congruence.
    destruct (lfu_fill_step ops0 o s r s1 Hinv Hc Hsub Hsz Hstep)
      as [Hsub1 Hsz1].
    rewrite (assoc_L (++) ops0 [o] ops : ops0 ++ o :: ops = (ops0 ++ [o]) ++ ops).
    rewrite <-Hc1. apply (IH (ops0 ++ [o]) s1 rs1 Hinv1); [lia|done..].
Qed.

(** X14.  A cache of capacity at least 1 fills up and stays full: after
    every session the number of entries is the smaller of the capacity and
    the number of distinct keys that were put. *)
Theorem size_is_min_of_capacity_and_keys_put cap ops :
  1 ≤ cap →
  (∀ rs s, LRUCache.session cap ops = Ok (rs, s) →
     LRUCache.size s = Z.min cap (Z.of_nat (size (put_keys ops)))) ∧
  (∀ rs x, LRUCacheSimple.session cap ops = Ok (rs, x) →
     LRUCacheSimple.size x = Z.min cap (Z.of_nat (size (put_keys ops)))) ∧
  (∀ rs s, LFUCache.session cap ops = Ok (rs, s) →
     LFUCache.size s = Z.min cap (Z.of_nat (size (put_keys ops)))).
Proof.
  intros Hc.
  assert (∀ rs x, LRUCacheSimple.session cap ops = Ok (rs, x) →
     LRUCacheSimple.size x = Z.min cap (Z.of_nat (size (put_keys ops))))
    as Hsimple.
  { intros rs x Hx. unfold LRUCacheSimple.session, LRUCacheSimple.init in Hx.
    cbn [mbind result_bind] in Hx.
    apply (simple_run_fill [] ops _ rs x (simple_inv_init cap)); try done.
    - simpl. by intros k ?%elem_of_nil.
    - unfold LRUCacheSimple.size, OrderedDict.len.
      change (put_keys []) with (∅ : gset Z). rewrite size_empty. simpl. lia. }
  split_and!; [|done|].
  - intros rs s Hs.
    destruct (lru_session_refines cap ops Hc)
      as (rs' & s0 & x & Hs0 & Hx & Href & _).
    assert (s0 = s) as -> by congruence.
    rewrite (refines_size _ _ Href). by eapply Hsimple.
  - intros rs s Hs. unfold LFUCache.session, LFUCache.init in Hs.
    cbn [mbind result_bind] in Hs.
    apply (lfu_run_fill [] ops _ rs s (lfu_inv_init cap)); try done.
    + simpl. intros k. rewrite lookup_empty. by intros [? ?].
    + unfold LFUCache.size, Dict.len.
      change (put_keys []) with (∅ : gset Z). cbn [LFUCache.key_to_val].
      rewrite map_size_empty, size_empty. simpl. lia.
Qed.

Lemma size_is_min_of_capacity_and_keys_put_witness :
  LFUCache.size (LFUCache.mk 2 1 {[2 := 2; 3 := 3]} {[2 := 1; 3 := 1]}
                   {[1 := [(2, ()); (3, ())]]}) =
  Z.min 2 (Z.of_nat (size (put_keys [Put 1 1; Put 2 2; Put 3 3]))).
Proof.
  refine (proj2 (proj2 (size_is_min_of_capacity_and_keys_put 2
            [Put 1 1; Put 2 2; Put 3 3] _)) [None; None; None]
            (LFUCache.mk 2 1 {[2 := 2; 3 := 3]} {[2 := 1; 3 := 1]}
               {[1 := [(2, ()); (3, ())]]}) _).
  - lia.
  - by vm_compute.
Defined.
